(** * Claude Code Context Syncer: a shallow embedding of the sync engine

    The development follows the TypeScript sources:
    - [utils.ts]    path codec ([parseClaudePath], [decodeProjectName],
                    [getTargetPaths], [sanitizeFileName], [getErrorMessage]);
    - [syncer.ts]   the [ContextSyncer] class (debounce, re-entrancy guard,
                    staleness check, JSONL parser, metadata builder);
    - [settings.ts] the summary computed by [triggerManualSync] and the
                    connection test ([validateClaudePath],
                    [countProjectsAndSessions]);
    - [main.ts]     the status bar ([updateStatusBar]).

    JavaScript strings are sequences of UTF-16 code units, files are
    sequences of bytes, and the Node runtime ([fs], [path], timers, the
    clock) is an explicit world that the code reads and updates. *)

From Stdlib Require Import ZArith NArith QArith Qminmax Qround Qabs List String Ascii Lia Bool.
From stdpp Require Import base gmap sets list strings pretty.

Local Open Scope N_scope.

(** ** JavaScript strings *)

Module JS.

(** A JavaScript string: its UTF-16 code units. *)
Abbreviation jsstring := (list N).

(** The code units of an ASCII literal. *)
Fixpoint js (s : string) : jsstring :=
  match s with
  | EmptyString => []
  | String a r => N_of_ascii a :: js r
  end.

Definition c_space : N := 32.
Definition c_dash : N := 45.
Definition c_slash : N := 47.
Definition c_backslash : N := 92.
Definition c_percent : N := 37.
Definition c_dot : N := 46.

(** [\s] of a JavaScript regular expression, which is also the set that
    [String.prototype.trim] strips: WhiteSpace and LineTerminator. *)
Definition is_space (c : N) : bool :=
  ((9 <=? c) && (c <=? 13)) || (c =? 32) || (c =? 160) || (c =? 5760)
  || ((8192 <=? c) && (c <=? 8202)) || (c =? 8232) || (c =? 8233)
  || (c =? 8239) || (c =? 8287) || (c =? 12288) || (c =? 65279).

Fixpoint drop_while {A} (p : A → bool) (s : list A) : list A :=
  match s with
  | [] => []
  | c :: r => if p c then drop_while p r else s
  end.

(** [s.replace(/[class]/g, by)] for a one-character replacement. *)
Definition replace_each (p : N → bool) (by_ : N) (s : jsstring) : jsstring :=
  (λ c, if p c then by_ else c) <$> s.

(** [s.replace(/[class]+/g, by)]: every maximal run of characters of the
    class is replaced by [by].  [in_run] tells that the previous
    character belonged to a run that was already replaced. *)
Fixpoint replace_runs_from (p : N → bool) (by_ : jsstring) (in_run : bool)
    (s : jsstring) : jsstring :=
  match s with
  | [] => []
  | c :: r =>
      if p c then
        (if in_run then [] else by_) ++ replace_runs_from p by_ true r
      else c :: replace_runs_from p by_ false r
  end.

Definition replace_runs (p : N → bool) (by_ : jsstring) (s : jsstring) : jsstring :=
  replace_runs_from p by_ false s.

(** [s.replace(/^[class]+/, '')] *)
Definition strip_leading (p : N → bool) (s : jsstring) : jsstring := drop_while p s.

Definition trimStart (s : jsstring) : jsstring := drop_while is_space s.
Definition trimEnd (s : jsstring) : jsstring := reverse (drop_while is_space (reverse s)).
Definition trim (s : jsstring) : jsstring := trimEnd (trimStart s).

(** [s.substring(0, n)] *)
Definition substring0 (n : nat) (s : jsstring) : jsstring := take n s.

(** Truthiness of a string: non-empty. *)
Definition truthy (s : jsstring) : bool :=
  match s with [] => false | _ => true end.

End JS.
Import JS.

(** ** utils.ts: the filename sanitizer *)

(** The class of [/[<>:QUOTE|?*]/]: less-than, greater-than, colon, double
    quote (34), bar, question mark, star. *)
Definition is_invalid_char (c : N) : bool :=
  (c =? 60) || (c =? 62) || (c =? 58) || (c =? 34) || (c =? 124) || (c =? 63) || (c =? 42).

Definition sanitizeFileName (name : jsstring) : jsstring :=
  substring0 255
    (trim
       (replace_runs is_space [c_space]
          (replace_each is_invalid_char c_dash name))).

(** Whitespace of [s] is normalised: every whitespace character is a plain
    space and no two of them are adjacent ([prev] tells that the character
    before [s] was a space). *)
Fixpoint single_spaced (prev : bool) (s : jsstring) : Prop :=
  match s with
  | [] => True
  | c :: r =>
      if is_space c then c = c_space ∧ prev = false ∧ single_spaced true r
      else single_spaced false r
  end.

(** What one pass of the sanitizer establishes. *)
Record sanitized (y : jsstring) : Prop := {
  sanitized_clean : Forall (λ c, is_invalid_char c = false) y;
  sanitized_spaces : single_spaced false y;
  sanitized_head : ∀ c, head y = Some c → is_space c = false;
  sanitized_length : (length y ≤ 255)%nat
}.



(** ** Errors and completions *)

(** The [code] of a Node system error. *)
Inductive Errno :=
  | EACCES | ENOENT | ENOSPC | ENOTDIR | EISDIR | EEXIST
  | ECODE (code : jsstring).

(** Thrown values: the built-in errors the code can meet and Node's system
    errors, which carry a [code]. *)
Inductive jserror :=
  | URIError (message : jsstring)
  | SyntaxError (message : jsstring)
  | TypeError (message : jsstring)
  | SystemError (code : Errno) (message : jsstring).

#[global] Instance Errno_eq_dec : EqDecision Errno.
Proof. solve_decision. Defined.

(** The completion of an expression: a value, or a thrown error. *)
Inductive completion (A : Type) :=
  | Normal (a : A)
  | Throw (e : jserror).
Arguments Normal {A} a.
Arguments Throw {A} e.

Definition cbind {A B} (c : completion A) (k : A → completion B) : completion B :=
  match c with
  | Normal a => k a
  | Throw e => Throw e
  end.

(** [try { c } catch (error) { h error }] *)
Definition try_catch {A} (c : completion A) (h : jserror → completion A) : completion A :=
  match c with
  | Normal a => Normal a
  | Throw e => h e
  end.

(** ** Unicode transformation formats *)

Module Unicode.

Definition REPLACEMENT : N := 65533.

(** One step of a UTF-8 decoder: a decoded code point or an ill-formed
    subsequence. *)
Inductive decoded := Cp (v : N) | Bad.

Definition in_range (lo hi b : N) : bool := (lo <=? b) && (b <=? hi).

(** A continuation byte. *)
Definition is_cont (b : N) : bool := in_range 128 191 b.

(** The UTF-8 decoder of the Encoding standard.  A lead byte fixes the
    length of its sequence and the range of its second byte (which rules
    out overlong forms, surrogates and code points above U+10FFFF).  An
    ill-formed sequence is reported once, for its maximal well-formed
    prefix, and the byte that ended it is read again as a lead byte. *)
Fixpoint utf8_decode (bs : list N) : list decoded :=
  match bs with
  | [] => []
  | b :: r =>
      if b <=? 127 then Cp b :: utf8_decode r
      else if in_range 194 223 b then
        match r with
        | [] => [Bad]
        | c1 :: r1 =>
            if is_cont c1 then Cp ((b - 192) * 64 + (c1 - 128)) :: utf8_decode r1
            else Bad :: utf8_decode r
        end
      else if in_range 224 239 b then
        match r with
        | [] => [Bad]
        | c1 :: r1 =>
            if in_range (if b =? 224 then 160 else 128) (if b =? 237 then 159 else 191) c1 then
              match r1 with
              | [] => [Bad]
              | c2 :: r2 =>
                  if is_cont c2 then
                    Cp (((b - 224) * 64 + (c1 - 128)) * 64 + (c2 - 128)) :: utf8_decode r2
                  else Bad :: utf8_decode r1
              end
            else Bad :: utf8_decode r
        end
      else if in_range 240 244 b then
        match r with
        | [] => [Bad]
        | c1 :: r1 =>
            if in_range (if b =? 240 then 144 else 128) (if b =? 244 then 143 else 191) c1 then
              match r1 with
              | [] => [Bad]
              | c2 :: r2 =>
                  if is_cont c2 then
                    match r2 with
                    | [] => [Bad]
                    | c3 :: r3 =>
                        if is_cont c3 then
                          Cp ((((b - 240) * 64 + (c1 - 128)) * 64 + (c2 - 128)) * 64
                              + (c3 - 128)) :: utf8_decode r3
                        else Bad :: utf8_decode r2
                    end
                  else Bad :: utf8_decode r1
              end
            else Bad :: utf8_decode r
        end
      else Bad :: utf8_decode r
  end.

(** The bytes are well-formed UTF-8. *)
Definition well_formed (bs : list N) : Prop := Bad ∉ utf8_decode bs.

(** The UTF-16 code units of a code point. *)
Definition utf16_of_cp (v : N) : jsstring :=
  if v <? 65536 then [v]
  else [55296 + (v - 65536) / 1024; 56320 + (v - 65536) mod 1024].

Definition utf16_of_decoded (d : decoded) : jsstring :=
  match d with
  | Cp v => utf16_of_cp v
  | Bad => [REPLACEMENT]
  end.

(** [buffer.toString('utf-8')]: ill-formed input becomes U+FFFD. *)
Definition utf8_to_string (bs : list N) : jsstring :=
  utf8_decode bs ≫= utf16_of_decoded.

(** The UTF-8 bytes of a code point. *)
Definition utf8_of_cp (v : N) : list N :=
  if v <? 128 then [v]
  else if v <? 2048 then [192 + v / 64; 128 + v mod 64]
  else if v <? 65536 then [224 + v / 4096; 128 + (v / 64) mod 64; 128 + v mod 64]
  else [240 + v / 262144; 128 + (v / 4096) mod 64; 128 + (v / 64) mod 64; 128 + v mod 64].

Definition is_high_surrogate (c : N) : bool := (55296 <=? c) && (c <=? 56319).
Definition is_low_surrogate (c : N) : bool := (56320 <=? c) && (c <=? 57343).

(** [Buffer.from(s, 'utf-8')]: surrogate pairs are combined, a lone
    surrogate is written as U+FFFD. *)
Fixpoint string_to_utf8 (s : jsstring) : list N :=
  match s with
  | [] => []
  | c :: r =>
      if is_high_surrogate c then
        match r with
        | d :: r' =>
            if is_low_surrogate d then
              utf8_of_cp (65536 + (c - 55296) * 1024 + (d - 56320)) ++ string_to_utf8 r'
            else utf8_of_cp REPLACEMENT ++ string_to_utf8 r
        | [] => utf8_of_cp REPLACEMENT
        end
      else if is_low_surrogate c then utf8_of_cp REPLACEMENT ++ string_to_utf8 r
      else utf8_of_cp c ++ string_to_utf8 r
  end.

End Unicode.

(** ** [decodeURIComponent] (ECMAScript, the Decode operation) *)

Definition hex_digit (c : N) : option N :=
  if (48 <=? c) && (c <=? 57) then Some (c - 48)
  else if (65 <=? c) && (c <=? 70) then Some (c - 55)
  else if (97 <=? c) && (c <=? 102) then Some (c - 87)
  else None.

(** A [%XX] escape at the head of [s]: its octet and the rest. *)
Definition percent_octet (s : jsstring) : option (N * jsstring) :=
  match s with
  | p :: h :: l :: r =>
      if p =? c_percent then
        match hex_digit h, hex_digit l with
        | Some x, Some y => Some (16 * x + y, r)
        | _, _ => None
        end
      else None
  | _ => None
  end.

(** The number of leading 1 bits of an octet. *)
Definition leading_ones (b : N) : nat :=
  if b <? 128 then 0 else if b <? 192 then 1 else if b <? 224 then 2
  else if b <? 240 then 3 else if b <? 248 then 4 else 5.

(** [n] further [%XX] escapes. *)
Fixpoint percent_octets (n : nat) (s : jsstring) : option (list N * jsstring) :=
  match n with
  | O => Some ([], s)
  | S n' =>
      match percent_octet s with
      | Some (b, r) =>
          match percent_octets n' r with
          | Some (bs, r') => Some (b :: bs, r')
          | None => None
          end
      | None => None
      end
  end.

Definition malformed : jserror := URIError (js "URI malformed").

(** The loop of Decode; every round consumes at least one code unit, and
    [fuel] bounds the number of rounds. *)
Fixpoint Decode (fuel : nat) (s : jsstring) : completion jsstring :=
  match s with
  | [] => Normal []
  | c :: r =>
      match fuel with
      | O => Throw malformed
      | S fuel' =>
          if c =? c_percent then
            match percent_octet s with
            | None => Throw malformed
            | Some (b, r1) =>
                match leading_ones b with
                | O => cbind (Decode fuel' r1) (λ t, Normal (b :: t))
                | S n =>
                    if bool_decide (n = 0%nat ∨ (4 ≤ n)%nat) then Throw malformed
                    else
                      match percent_octets n r1 with
                      | None => Throw malformed
                      | Some (bs, r2) =>
                          match Unicode.utf8_decode (b :: bs) with
                          | [Unicode.Cp v] =>
                              cbind (Decode fuel' r2)
                                    (λ t, Normal (Unicode.utf16_of_cp v ++ t))
                          | _ => Throw malformed
                          end
                      end
                end
            end
          else cbind (Decode fuel' r) (λ t, Normal (c :: t))
      end
  end.

Definition decodeURIComponent (s : jsstring) : completion jsstring :=
  Decode (length s) s.

(** ** utils.ts: [decodeProjectName] *)

(** The class [[/\\]]: slash and backslash. *)
Definition is_path_separator (c : N) : bool := (c =? c_slash) || (c =? c_backslash).

(** The [console.warn] of the [catch] block has no effect on the result and
    is left out. *)
Definition decodeProjectName (encoded : jsstring) : completion jsstring :=
  try_catch
    (cbind (decodeURIComponent encoded) (λ decoded,
       let cleaned :=
         replace_runs is_path_separator (js " - ")
           (strip_leading is_path_separator decoded) in
       Normal (if truthy cleaned then cleaned else js "Unknown Project")))
    (λ error, Normal encoded).

(** [s.split(/[class]+/)]: the pieces of [s] between the maximal runs of
    characters of the class. *)
Fixpoint split_runs_from (p : N → bool) (in_run : bool) (s : jsstring) : list jsstring :=
  match s with
  | [] => [[]]
  | c :: r =>
      if p c then
        (if in_run then [] else [[]]) ++ split_runs_from p true r
      else
        match split_runs_from p false r with
        | piece :: pieces => (c :: piece) :: pieces
        | [] => [[c]]
        end
  end.

Definition split_runs (p : N → bool) (s : jsstring) : list jsstring :=
  split_runs_from p false s.

(** [pieces.join(sep)] *)
Fixpoint join (sep : jsstring) (pieces : list jsstring) : jsstring :=
  match pieces with
  | [] => []
  | [piece] => piece
  | piece :: rest => piece ++ sep ++ join sep rest
  end.

(** ** Node's [path] module (POSIX flavour) *)

Module Path.

Definition sep : N := c_slash.

(** [s.split(c)] for a one-character separator: never empty. *)
Fixpoint split_on (c : N) (s : jsstring) : list jsstring :=
  match s with
  | [] => [[]]
  | d :: r =>
      if d =? c then [] :: split_on c r
      else
        match split_on c r with
        | piece :: pieces => (d :: piece) :: pieces
        | [] => [[d]]
        end
  end.

(** The segment loop of [normalizeString]: empty and [.] segments are
    dropped, [..] removes the segment before it, and is kept only above
    the start of a relative path.  [stack] holds the result so far, last
    segment first. *)
Fixpoint normalize_segments (allowAboveRoot : bool) (stack segs : list jsstring)
    : list jsstring :=
  match segs with
  | [] => reverse stack
  | seg :: rest =>
      if bool_decide (seg = [] ∨ seg = [c_dot]) then
        normalize_segments allowAboveRoot stack rest
      else if bool_decide (seg = [c_dot; c_dot]) then
        match stack with
        | top :: below =>
            if bool_decide (top = [c_dot; c_dot]) then
              normalize_segments allowAboveRoot
                (if allowAboveRoot then seg :: stack else stack) rest
            else normalize_segments allowAboveRoot below rest
        | [] =>
            normalize_segments allowAboveRoot
              (if allowAboveRoot then [seg] else []) rest
        end
      else normalize_segments allowAboveRoot (seg :: stack) rest
  end.

Definition normalizeString (path : jsstring) (allowAboveRoot : bool) : jsstring :=
  join [sep] (normalize_segments allowAboveRoot [] (split_on sep path)).

(** [path.normalize] *)
Definition normalize (path : jsstring) : jsstring :=
  match path with
  | [] => [c_dot]
  | first :: _ =>
      let isAbsolute := first =? sep in
      let trailingSeparator := bool_decide (last path = Some sep) in
      let res := normalizeString path (negb isAbsolute) in
      match res with
      | [] =>
          if isAbsolute then [sep]
          else if trailingSeparator then [c_dot; sep] else [c_dot]
      | _ =>
          let res' := if trailingSeparator then res ++ [sep] else res in
          if isAbsolute then sep :: res' else res'
      end
  end.

(** [path.join(...args)] for string arguments. *)
Definition join_paths (args : list jsstring) : jsstring :=
  match filter (λ a, a ≠ []) args with
  | [] => [c_dot]
  | parts => normalize (join [sep] parts)
  end.

End Path.

(** What precedes the last segment in [path.join(dir, name)]. *)
Definition joined_prefix (dir : jsstring) : jsstring :=
  let isAbsolute := match dir with first :: _ => first =? Path.sep | [] => false end in
  (if isAbsolute then [Path.sep] else [])
  ++ match Path.normalize_segments (negb isAbsolute) [] (Path.split_on Path.sep dir) with
     | [] => []
     | segs => join [Path.sep] segs ++ [Path.sep]
     end.

(** ** utils.ts: [parseClaudePath] and [getTargetPaths] *)

Record ParsedClaudePath := {
  projectsDir : jsstring;
  encodedProjectName : option jsstring;   (* [None]: [undefined] *)
  decodedProjectName : jsstring;
  pp_sessionId : jsstring;
  fullPath : jsstring
}.

Record TargetPaths := {
  projectDir : jsstring;
  jsonlFile : jsstring;
  metaFile : jsstring
}.

Fixpoint is_prefix (pat s : jsstring) : bool :=
  match pat, s with
  | [], _ => true
  | a :: pat', b :: s' => (a =? b) && is_prefix pat' s'
  | _ :: _, [] => false
  end.

(** [s.replace(pat, by)] for a non-empty string pattern: the first
    occurrence only. *)
Fixpoint replace_first (pat by_ s : jsstring) : jsstring :=
  match s with
  | [] => []
  | c :: r =>
      if is_prefix pat s then by_ ++ drop (length pat) s
      else c :: replace_first pat by_ r
  end.

(** [parts.slice(0, -2)] *)
Definition slice_0_minus2 {A} (l : list A) : list A := take (length l - 2) l.

Definition parseClaudePath (filePath : jsstring) : completion ParsedClaudePath :=
  let normalized := Path.normalize filePath in
  let parts := Path.split_on Path.sep normalized in
  (* [parts] is never empty, so [parts[parts.length - 1]] is a string *)
  let fileName := default [] (last parts) in
  (* [parts[parts.length - 2]] is [undefined] for a path of one segment *)
  let encoded := if decide (2 ≤ length parts)%nat then parts !! (length parts - 2)%nat else None in
  let projectsDir := join [Path.sep] (slice_0_minus2 parts) in
  let sessionId := replace_first (js ".jsonl") [] fileName in
  (* an [undefined] argument reaches [decodeURIComponent] as its string *)
  cbind (decodeProjectName (default (js "undefined") encoded)) (λ decoded,
    Normal {| projectsDir := projectsDir;
              encodedProjectName := encoded;
              decodedProjectName := decoded;
              pp_sessionId := sessionId;
              fullPath := normalized |}).

(** [vault.adapter.basePath] is read through [any]: it is a string on the
    desktop adapter and [undefined] otherwise, in which case [path.join]
    throws. *)
Definition getTargetPaths (vaultBasePath : option jsstring) (storagePath : jsstring)
    (parsedPath : ParsedClaudePath) : completion TargetPaths :=
  match vaultBasePath with
  | None => Throw (TypeError (js "The path argument must be of type string. Received undefined"))
  | Some base =>
      let sanitizedProjectName := sanitizeFileName (decodedProjectName parsedPath) in
      let projectDir := Path.join_paths [base; storagePath; sanitizedProjectName] in
      Normal {| projectDir := projectDir;
                jsonlFile := Path.join_paths [projectDir; pp_sessionId parsedPath ++ js ".jsonl"];
                metaFile := Path.join_paths [projectDir; pp_sessionId parsedPath ++ js ".meta.json"] |}
  end.

(** ** types.ts *)

Record ClaudeMessage := {
  timestamp : option Q;            (* [None]: [undefined] or [null] *)
  version : option jsstring;
  gitBranch : option jsstring
  (* the other fields of a line are never read by the syncer *)
}.

Record SessionMetadata := {
  sessionId : jsstring;
  projectName : jsstring;
  projectPath : option jsstring;
  messageCount : nat;
  firstTimestamp : Q;
  lastTimestamp : Q;
  md_gitBranch : option jsstring;
  md_version : option jsstring;
  syncedAt : Q;
  sourceFilePath : jsstring
}.

Inductive Action := created | updated | skipped | error.

Record SyncResult := {
  success : bool;
  r_sessionId : jsstring;
  r_projectName : jsstring;
  action : Action;
  message : option jsstring;
  r_error : option jserror
}.

Record Settings := {
  claudeProjectsPath : jsstring;
  obsidianStoragePath : jsstring;
  lastSyncTime : Z;
  enableAutoSync : bool;
  syncOnStartup : bool
}.

Definition DEFAULT_SETTINGS : Settings :=
  {| claudeProjectsPath := [];
     obsidianStoragePath := js "Claude-Contexts";
     lastSyncTime := 0;
     enableAutoSync := true;
     syncOnStartup := true |}.

(** ** The world of the plugin: files, clock, settings *)

(** A file: its bytes and its modification time in milliseconds (a
    fractional number on most platforms). *)
Record File := {
  content : list N;
  mtimeMs : Q
}.

(** The calls the syncer makes to the host: [fs.promises], the read stream
    of the parser and the plugin's [saveData]. *)
Inductive FsCall :=
  | Access (path : jsstring)
  | ReadFile (path : jsstring)
  | Stat (path : jsstring)
  | CreateReadStream (path : jsstring)
  | Mkdir (path : jsstring)
  | WriteFile (path : jsstring) (data : list N)
  | Readdir (path : jsstring)
  | SaveData (s : Settings).

Record State := {
  files : gmap jsstring File;
  (** the entries of each directory: name and [isDirectory()] *)
  dirs : gmap jsstring (list (jsstring * bool));
  (** the calls that the operating system refuses, with their code *)
  faults : FsCall → option Errno;
  (** [os.homedir()] *)
  homedir : jsstring;
  (** the successive readings of [Date.now()] *)
  clock : nat → Z;
  (** the number of readings taken so far *)
  reads : nat;
  (** the calls made so far, oldest first *)
  trace : list FsCall;
  (** the texts shown with [new Notice], oldest first *)
  notices : list jsstring;
  (** [plugin.settings] *)
  settings : Settings;
  (** the settings last persisted by [saveData] *)
  saved : option Settings;
  (** [vault.adapter.basePath] *)
  vaultBasePath : option jsstring;
  (** [ContextSyncer.syncInProgress] *)
  syncInProgress : gset jsstring
}.

Definition set_files (x : gmap jsstring File) (s : State) : State :=
  {| files := x; dirs := dirs s; faults := faults s; homedir := homedir s;
     clock := clock s; reads := reads s; trace := trace s; notices := notices s;
     settings := settings s; saved := saved s; vaultBasePath := vaultBasePath s;
     syncInProgress := syncInProgress s |}.

Definition set_reads (x : nat) (s : State) : State :=
  {| files := files s; dirs := dirs s; faults := faults s; homedir := homedir s;
     clock := clock s; reads := x; trace := trace s; notices := notices s;
     settings := settings s; saved := saved s; vaultBasePath := vaultBasePath s;
     syncInProgress := syncInProgress s |}.

Definition set_trace (x : list FsCall) (s : State) : State :=
  {| files := files s; dirs := dirs s; faults := faults s; homedir := homedir s;
     clock := clock s; reads := reads s; trace := x; notices := notices s;
     settings := settings s; saved := saved s; vaultBasePath := vaultBasePath s;
     syncInProgress := syncInProgress s |}.

Definition set_notices (x : list jsstring) (s : State) : State :=
  {| files := files s; dirs := dirs s; faults := faults s; homedir := homedir s;
     clock := clock s; reads := reads s; trace := trace s; notices := x;
     settings := settings s; saved := saved s; vaultBasePath := vaultBasePath s;
     syncInProgress := syncInProgress s |}.

Definition set_settings (x : Settings) (s : State) : State :=
  {| files := files s; dirs := dirs s; faults := faults s; homedir := homedir s;
     clock := clock s; reads := reads s; trace := trace s; notices := notices s;
     settings := x; saved := saved s; vaultBasePath := vaultBasePath s;
     syncInProgress := syncInProgress s |}.

Definition set_saved (x : option Settings) (s : State) : State :=
  {| files := files s; dirs := dirs s; faults := faults s; homedir := homedir s;
     clock := clock s; reads := reads s; trace := trace s; notices := notices s;
     settings := settings s; saved := x; vaultBasePath := vaultBasePath s;
     syncInProgress := syncInProgress s |}.

Definition set_syncInProgress (x : gset jsstring) (s : State) : State :=
  {| files := files s; dirs := dirs s; faults := faults s; homedir := homedir s;
     clock := clock s; reads := reads s; trace := trace s; notices := notices s;
     settings := settings s; saved := saved s; vaultBasePath := vaultBasePath s;
     syncInProgress := x |}.

(** An asynchronous computation of the plugin, run to completion: it reads
    and updates the world and returns or throws. *)
Definition M (A : Type) : Type := State → completion A * State.

#[global] Instance M_ret : MRet M := λ A a s, (Normal a, s).
#[global] Instance M_bind : MBind M := λ A B k c s,
  match c s with
  | (Normal a, s') => k a s'
  | (Throw e, s') => (Throw e, s')
  end.

Definition throw {A} (e : jserror) : M A := λ s, (Throw e, s).
Definition lift {A} (c : completion A) : M A := λ s, (c, s).

(** [try { c } catch (error) { h error }] *)
Definition try_catchM {A} (c : M A) (h : jserror → M A) : M A := λ s,
  match c s with
  | (Normal a, s') => (Normal a, s')
  | (Throw e, s') => h e s'
  end.

(** [try { c } finally { f }] for a [finally] block that only updates the
    state. *)
Definition try_finallyM {A} (c : M A) (f : State → State) : M A := λ s,
  let '(r, s') := c s in (r, f s').

Definition enoent (path : jsstring) : jserror :=
  SystemError ENOENT (js "ENOENT: no such file or directory").

(** A call to the host: it is recorded, and fails when the operating
    system refuses it. *)
Definition host_call {A} (c : FsCall) (k : M A) : M A := λ s,
  let s' := set_trace (trace s ++ [c]) s in
  match faults s c with
  | Some code => (Throw (SystemError code []), s')
  | None => k s'
  end.

Definition fs_access (path : jsstring) : M unit :=
  host_call (Access path) (λ s,
    match files s !! path with
    | Some _ => (Normal (), s)
    | None => (Throw (enoent path), s)
    end).

(** [fs.readFile(path, 'utf-8')] *)
Definition fs_readFile (path : jsstring) : M jsstring :=
  host_call (ReadFile path) (λ s,
    match files s !! path with
    | Some f => (Normal (Unicode.utf8_to_string (content f)), s)
    | None => (Throw (enoent path), s)
    end).

(** [fs.stat(path)], of which only [mtimeMs] is used. *)
Definition fs_stat (path : jsstring) : M Q :=
  host_call (Stat path) (λ s,
    match files s !! path with
    | Some f => (Normal (mtimeMs f), s)
    | None => (Throw (enoent path), s)
    end).

(** [fs.mkdir(path, { recursive: true })] *)
Definition fs_mkdir (path : jsstring) : M unit :=
  host_call (Mkdir path) (mret ()).

(** [fs.writeFile(path, data, 'utf-8')]: the file holds the UTF-8 encoding
    of [data]; its modification time is the current time. *)
Definition fs_writeFile (path : jsstring) (data : jsstring) : M unit :=
  let bytes := Unicode.string_to_utf8 data in
  host_call (WriteFile path bytes) (λ s,
    (Normal (),
     set_files (<[path := {| content := bytes; mtimeMs := inject_Z (clock s (reads s)) |}]> (files s)) s)).

Definition fs_readdir (path : jsstring) : M (list (jsstring * bool)) :=
  host_call (Readdir path) (λ s,
    match dirs s !! path with
    | Some entries => (Normal entries, s)
    | None => (Throw (enoent path), s)
    end).

(** [Date.now()] *)
Definition Date_now : M Z := λ s, (Normal (clock s (reads s)), set_reads (S (reads s)) s).

(** [plugin.saveSettings()] *)
Definition saveSettings : M unit := λ s,
  host_call (SaveData (settings s)) (λ s', (Normal (), set_saved (Some (settings s')) s')) s.

(** ** utils.ts: host helpers *)

Definition starts_with (pat s : jsstring) : bool := is_prefix pat s.
Definition ends_with (pat s : jsstring) : bool := is_prefix (reverse pat) (reverse s).

Definition expandHomePath (inputPath : jsstring) : M jsstring := λ s,
  if starts_with (js "~/") inputPath || bool_decide (inputPath = js "~") then
    (Normal (Path.join_paths [homedir s; drop 1 inputPath]), s)
  else (Normal inputPath, s).

Definition error_code (e : jserror) : option Errno :=
  match e with
  | SystemError code _ => Some code
  | _ => None
  end.

Definition ensureDirectory (dirPath : jsstring) : M unit :=
  try_catchM
    (fs_mkdir dirPath)
    (λ err, if bool_decide (error_code err = Some EEXIST) then mret () else throw err).

Definition error_name_and_message (e : jserror) : jsstring * jsstring :=
  match e with
  | URIError m => (js "URIError", m)
  | SyntaxError m => (js "SyntaxError", m)
  | TypeError m => (js "TypeError", m)
  | SystemError _ m => (js "Error", m)
  end.

Definition getErrorMessage (e : jserror) : jsstring :=
  match error_code e with
  | Some EACCES => js "Permission denied"
  | Some ENOENT => js "File or directory not found"
  | Some ENOSPC => js "Disk full"
  | Some ENOTDIR => js "Not a directory"
  | Some EISDIR => js "Is a directory"
  | Some EEXIST => js "File already exists"
  | Some (ECODE code) => js "File system error: " ++ code
  | None =>
      (* [error.message || error.toString()] *)
      let '(name, m) := error_name_and_message e in
      if truthy m then m else name
  end.

Definition notice (text : jsstring) : M unit := λ s,
  (Normal (), set_notices (notices s ++ [text]) s).

(** ** JSON, at the types the code reads it *)

(** [JSON.parse] and [JSON.stringify] belong to the JavaScript runtime.
    The syncer reads a line [as ClaudeMessage] and a sidecar as a
    [SessionMetadata]; [Throw] stands for the [SyntaxError] of a text that
    is not JSON.  The development holds for every such reader and writer. *)
Class JSON := {
  JSON_parse_message : jsstring → completion ClaudeMessage;
  JSON_parse_metadata : jsstring → completion SessionMetadata;
  JSON_stringify_metadata : SessionMetadata → jsstring
}.

(** ** The lines of a read stream *)

Definition is_line_end (c : N) : bool := (c =? 10) || (c =? 8232) || (c =? 8233).

(** The [line] events of [readline.createInterface] with
    [crlfDelay: Infinity]: a line ends at LF, CR LF, CR, U+2028 or U+2029,
    and what follows the last line end is a line when it is not empty.
    [cur] holds the current line, last character first. *)
Fixpoint readline_from (cur : jsstring) (s : jsstring) : list jsstring :=
  match s with
  | [] => match cur with [] => [] | _ => [reverse cur] end
  | c :: r =>
      if is_line_end c then reverse cur :: readline_from [] r
      else if c =? 13 then
        match r with
        | d :: r' =>
            if d =? 10 then reverse cur :: readline_from [] r'
            else reverse cur :: readline_from [] r
        | [] => [reverse cur]
        end
      else readline_from (c :: cur) r
  end.

Definition readline_lines (s : jsstring) : list jsstring := readline_from [] s.

(** [createReadStream] read line by line; a missing or unreadable file
    makes the iteration throw. *)
Definition read_stream_lines (filePath : jsstring) : M (list jsstring) :=
  host_call (CreateReadStream filePath) (λ s,
    match files s !! filePath with
    | Some f => (Normal (readline_lines (Unicode.utf8_to_string (content f))), s)
    | None => (Throw (enoent filePath), s)
    end).

Definition Qgtb (a b : Q) : bool := negb (Qle_bool a b).

(** [Math.min(t, ...ts)] and [Math.max(t, ...ts)] *)
Definition Math_min (t : Q) (ts : list Q) : Q := foldl Qmin t ts.
Definition Math_max (t : Q) (ts : list Q) : Q := foldl Qmax t ts.

Definition truthy_field (o : option jsstring) : bool :=
  match o with Some v => truthy v | None => false end.

(** ** syncer.ts: the [ContextSyncer] *)

Section Syncer.
Context `{!JSON}.

Definition shouldSync (sourcePath metaFilePath : jsstring) : M bool :=
  try_catchM
    (_ ← fs_access metaFilePath;
     metaContent ← fs_readFile metaFilePath;
     metadata ← lift (JSON_parse_metadata metaContent);
     sourceMtimeMs ← fs_stat sourcePath;
     mret (Qgtb sourceMtimeMs (syncedAt metadata)))
    (λ err,
       if bool_decide (error_code err = Some ENOENT) then mret true
       else mret true).

(** The body of the [for await] loop over the lines. *)
Fixpoint parse_lines (lines : list jsstring) : list ClaudeMessage :=
  match lines with
  | [] => []
  | line :: rest =>
      match trim line with
      | [] => parse_lines rest
      | _ =>
          match JSON_parse_message line with
          | Normal message => message :: parse_lines rest
          | Throw _ => parse_lines rest
          end
      end
  end.

Definition parseJsonlFile (filePath : jsstring) : M (list ClaudeMessage) :=
  try_catchM
    (lines ← read_stream_lines filePath;
     mret (parse_lines lines))
    (λ err, throw err).

Definition generateMetadata (messages : list ClaudeMessage) (sourcePath : jsstring)
    (parsedPath : ParsedClaudePath) : M SessionMetadata :=
  let timestamps := omap timestamp messages in
  let firstBranch := find (λ m, truthy_field (gitBranch m)) messages ≫= gitBranch in
  let firstVersion := find (λ m, truthy_field (version m)) messages ≫= version in
  first ← match timestamps with
          | t :: ts => mret (Math_min t ts)
          | [] => z ← Date_now; mret (inject_Z z)
          end;
  last ← match timestamps with
         | t :: ts => mret (Math_max t ts)
         | [] => z ← Date_now; mret (inject_Z z)
         end;
  now ← Date_now;
  mret {| sessionId := pp_sessionId parsedPath;
          projectName := decodedProjectName parsedPath;
          projectPath := encodedProjectName parsedPath;
          messageCount := length messages;
          firstTimestamp := first;
          lastTimestamp := last;
          md_gitBranch := firstBranch;
          md_version := firstVersion;
          syncedAt := inject_Z now;
          sourceFilePath := sourcePath |}.

Definition skipped_in_progress : SyncResult :=
  {| success := false; r_sessionId := []; r_projectName := []; action := skipped;
     message := Some (js "Sync already in progress"); r_error := None |}.

Definition skipped_up_to_date (parsedPath : ParsedClaudePath) : SyncResult :=
  {| success := true; r_sessionId := pp_sessionId parsedPath;
     r_projectName := decodedProjectName parsedPath; action := skipped;
     message := Some (js "Already up to date"); r_error := None |}.

Definition skipped_empty (parsedPath : ParsedClaudePath) : SyncResult :=
  {| success := false; r_sessionId := pp_sessionId parsedPath;
     r_projectName := decodedProjectName parsedPath; action := skipped;
     message := Some (js "Empty JSONL file"); r_error := None |}.

Definition sync_failed (err : jserror) : SyncResult :=
  {| success := false; r_sessionId := []; r_projectName := []; action := error;
     message := Some (getErrorMessage err); r_error := Some err |}.

Definition synced (parsedPath : ParsedClaudePath) (targetPaths : TargetPaths) : SyncResult :=
  {| success := true;
     r_sessionId := pp_sessionId parsedPath;
     r_projectName := decodedProjectName parsedPath;
     action := if truthy (jsonlFile targetPaths) then updated else created;
     message := None;
     r_error := None |}.

Definition set_lastSyncTime (t : Z) (x : Settings) : Settings :=
  {| claudeProjectsPath := claudeProjectsPath x;
     obsidianStoragePath := obsidianStoragePath x;
     lastSyncTime := t;
     enableAutoSync := enableAutoSync x;
     syncOnStartup := syncOnStartup x |}.

(** The [try] block of [syncSingleFile]. *)
Definition sync_try (filePath : jsstring) : M SyncResult :=
  parsedPath ← lift (parseClaudePath filePath);
  targetPaths ← (λ s,
    (getTargetPaths (vaultBasePath s) (obsidianStoragePath (settings s)) parsedPath, s));
  needed ← shouldSync filePath (metaFile targetPaths);
  if negb needed then mret (skipped_up_to_date parsedPath)
  else
    messages ← parseJsonlFile filePath;
    if bool_decide (length messages = 0%nat) then mret (skipped_empty parsedPath)
    else
      metadata ← generateMetadata messages filePath parsedPath;
      _ ← ensureDirectory (projectDir targetPaths);
      originalContent ← fs_readFile filePath;
      _ ← fs_writeFile (jsonlFile targetPaths) originalContent;
      _ ← fs_writeFile (metaFile targetPaths) (JSON_stringify_metadata metadata);
      now ← Date_now;
      _ ← (λ s, (Normal (), set_settings (set_lastSyncTime now (settings s)) s));
      _ ← saveSettings;
      mret (synced parsedPath targetPaths).

(** A call of [syncSingleFile] runs without interruption up to its first
    [await]: it is either rejected by the guard, or has marked its path
    and goes on asynchronously. *)
Inductive Started :=
  | Rejected (r : SyncResult)
  | Running (filePath : jsstring).

Definition syncSingleFile_start (filePath : jsstring) (s : State) : Started * State :=
  if bool_decide (filePath ∈ syncInProgress s) then (Rejected skipped_in_progress, s)
  else (Running filePath, set_syncInProgress ({[filePath]} ∪ syncInProgress s) s).

(** The rest of a call: [try], [catch] and [finally]. *)
Definition syncSingleFile_finish (c : Started) : M SyncResult :=
  match c with
  | Rejected r => mret r
  | Running filePath =>
      try_finallyM
        (try_catchM (sync_try filePath) (λ err, mret (sync_failed err)))
        (λ s, set_syncInProgress (syncInProgress s ∖ {[filePath]}) s)
  end.

(** A call of [syncSingleFile] that nothing interleaves with. *)
Definition syncSingleFile (filePath : jsstring) : M SyncResult := λ s,
  let '(c, s') := syncSingleFile_start filePath s in syncSingleFile_finish c s'.

(** The last part of [sync_try], from the metadata on, named to state
    facts about it. *)
Definition sync_copy (filePath : jsstring) (parsedPath : ParsedClaudePath)
    (targetPaths : TargetPaths) (messages : list ClaudeMessage) : M SyncResult :=
  metadata ← generateMetadata messages filePath parsedPath;
  _ ← ensureDirectory (projectDir targetPaths);
  originalContent ← fs_readFile filePath;
  _ ← fs_writeFile (jsonlFile targetPaths) originalContent;
  _ ← fs_writeFile (metaFile targetPaths) (JSON_stringify_metadata metadata);
  now ← Date_now;
  _ ← (λ s, (Normal (), set_settings (set_lastSyncTime now (settings s)) s));
  _ ← saveSettings;
  mret (synced parsedPath targetPaths).

Definition mark (filePath : jsstring) (s : State) : State :=
  set_syncInProgress ({[filePath]} ∪ syncInProgress s) s.
Definition unmark (filePath : jsstring) (s : State) : State :=
  set_syncInProgress (syncInProgress s ∖ {[filePath]}) s.

(** [findAllJsonlFiles]: the body of the loop over the entries of the
    projects directory. *)
Fixpoint collect_jsonl (claudePath : jsstring) (entries : list (jsstring * bool))
    (found : list jsstring) : M (list jsstring) :=
  match entries with
  | [] => mret found
  | (name, isDirectory) :: rest =>
      found' ←
        (if isDirectory then
           let projectDir := Path.join_paths [claudePath; name] in
           try_catchM
             (projectFiles ← fs_readdir projectDir;
              let jsonlFiles :=
                (λ f, Path.join_paths [projectDir; f])
                  <$> filter (λ f, ends_with (js ".jsonl") f = true) (fst <$> projectFiles) in
              mret (found ++ jsonlFiles))
             (λ err, mret found)
         else mret found);
      collect_jsonl claudePath rest found'
  end.

Definition findAllJsonlFiles (claudePath : jsstring) : M (list jsstring) :=
  try_catchM
    (entries ← fs_readdir claudePath;
     collect_jsonl claudePath entries [])
    (λ err, throw err).

Fixpoint start_all (batch : list jsstring) (s : State) : list Started * State :=
  match batch with
  | [] => ([], s)
  | f :: rest =>
      let '(c, s1) := syncSingleFile_start f s in
      let '(cs, s2) := start_all rest s1 in
      (c :: cs, s2)
  end.

Fixpoint finish_all (started : list Started) : M (list SyncResult) :=
  match started with
  | [] => mret []
  | c :: rest =>
      r ← syncSingleFile_finish c;
      rs ← finish_all rest;
      mret (r :: rs)
  end.

(** [Promise.all(batch.map(f => this.syncSingleFile(f)))]: every call runs
    up to its first [await] before any of them goes on. *)
Definition sync_batch (batch : list jsstring) : M (list SyncResult) := λ s,
  let '(started, s1) := start_all batch s in finish_all started s1.

(** The loop over the batches of ten; [fuel] bounds the number of
    batches. *)
Fixpoint sync_batches (fuel : nat) (remaining : list jsstring)
    (results : list SyncResult) : M (list SyncResult) :=
  match fuel, remaining with
  | _, [] => mret results
  | O, _ => mret results
  | S fuel', _ =>
      batchResults ← sync_batch (take 10 remaining);
      sync_batches fuel' (drop 10 remaining) (results ++ batchResults)
  end.

(** The status bar updates only display progress and are left out. *)
Definition syncAllExisting : M (list SyncResult) :=
  claudePath ← (λ s, expandHomePath (claudeProjectsPath (settings s)) s);
  if negb (truthy claudePath) then
    _ ← notice (js "Claude projects path not configured");
    mret []
  else
    try_catchM
      (files ← findAllJsonlFiles claudePath;
       if bool_decide (length files = 0%nat) then
         _ ← notice (js "No Claude conversations found to sync");
         mret []
       else sync_batches (length files) files [])
      (λ err,
         _ ← notice (js "Sync error: " ++ getErrorMessage err);
         mret []).

(** settings.ts: the counts of [triggerManualSync] and its notice. *)
Definition successCount (results : list SyncResult) : nat :=
  length (filter (λ r, success r = true) results).
Definition errorCount (results : list SyncResult) : nat :=
  length (filter (λ r, success r = false) results).

Definition summary (results : list SyncResult) : jsstring :=
  if bool_decide (errorCount results = 0%nat) then
    js "Sync complete! Synced " ++ js (pretty (successCount results)) ++ js " conversation(s)."
  else
    js "Sync complete with errors: " ++ js (pretty (successCount results))
    ++ js " succeeded, " ++ js (pretty (errorCount results)) ++ js " failed.".

Definition triggerManualSync : M unit :=
  _ ← notice (js "Starting manual sync...");
  try_catchM
    (results ← syncAllExisting;
     notice (summary results))
    (λ err, notice (js "Sync failed: " ++ getErrorMessage err)).


(** *** Calls in flight

    Calls of [syncSingleFile] interleave at their [await]s.  A call is
    split where the guard has run: [Call] runs it up to there, [Settle]
    lets a call that passed the guard run its [try], [catch] and [finally]
    and settle.  [in_flight] lists the calls that passed the guard and
    have not settled. *)
Record Engine := {
  eng_state : State;
  in_flight : list jsstring
}.

Inductive call_event :=
  | Call (filePath : jsstring)
  | Settle (filePath : jsstring).

(** One event: the engine after it, and the result when a call settles. *)
Definition engine_step (e : Engine) (ev : call_event) : Engine * option SyncResult :=
  match ev with
  | Call p =>
      match syncSingleFile_start p (eng_state e) with
      | (Rejected r, s) => ({| eng_state := s; in_flight := in_flight e |}, Some r)
      | (Running q, s) => ({| eng_state := s; in_flight := q :: in_flight e |}, None)
      end
  | Settle p =>
      if bool_decide (p ∈ in_flight e) then
        match syncSingleFile_finish (Running p) (eng_state e) with
        | (Normal r, s) =>
            ({| eng_state := s; in_flight := filter (λ q, q ≠ p) (in_flight e) |}, Some r)
        | (Throw _, s) =>
            ({| eng_state := s; in_flight := filter (λ q, q ≠ p) (in_flight e) |}, None)
        end
      else (e, None)
  end.

Definition run_events (events : list call_event) (e : Engine) : Engine :=
  foldl (λ e ev, (engine_step e ev).1) e events.

(** The calls in flight are exactly the marked paths, each once. *)
Definition guard_invariant (e : Engine) : Prop :=
  NoDup (in_flight e) ∧ ∀ p, p ∈ in_flight e ↔ p ∈ syncInProgress (eng_state e).

(** A syncer that was just constructed: no sync in progress. *)
Definition new_engine (s : State) : Engine :=
  {| eng_state := set_syncInProgress ∅ s; in_flight := [] |}.


End Syncer.

(** ** Notions of the specification *)





(** A computation leaves an observation [f] of the state unchanged. *)
Definition preserves {A X} (f : State → X) (c : M A) : Prop :=
  ∀ s, f (c s).2 = f s.

(** The results that [syncSingleFile] can return. *)
Inductive sync_outcome : SyncResult → Prop :=
  | outcome_in_progress : sync_outcome skipped_in_progress
  | outcome_up_to_date pp : sync_outcome (skipped_up_to_date pp)
  | outcome_empty pp : sync_outcome (skipped_empty pp)
  | outcome_failed e : sync_outcome (sync_failed e)
  | outcome_synced pp tp : truthy (jsonlFile tp) = true → sync_outcome (synced pp tp).

(** ** syncer.ts: the debounce of file events

    Timers are those of the event loop: [setTimeout] arms one,
    [clearTimeout] disarms it, and a timer that comes due runs its
    callback.  All timers of the debouncer have the same delay, so the
    list of armed timers, kept in arming order, is also in the order in
    which they come due. *)

Record PendingSync := {
  ps_filePath : jsstring;
  scheduledTime : Z;
  timeoutId : N
}.

(** An armed timer; its callback is
    [pendingSyncs.delete(t_path); executeSync(t_path)]. *)
Record Timer := {
  t_id : N;
  t_due : Z;
  t_path : jsstring
}.

#[global] Instance Timer_eq_dec : EqDecision Timer.
Proof. solve_decision. Defined.

Record Debouncer := {
  (** the time of the event loop, in milliseconds *)
  now : Z;
  (** [ContextSyncer.pendingSyncs] *)
  pendingSyncs : gmap jsstring PendingSync;
  timers : list Timer;
  next_id : N;
  (** the calls of [executeSync] so far: time and path, oldest first *)
  executed : list (Z * jsstring)
}.

Definition new_debouncer : Debouncer :=
  {| now := 0; pendingSyncs := ∅; timers := []; next_id := 0; executed := [] |}.

Definition clearTimeout (id : N) (ts : list Timer) : list Timer :=
  filter (λ tm, t_id tm ≠ id) ts.

Definition DEBOUNCE_MS : Z := 1000.

Definition scheduleSyncWithDebounce (filePath : jsstring) (d : Debouncer) : Debouncer :=
  (* Cancel existing debounce for this file *)
  let timers1 :=
    match pendingSyncs d !! filePath with
    | Some existing => clearTimeout (timeoutId existing) (timers d)
    | None => timers d
    end in
  (* Schedule new sync after 1 second *)
  let id := next_id d in
  {| now := now d;
     pendingSyncs :=
       <[filePath := {| ps_filePath := filePath;
                        scheduledTime := (now d + DEBOUNCE_MS)%Z;
                        timeoutId := id |}]> (pendingSyncs d);
     timers := timers1 ++ [{| t_id := id; t_due := (now d + DEBOUNCE_MS)%Z; t_path := filePath |}];
     next_id := id + 1;
     executed := executed d |}.

(** A timer comes due: it leaves the armed timers and its callback runs. *)
Definition fire (tm : Timer) (d : Debouncer) : Debouncer :=
  {| now := t_due tm;
     pendingSyncs := delete (t_path tm) (pendingSyncs d);
     timers := clearTimeout (t_id tm) (timers d);
     next_id := next_id d;
     executed := executed d ++ [(t_due tm, t_path tm)] |}.

(** Time passes up to [t]: the timers due by then fire, in order. *)
Definition advance_to (t : Z) (d : Debouncer) : Debouncer :=
  let d' := foldl (λ d tm, fire tm d) d (filter (λ tm, (t_due tm ≤ t)%Z) (timers d)) in
  {| now := Z.max t (now d);
     pendingSyncs := pendingSyncs d';
     timers := timers d';
     next_id := next_id d';
     executed := executed d' |}.

(** The watcher reports an [add] or a [change] of [filePath] at time [t]. *)
Definition file_event (d : Debouncer) (ev : Z * jsstring) : Debouncer :=
  scheduleSyncWithDebounce ev.2 (advance_to ev.1 d).

Definition run_file_events (events : list (Z * jsstring)) (d : Debouncer) : Debouncer :=
  foldl file_event d events.

(** The events come in the order of time, none before [t]. *)
Fixpoint chronological (t : Z) (events : list (Z * jsstring)) : Prop :=
  match events with
  | [] => True
  | ev :: rest => (t ≤ ev.1)%Z ∧ chronological ev.1 rest
  end.

(** The events of [filePath] form one burst: each of them comes less than
    the debounce delay after the one before ([last]). *)
Fixpoint one_burst (filePath : jsstring) (last : option Z) (events : list (Z * jsstring)) : Prop :=
  match events with
  | [] => True
  | ev :: rest =>
      if bool_decide (ev.2 = filePath) then
        match last with
        | Some t => (ev.1 < t + DEBOUNCE_MS)%Z
        | None => True
        end ∧ one_burst filePath (Some ev.1) rest
      else one_burst filePath last rest
  end.

(** The time of the last event of [filePath]. *)
Definition last_event (filePath : jsstring) (events : list (Z * jsstring)) : option Z :=
  fst <$> last (filter (λ ev, ev.2 = filePath) events).

Definition executed_for (filePath : jsstring) (d : Debouncer) : list (Z * jsstring) :=
  filter (λ x, x.2 = filePath) (executed d).

Definition timers_for (filePath : jsstring) (d : Debouncer) : list Timer :=
  filter (λ tm, t_path tm = filePath) (timers d).

Definition timer_of (ps : PendingSync) : Timer :=
  {| t_id := timeoutId ps; t_due := scheduledTime ps; t_path := ps_filePath ps |}.

Definition pending_of (tm : Timer) : PendingSync :=
  {| ps_filePath := t_path tm; scheduledTime := t_due tm; timeoutId := t_id tm |}.

(** The armed timers are those of the pending syncs, one per path, and
    their identifiers are distinct and below the next one. *)
Record debounce_invariant (d : Debouncer) : Prop := {
  inv_pending : ∀ q ps, pendingSyncs d !! q = Some ps →
                  ps_filePath ps = q ∧ timer_of ps ∈ timers d;
  inv_timers : ∀ tm, tm ∈ timers d → pendingSyncs d !! t_path tm = Some (pending_of tm);
  inv_ids : NoDup (t_id <$> timers d);
  inv_fresh : ∀ tm, tm ∈ timers d → t_id tm < next_id d
}.

(** Where the debounce of [filePath] stands after a burst whose last event
    came at [last]: nothing yet; or a sync is pending for one delay after
    [last] and none was executed; or that sync, and only that one, was
    executed. *)
Definition burst_state (filePath : jsstring) (d : Debouncer) (last : option Z) : Prop :=
  match last with
  | None => pendingSyncs d !! filePath = None ∧ executed_for filePath d = []
  | Some t =>
      (∃ ps, pendingSyncs d !! filePath = Some ps
             ∧ scheduledTime ps = (t + DEBOUNCE_MS)%Z
             ∧ executed_for filePath d = [])
      ∨ (pendingSyncs d !! filePath = None
         ∧ (t + DEBOUNCE_MS ≤ now d)%Z
         ∧ executed_for filePath d = [((t + DEBOUNCE_MS)%Z, filePath)])
  end.

(** ** A JSON reader and writer

    An instance of the interface above, used to run the syncer on
    concrete files: a reader of the JSON grammar and the views of a value
    at the declared types [ClaudeMessage] and [SessionMetadata]. *)

Module Json.

#[warnings="-register-all"] Inductive value :=
  | Null
  | Bool (b : bool)
  | Num (q : Q)
  | Str (s : jsstring)
  | Arr (elements : list value)
  | Obj (members : list (jsstring * value)).

Definition is_ws (c : N) : bool := (c =? 32) || (c =? 9) || (c =? 10) || (c =? 13).
Definition skip_ws (s : jsstring) : jsstring := drop_while is_ws s.

Definition escape (c : N) : option N :=
  if c =? 34 then Some 34 else if c =? 92 then Some 92 else if c =? 47 then Some 47
  else if c =? 98 then Some 8 else if c =? 102 then Some 12 else if c =? 110 then Some 10
  else if c =? 114 then Some 13 else if c =? 116 then Some 9 else None.

(** The characters of a string literal after its opening quote. *)
Fixpoint string_body (acc : jsstring) (s : jsstring) : option (jsstring * jsstring) :=
  match s with
  | [] => None
  | c :: r =>
      if c =? 34 then Some (reverse acc, r)
      else if c =? 92 then
        match r with
        | e :: r' =>
            if e =? 117 then
              match r' with
              | h1 :: h2 :: h3 :: h4 :: r'' =>
                  match hex_digit h1, hex_digit h2, hex_digit h3, hex_digit h4 with
                  | Some a, Some b, Some c', Some d =>
                      string_body (4096 * a + 256 * b + 16 * c' + d :: acc) r''
                  | _, _, _, _ => None
                  end
              | _ => None
              end
            else
              match escape e with
              | Some x => string_body (x :: acc) r'
              | None => None
              end
        | [] => None
        end
      else if c <? 32 then None
      else string_body (c :: acc) r
  end.

Definition is_digit (c : N) : bool := (48 <=? c) && (c <=? 57).

Fixpoint digits (acc : list N) (s : jsstring) : list N * jsstring :=
  match s with
  | c :: r => if is_digit c then digits (c - 48 :: acc) r else (reverse acc, s)
  | [] => (reverse acc, s)
  end.

Definition decimal (ds : list N) : Z := foldl (λ a d, 10 * a + Z.of_N d)%Z 0%Z ds.

(** [-? int frac? exp?] *)
Definition number (s : jsstring) : option (Q * jsstring) :=
  let '(neg, s1) := match s with c :: r => if c =? 45 then (true, r) else (false, s) | [] => (false, s) end in
  let '(int, s2) := digits [] s1 in
  match int with
  | [] => None
  | d :: more =>
      if (d =? 0) && negb (bool_decide (more = [])) then None
      else
        let frac_rest :=
          match s2 with
          | c :: r =>
              if c =? 46 then
                let '(fr, s3) := digits [] r in
                match fr with [] => None | _ => Some (fr, s3) end
              else Some ([], s2)
          | [] => Some ([], s2)
          end in
        match frac_rest with
        | None => None
        | Some (frac, s3) =>
            let exp_rest :=
              match s3 with
              | c :: r =>
                  if (c =? 101) || (c =? 69) then
                    let '(eneg, r1) :=
                      match r with
                      | g :: r0 => if g =? 45 then (true, r0) else if g =? 43 then (false, r0) else (false, r)
                      | [] => (false, r)
                      end in
                    let '(ex, s4) := digits [] r1 in
                    match ex with
                    | [] => None
                    | _ => Some ((if eneg then - decimal ex else decimal ex)%Z, s4)
                    end
                  else Some (0%Z, s3)
              | [] => Some (0%Z, s3)
              end in
            match exp_rest with
            | None => None
            | Some (e, s4) =>
                let mant := decimal (int ++ frac) in
                let e' := (e - Z.of_nat (length frac))%Z in
                let q := if (0 <=? e')%Z then inject_Z (mant * 10 ^ e')
                         else Qmake mant (Z.to_pos (10 ^ (- e'))) in
                Some (if neg then Qopp q else q, s4)
            end
        end
  end.

Fixpoint parse_value (fuel : nat) (s : jsstring) : option (value * jsstring) :=
  match fuel with
  | O => None
  | S fuel' =>
      match skip_ws s with
      | [] => None
      | c :: r =>
          if c =? 34 then
            match string_body [] r with
            | Some (str, rest) => Some (Str str, rest)
            | None => None
            end
          else if c =? 91 then
            match skip_ws r with
            | d :: r' => if d =? 93 then Some (Arr [], r')
                         else match parse_elements fuel' r with
                              | Some (l, rest) => Some (Arr l, rest)
                              | None => None
                              end
            | [] => None
            end
          else if c =? 123 then
            match skip_ws r with
            | d :: r' => if d =? 125 then Some (Obj [], r')
                         else match parse_members fuel' r with
                              | Some (l, rest) => Some (Obj l, rest)
                              | None => None
                              end
            | [] => None
            end
          else if is_prefix (js "true") (c :: r) then Some (Bool true, drop 4 (c :: r))
          else if is_prefix (js "false") (c :: r) then Some (Bool false, drop 5 (c :: r))
          else if is_prefix (js "null") (c :: r) then Some (Null, drop 4 (c :: r))
          else
            match number (c :: r) with
            | Some (q, rest) => Some (Num q, rest)
            | None => None
            end
      end
  end
with parse_elements (fuel : nat) (s : jsstring) : option (list value * jsstring) :=
  match fuel with
  | O => None
  | S fuel' =>
      match parse_value fuel' s with
      | Some (v, rest) =>
          match skip_ws rest with
          | c :: r =>
              if c =? 93 then Some ([v], r)
              else if c =? 44 then
                match parse_elements fuel' r with
                | Some (l, rest') => Some (v :: l, rest')
                | None => None
                end
              else None
          | [] => None
          end
      | None => None
      end
  end
with parse_members (fuel : nat) (s : jsstring) : option (list (jsstring * value) * jsstring) :=
  match fuel with
  | O => None
  | S fuel' =>
      match skip_ws s with
      | q :: r0 =>
          if q =? 34 then
            match string_body [] r0 with
            | Some (key, r1) =>
                match skip_ws r1 with
                | colon :: r2 =>
                    if colon =? 58 then
                      match parse_value fuel' r2 with
                      | Some (v, rest) =>
                          match skip_ws rest with
                          | c :: r =>
                              if c =? 125 then Some ([(key, v)], r)
                              else if c =? 44 then
                                match parse_members fuel' r with
                                | Some (l, rest') => Some ((key, v) :: l, rest')
                                | None => None
                                end
                              else None
                          | [] => None
                          end
                      | None => None
                      end
                    else None
                | [] => None
                end
            | None => None
            end
          else None
      | [] => None
      end
  end.

Definition syntax_error : jserror := SyntaxError (js "Unexpected token in JSON").

(** [JSON.parse(text)] *)
Definition parse (text : jsstring) : completion value :=
  match parse_value (2 * length text + 2) text with
  | Some (v, rest) =>
      match skip_ws rest with
      | [] => Normal v
      | _ => Throw syntax_error
      end
  | None => Throw syntax_error
  end.

(** [o.key]: the last member of that name. *)
Definition field (key : jsstring) (v : value) : option value :=
  match v with
  | Obj members => snd <$> last (filter (λ m, m.1 = key) members)
  | _ => None
  end.

Definition number_field (key : jsstring) (v : value) : option Q :=
  match field key v with Some (Num q) => Some q | _ => None end.

Definition string_field (key : jsstring) (v : value) : option jsstring :=
  match field key v with Some (Str s) => Some s | _ => None end.

(** A parsed line read [as ClaudeMessage]. *)
Definition as_message (v : value) : ClaudeMessage :=
  {| timestamp := number_field (js "timestamp") v;
     version := string_field (js "version") v;
     gitBranch := string_field (js "gitBranch") v |}.

(** A parsed sidecar read as a [SessionMetadata].  Reading a property of
    [null] throws; a value without a numeric [syncedAt] is not of the
    declared type and is refused as well. *)
Definition as_metadata (v : value) : completion SessionMetadata :=
  match v, number_field (js "syncedAt") v with
  | Obj _, Some t =>
      Normal {| sessionId := default [] (string_field (js "sessionId") v);
                projectName := default [] (string_field (js "projectName") v);
                projectPath := string_field (js "projectPath") v;
                messageCount :=
                  match number_field (js "messageCount") v with
                  | Some q => Z.to_nat (Qfloor q)
                  | None => 0
                  end;
                firstTimestamp := default 0%Q (number_field (js "firstTimestamp") v);
                lastTimestamp := default 0%Q (number_field (js "lastTimestamp") v);
                md_gitBranch := string_field (js "gitBranch") v;
                md_version := string_field (js "version") v;
                syncedAt := t;
                sourceFilePath := default [] (string_field (js "sourceFilePath") v) |}
  | _, _ => Throw (TypeError (js "Cannot read properties of null (reading 'syncedAt')"))
  end.

Definition hex_char (d : N) : N := if d <? 10 then 48 + d else 87 + d.

(** The characters of a string between the quotes of its literal. *)
Definition quote_char (c : N) : jsstring :=
  if c =? 34 then js "\" ++ [34]
  else if c =? 92 then js "\\"
  else if c =? 8 then js "\b" else if c =? 12 then js "\f" else if c =? 10 then js "\n"
  else if c =? 13 then js "\r" else if c =? 9 then js "\t"
  else if c <? 32 then js "\u00" ++ [hex_char (c / 16); hex_char (c mod 16)]
  else [c].

Definition quote (s : jsstring) : jsstring := [34] ++ (s ≫= quote_char) ++ [34].

(** A number in decimal; a fractional part is written with at most six
    digits. *)
Definition show_number (q : Q) : jsstring :=
  let neg := Qgtb 0 q in
  let a := Qabs q in
  let whole := Qfloor a in
  let micro := (Qfloor (a * 1000000) - whole * 1000000)%Z in
  let frac := reverse (drop_while (λ c, c =? 48) (reverse (
                replicate (6 - length (js (pretty micro))) 48 ++ js (pretty micro)))) in
  (if neg then [c_dash] else []) ++ js (pretty whole)
  ++ match frac with [] => [] | _ => c_dot :: frac end.

Definition member (key : jsstring) (v : jsstring) : list jsstring :=
  [js "  " ++ quote key ++ js ": " ++ v].

Definition optional_member (key : jsstring) (v : option jsstring) : list jsstring :=
  match v with Some x => member key (quote x) | None => [] end.

(** [JSON.stringify(metadata, null, 2)]: one member per line, indented
    by two spaces, the [undefined] members left out. *)
Definition stringify_metadata (m : SessionMetadata) : jsstring :=
  js "{" ++ [10]
  ++ join (js "," ++ [10])
       (member (js "sessionId") (quote (sessionId m))
        ++ member (js "projectName") (quote (projectName m))
        ++ optional_member (js "projectPath") (projectPath m)
        ++ member (js "messageCount") (js (pretty (messageCount m)))
        ++ member (js "firstTimestamp") (show_number (firstTimestamp m))
        ++ member (js "lastTimestamp") (show_number (lastTimestamp m))
        ++ optional_member (js "gitBranch") (md_gitBranch m)
        ++ optional_member (js "version") (md_version m)
        ++ member (js "syncedAt") (show_number (syncedAt m))
        ++ member (js "sourceFilePath") (quote (sourceFilePath m)))
  ++ [10] ++ js "}".

#[global] Instance json : JSON := {|
  JSON_parse_message line := cbind (parse line) (λ v, Normal (as_message v));
  JSON_parse_metadata text := cbind (parse text) as_metadata;
  JSON_stringify_metadata := stringify_metadata
|}.

End Json.

(** ** Concrete worlds *)

Module Demo.

(** JSON texts are written with apostrophes for the double quotes. *)
Definition jq (s : string) : jsstring := (λ c, if c =? 39 then 34 else c) <$> js s.

Definition text_file (text : jsstring) (mtime : Q) : File :=
  {| content := Unicode.string_to_utf8 text; mtimeMs := mtime |}.

Definition root : jsstring := js "/home/u/.claude/projects".
Definition project : jsstring := js "home%2Fu%2Fproj".
Definition session1 : jsstring := js "/home/u/.claude/projects/home%2Fu%2Fproj/s1.jsonl".
Definition session2 : jsstring := js "/home/u/.claude/projects/home%2Fu%2Fproj/s2.jsonl".
Definition copy1 : jsstring := js "/vault/Claude-Contexts/home - u - proj/s1.jsonl".
Definition sidecar1 : jsstring := js "/vault/Claude-Contexts/home - u - proj/s1.meta.json".

(** A world without faults: the clock starts at 5000 and advances by one
    millisecond per reading. *)
Definition world (fs : list (jsstring * File)) : State :=
  {| files := list_to_map fs;
     dirs := list_to_map
               [(root, [(project, true)]);
                (root ++ js "/" ++ project, [(js "s1.jsonl", false); (js "s2.jsonl", false);
                                             (js "notes.txt", false)])];
     faults := λ _, None;
     homedir := js "/home/u";
     clock := λ n, (5000 + Z.of_nat n)%Z;
     reads := 0;
     trace := [];
     notices := [];
     settings := {| claudeProjectsPath := js "~/.claude/projects";
                    obsidianStoragePath := js "Claude-Contexts";
                    lastSyncTime := 0;
                    enableAutoSync := true;
                    syncOnStartup := true |};
     saved := None;
     vaultBasePath := Some (js "/vault");
     syncInProgress := ∅ |}.

(** Three lines, the second of which is not JSON. *)
Definition three_lines : jsstring :=
  jq "{'type':'user','timestamp':1700,'gitBranch':'main'}" ++ [10]
  ++ js "this is not json" ++ [10]
  ++ jq "{'type':'assistant','timestamp':1650,'version':'1.0.3'}" ++ [10].

End Demo.

Module Runs.
Import Demo.

(** A session of three lines that was never synced. *)
Definition fresh : State := world [(session1, text_file three_lines 1000)].

(** The result of its sync. *)
Definition synced1 : SyncResult :=
  {| success := true; r_sessionId := js "s1"; r_projectName := js "home - u - proj";
     action := updated; message := None; r_error := None |}.

(** A session whose sidecar was written at the very time of its last
    modification. *)
Definition same_time : State :=
  world [(session1, text_file three_lines 1000);
         (sidecar1, text_file (jq "{ 'sessionId': 's1', 'syncedAt': 1000 }") 1000)].


(** A project with a session of three lines and an empty session. *)
Definition two_sessions : State :=
  world [(session1, text_file three_lines 1000); (session2, text_file [] 1000)].

(** A session whose second line was torn in the middle of a character: the
    byte 255 is not UTF-8.  Its first line is a valid entry. *)
Definition torn_bytes : list N :=
  Unicode.string_to_utf8 (jq "{'type':'user','timestamp':1700}") ++ [10; 255; 10].

Definition torn : State :=
  world [(session1, {| content := torn_bytes; mtimeMs := 1000 |})].

(** The bytes of its copy: U+FFFD where the source has 255. *)
Definition torn_copy : list N :=
  Unicode.string_to_utf8 (jq "{'type':'user','timestamp':1700}") ++ [10; 239; 191; 189; 10].

Definition parsed1 : ParsedClaudePath :=
  {| projectsDir := root;
     encodedProjectName := Some project;
     decodedProjectName := js "home - u - proj";
     pp_sessionId := js "s1";
     fullPath := session1 |}.

(** File events: three changes of a session less than a second apart,
    among the events of another session. *)
Definition burst : list (Z * jsstring) :=
  [(0%Z, session1); (300%Z, session2); (900%Z, session1); (1800%Z, session1);
   (2900%Z, session2)].


Definition skipped2 : SyncResult :=
  {| success := false; r_sessionId := js "s2"; r_projectName := js "home - u - proj";
     action := skipped; message := Some (js "Empty JSONL file"); r_error := None |}.

End Runs.

(** ** Notions used to state further properties *)

(** The calls of a batch that passed the guard. *)
Definition running (started : list Started) : list jsstring :=
  omap (λ c, match c with Running p => Some p | Rejected _ => None end) started.


(** What [fs.readdir] answers for a directory: [None] when the call is
    refused or the directory does not exist. *)
Definition listing (s : State) (dir : jsstring) : option (list (jsstring * bool)) :=
  match faults s (Readdir dir) with
  | Some _ => None
  | None => dirs s !! dir
  end.

(** The session files that one entry of the projects directory
    contributes: for a subdirectory that can be listed, its names that end
    in [.jsonl], joined to its path. *)
Definition jsonl_files_of (s : State) (claudePath : jsstring) (entry : jsstring * bool)
    : list jsstring :=
  if entry.2 then
    let projectDir := Path.join_paths [claudePath; entry.1] in
    match listing s projectDir with
    | Some projectFiles =>
        (λ f, Path.join_paths [projectDir; f])
          <$> filter (λ f, ends_with (js ".jsonl") f = true) (fst <$> projectFiles)
    | None => []
    end
  else [].

(** The directories that the search lists below the projects directory. *)
Definition project_dirs (claudePath : jsstring) (entries : list (jsstring * bool))
    : list jsstring :=
  (λ entry, Path.join_paths [claudePath; entry.1]) <$> filter (λ entry, entry.2 = true) entries.


(** A name as [fs.readdir] returns them: not empty, not [.] nor [..], and
    without separator. *)
Definition plain_name (name : jsstring) : Prop :=
  name ≠ [] ∧ name ≠ [c_dot] ∧ name ≠ [c_dot; c_dot] ∧ Forall (λ x, x ≠ Path.sep) name.

#[global] Instance plain_name_dec name : Decision (plain_name name).
Proof. unfold plain_name. apply _. Defined.

(** The absolute path with the given segments. *)
Definition absolute (segs : list jsstring) : jsstring := Path.sep :: join [Path.sep] segs.


(** The times at which the debounce lets a sync of [filePath] through, by
    time [horizon]: one delay after every event of the path that is not
    followed, before that delay has passed, by another event of the path.
    [pending] is the time of the last event of the path seen so far. *)
Fixpoint debounced (filePath : jsstring) (pending : option Z) (events : list (Z * jsstring))
    (horizon : Z) : list Z :=
  match events with
  | [] =>
      match pending with
      | Some t => if decide (t + DEBOUNCE_MS ≤ horizon)%Z then [(t + DEBOUNCE_MS)%Z] else []
      | None => []
      end
  | ev :: rest =>
      if decide (ev.2 = filePath) then
        match pending with
        | Some t =>
            if decide (t + DEBOUNCE_MS ≤ ev.1)%Z
            then (t + DEBOUNCE_MS)%Z :: debounced filePath (Some ev.1) rest horizon
            else debounced filePath (Some ev.1) rest horizon
        | None => debounced filePath (Some ev.1) rest horizon
        end
      else debounced filePath pending rest horizon
  end.

(** The watcher of the syncer and its pending syncs.  [watcher] tells
    that [ContextSyncer.watcher] is not [null]. *)
Record Watching := {
  watcher : bool;
  debouncer : Debouncer
}.

(** [stopWatching]: the watcher, if any, is closed and forgotten; the
    timer of every pending sync is disarmed and the pending syncs are
    cleared. *)
Definition stopWatching (w : Watching) : Watching :=
  let d := debouncer w in
  {| watcher := false;
     debouncer :=
       {| now := now d;
          pendingSyncs := ∅;
          timers := foldr (λ pending ts, clearTimeout (timeoutId pending) ts) (timers d)
                      (map_to_list (pendingSyncs d)).*2;
          next_id := next_id d;
          executed := executed d |} |}.


(** Where the debounce of [filePath] stands when its last event came at
    [pending] and its syncs at the times [done_] were executed before:
    the sync of that event is still pending, or it was executed too. *)
Definition debounce_state (filePath : jsstring) (d : Debouncer) (pending : option Z)
    (done_ : list Z) : Prop :=
  match pending with
  | None =>
      pendingSyncs d !! filePath = None
      ∧ executed_for filePath d = (λ t, (t, filePath)) <$> done_
  | Some t =>
      (∃ ps, pendingSyncs d !! filePath = Some ps
             ∧ scheduledTime ps = (t + DEBOUNCE_MS)%Z
             ∧ executed_for filePath d = (λ t, (t, filePath)) <$> done_)
      ∨ (pendingSyncs d !! filePath = None
         ∧ (t + DEBOUNCE_MS ≤ now d)%Z
         ∧ executed_for filePath d
           = (λ t, (t, filePath)) <$> (done_ ++ [(t + DEBOUNCE_MS)%Z]))
  end.


(** ** settings.ts: the connection test *)

Record ValidationResult := {
  valid : bool;
  v_message : jsstring;
  projectCount : option nat;     (* [None]: the field is absent *)
  sessionCount : option nat
}.

(** [fs.stat(path)], of which only [isDirectory()] is used. *)
Definition fs_stat_isDirectory (path : jsstring) : M bool :=
  host_call (Stat path) (λ s,
    match dirs s !! path, files s !! path with
    | Some _, _ => (Normal true, s)
    | None, Some _ => (Normal false, s)
    | None, None => (Throw (enoent path), s)
    end).

(** [fs.access(path)] and [fs.access(path, fs.constants.R_OK)] for a path
    that may name a directory: the call is refused by the system, or fails
    with [ENOENT] when nothing has that name. *)
Definition fs_access_entry (path : jsstring) : M unit :=
  host_call (Access path) (λ s,
    match dirs s !! path, files s !! path with
    | None, None => (Throw (enoent path), s)
    | _, _ => (Normal (), s)
    end).

(** [countProjectsAndSessions]: the body of the loop over the entries,
    with the two counters. *)
Fixpoint count_entries (projectsPath : jsstring) (entries : list (jsstring * bool))
    (counts : nat * nat) : M (nat * nat) :=
  match entries with
  | [] => mret counts
  | (name, isDirectory) :: rest =>
      counts' ←
        (if isDirectory then
           let projectCount := S counts.1 in
           let projectDir := Path.join_paths [projectsPath; name] in
           try_catchM
             (files ← fs_readdir projectDir;
              let jsonlFiles := filter (λ f, ends_with (js ".jsonl") f = true) (fst <$> files) in
              mret (projectCount, (counts.2 + length jsonlFiles)%nat))
             (λ _, mret (projectCount, counts.2))
         else mret counts);
      count_entries projectsPath rest counts'
  end.

(** The outer [catch] is reached only when the projects directory cannot
    be listed, before any counting. *)
Definition countProjectsAndSessions (projectsPath : jsstring) : M (nat * nat) :=
  try_catchM
    (entries ← fs_readdir projectsPath;
     count_entries projectsPath entries (0%nat, 0%nat))
    (λ _, mret (0%nat, 0%nat)).

Definition invalid (text : jsstring) : ValidationResult :=
  {| valid := false; v_message := text; projectCount := None; sessionCount := None |}.

Definition validateClaudePath (inputPath : jsstring) : M ValidationResult :=
  if negb (truthy inputPath) || bool_decide (trim inputPath = []) then
    mret (invalid (js "Path cannot be empty"))
  else
    try_catchM
      (expandedPath ← expandHomePath (trim inputPath);
       stats ← try_catchM (isDirectory ← fs_stat_isDirectory expandedPath;
                           mret (inr isDirectory))
                 (λ err,
                    if bool_decide (error_code err = Some ENOENT)
                    then mret (inl (invalid (js "Path does not exist")))
                    else mret (inl (invalid (getErrorMessage err))));
       match stats with
       | inl result => mret result
       | inr isDirectory =>
           if negb isDirectory then mret (invalid (js "Path is not a directory"))
           else
             readable ← try_catchM (_ ← fs_access_entry expandedPath; mret true)
                          (λ _, mret false);
             if negb readable then
               mret (invalid (js "Directory is not readable (permission denied)"))
             else
               counts ← countProjectsAndSessions expandedPath;
               mret {| valid := true;
                       v_message := js "Connection successful";
                       projectCount := Some counts.1;
                       sessionCount := Some counts.2 |}
       end)
      (λ err, mret (invalid (getErrorMessage err))).

(** ** utils.ts: relative times *)

(** The quotients are floored, as [Math.floor] does. *)
Definition formatRelativeTime (timestamp : Z) : M jsstring :=
  now ← Date_now;
  let diff := (now - timestamp)%Z in
  let seconds := (diff / 1000)%Z in
  let minutes := (seconds / 60)%Z in
  let hours := (minutes / 60)%Z in
  let days := (hours / 24)%Z in
  mret (if decide (seconds < 60)%Z then js "just now"
        else if decide (minutes < 60)%Z then js (pretty minutes) ++ js "m ago"
        else if decide (hours < 24)%Z then js (pretty hours) ++ js "h ago"
        else js (pretty days) ++ js "d ago").

(** ** utils.ts: separators of a platform

    [path.sep] is [/] on POSIX and the backslash on Windows. *)
Definition toUnixPath (sep : N) (p : jsstring) : jsstring :=
  join [c_slash] (Path.split_on sep p).

Definition toPlatformPath (sep : N) (p : jsstring) : jsstring :=
  join [sep] (Path.split_on c_slash p).

(** ** main.ts: the status bar *)

Record StatusBar := {
  sb_text : jsstring;
  sb_classes : gset jsstring
}.

Definition updateStatusBar (customStatus : option jsstring) (bar : option StatusBar)
    : M (option StatusBar) :=
  match bar with
  | None => mret None
  | Some item =>
      if truthy_field customStatus then
        mret (Some {| sb_text := js "Claude: " ++ default [] customStatus;
                      sb_classes := sb_classes item |})
      else
        settings ← (λ s, (Normal (settings s), s));
        let cleared :=
          sb_classes item ∖ {[js "claude-syncer-success"]} ∖ {[js "claude-syncer-error"]} in
        if negb (truthy (claudeProjectsPath settings)) then
          mret (Some {| sb_text := js "Claude: Not configured"; sb_classes := cleared |})
        else if bool_decide (lastSyncTime settings = 0%Z) then
          mret (Some {| sb_text := js "Claude: Ready"; sb_classes := cleared |})
        else
          relativeTime ← formatRelativeTime (lastSyncTime settings);
          mret (Some {| sb_text := js "Claude: " ++ relativeTime;
                        sb_classes :=
                          ({[js "claude-syncer-success"]} ∪ sb_classes item)
                            ∖ {[js "claude-syncer-error"]} |})
  end.

(** ** syncer.ts: starting the watcher

    The watcher itself belongs to chokidar; what the syncer decides is
    whether one is opened.  The result tells that [this.watcher] is set. *)
Definition startWatching (watching : bool) : M bool :=
  if watching then mret true
  else
    claudePath ← (λ s, expandHomePath (claudeProjectsPath (settings s)) s);
    if negb (truthy claudePath) then mret false
    else
      try_catchM
        (_ ← fs_access_entry claudePath;
         mret true)
        (λ err,
           _ ← notice (js "Failed to start watching Claude directory: " ++ getErrorMessage err);
           mret false).


(** ** syncer.ts: [executeSync]

    The sync that the debounce lets through: the console messages are left
    out; what remains is the sync and the update of the status bar. *)
Definition executeSync `{!JSON} (filePath : jsstring) (bar : option StatusBar)
    : M (option StatusBar) :=
  try_catchM
    (result ← syncSingleFile filePath;
     updateStatusBar None bar)
    (λ err, mret bar).

#[global] Instance decoded_eq_dec : EqDecision Unicode.decoded.
Proof. solve_decision. Defined.

#[global] Instance well_formed_dec bs : Decision (Unicode.well_formed bs).
Proof. unfold Unicode.well_formed. apply _. Defined.

(** ** Further concrete worlds *)

Module Worlds.
Import Demo Runs.

(** The segments of the projects directory of [Demo.world]. *)
Definition root_segments : list jsstring := [js "home"; js "u"; js ".claude"; js "projects"].

(** The settings of [Demo.world] with another projects path. *)
Definition with_path (path : jsstring) (s : State) : State :=
  set_settings {| claudeProjectsPath := path;
                  obsidianStoragePath := obsidianStoragePath (settings s);
                  lastSyncTime := lastSyncTime (settings s);
                  enableAutoSync := enableAutoSync (settings s);
                  syncOnStartup := syncOnStartup (settings s) |} s.

(** The projects path was typed with a space after it. *)
Definition trailing_space : State := with_path (root ++ js " ") two_sessions.

(** The projects path names no directory. *)
Definition nowhere : State := with_path (js "/nowhere") two_sessions.

(** The path of the projects directory is given in full. *)
Definition full_path : State := with_path root two_sessions.

(** A session that was last modified in the future of the clock. *)
Definition future_source : State := world [(session1, text_file three_lines 9000)].

(** The metadata of the first sync of [fresh]. *)
Definition metadata1 : SessionMetadata :=
  {| sessionId := js "s1";
     projectName := js "home - u - proj";
     projectPath := Some project;
     messageCount := 2;
     firstTimestamp := 1650;
     lastTimestamp := 1700;
     md_gitBranch := Some (js "main");
     md_version := Some (js "1.0.3");
     syncedAt := 5000;
     sourceFilePath := session1 |}.

Definition targets1 : TargetPaths :=
  {| projectDir := js "/vault/Claude-Contexts/home - u - proj";
     jsonlFile := copy1;
     metaFile := sidecar1 |}.

End Worlds.


(** * Properties *)

Section list_helpers.
Context {A : Type} (p : A → bool).

Lemma drop_while_suffix (s : list A) : ∃ t, s = t ++ drop_while p s.
Proof.
  induction s as [|c r [t Ht]]; simpl; [by exists []|].
  destruct (p c); [|by exists []].
  exists (c :: t). simpl. by f_equal.
Qed.

Lemma drop_while_length (s : list A) : (length (drop_while p s) ≤ length s)%nat.
Proof. induction s as [|c r IH]; simpl; [lia|]. destruct (p c); simpl; lia. Qed.

Lemma drop_while_head_false (s : list A) c :
  head s = Some c → p c = false → drop_while p s = s.
Proof. destruct s as [|d r]; simpl; [done|]. intros [= ->] ->. done. Qed.

Lemma drop_while_head (s : list A) c :
  head (drop_while p s) = Some c → p c = false.
Proof.
  induction s as [|d r IH]; simpl; [done|].
  destruct (p d) eqn:E; [done|]. simpl. by intros [= <-].
Qed.
End list_helpers.

Lemma trimEnd_prefix s : ∃ t, s = trimEnd s ++ t.
Proof.
  unfold trimEnd. destruct (drop_while_suffix is_space (reverse s)) as [t Ht].
  exists (reverse t). rewrite <- reverse_app, <- Ht. by rewrite reverse_involutive.
Qed.

Lemma trimEnd_length s : (length (trimEnd s) ≤ length s)%nat.
Proof.
  unfold trimEnd. rewrite length_reverse.
  etrans; [apply drop_while_length|]. by rewrite length_reverse.
Qed.


Lemma trimEnd_id s :
  (∀ c, last s = Some c → is_space c = false) → trimEnd s = s.
Proof.
  intros H. unfold trimEnd.
  destruct (reverse s) as [|c r] eqn:E.
  - simpl. apply (f_equal reverse) in E. rewrite reverse_involutive in E. by subst.
  - rewrite (drop_while_head_false _ _ c); [| done |].
    + rewrite <- E. apply reverse_involutive.
    + apply H. by rewrite <- head_reverse, E.
Qed.

Example sanitize_ex1 :
  sanitizeFileName (js "  a<b>  c:d	 e ") = js "a-b- c-d e".
Proof. reflexivity. Qed.

(** *** The sanitizer *)

Lemma replace_each_clean s :
  Forall (λ c, is_invalid_char c = false) (replace_each is_invalid_char c_dash s).
Proof.
  unfold replace_each. induction s as [|c r IH]; csimpl; constructor; [|done].
  destruct (is_invalid_char c) eqn:E; done.
Qed.

Lemma replace_each_id s :
  Forall (λ c, is_invalid_char c = false) s → replace_each is_invalid_char c_dash s = s.
Proof.
  unfold replace_each. induction 1 as [|c r Hc _ IH]; csimpl; [done|].
  by rewrite Hc, IH.
Qed.

Lemma replace_runs_clean b s :
  Forall (λ c, is_invalid_char c = false) s →
  Forall (λ c, is_invalid_char c = false) (replace_runs_from is_space [c_space] b s).
Proof.
  intros H. revert b. induction H as [|c r Hc _ IH]; intros b; simpl; [done|].
  destruct (is_space c).
  - apply Forall_app; split; [|done]. destruct b; repeat constructor.
  - by constructor.
Qed.

Lemma replace_runs_single_spaced b s :
  single_spaced b (replace_runs_from is_space [c_space] b s).
Proof.
  revert b. induction s as [|c r IH]; intros b; simpl; [done|].
  destruct (is_space c) eqn:E.
  - destruct b; simpl; [apply IH|]. repeat split. apply IH.
  - simpl. rewrite E. apply IH.
Qed.


Lemma single_spaced_weaken b s : single_spaced b s → single_spaced false s.
Proof. destruct s as [|c r]; simpl; [done|]. destruct (is_space c); tauto. Qed.

Lemma single_spaced_app_l b s t : single_spaced b (s ++ t) → single_spaced b s.
Proof.
  revert b. induction s as [|c r IH]; intros b; simpl; [done|].
  destruct (is_space c); [|apply IH]. intros (? & ? & ?). eauto.
Qed.

Lemma single_spaced_app_r b s t : single_spaced b (s ++ t) → single_spaced false t.
Proof.
  revert b. induction s as [|c r IH]; intros b; simpl; [apply single_spaced_weaken|].
  destruct (is_space c); [|apply IH]. intros (? & ? & ?). eauto.
Qed.

Lemma sanitized_prefix_of_trimmed z y t :
  Forall (λ c, is_invalid_char c = false) z →
  single_spaced false z →
  trimStart z = y ++ t →
  (length y ≤ 255)%nat →
  sanitized y.
Proof.
  intros Hc Hs Hy Hl.
  destruct (drop_while_suffix is_space z) as [u Hu].
  fold (trimStart z) in Hu. rewrite Hy in Hu.
  split; [| | |done].
  - rewrite Hu in Hc. apply Forall_app in Hc as [_ Hc].
    by apply Forall_app in Hc as [Hc _].
  - rewrite Hu in Hs. apply single_spaced_app_r in Hs.
    by apply single_spaced_app_l in Hs.
  - intros c Hh. apply (drop_while_head is_space z). fold (trimStart z).
    rewrite Hy. apply head_app_Some. by left.
Qed.

Lemma sanitizeFileName_sanitized x : sanitized (sanitizeFileName x).
Proof.
  unfold sanitizeFileName, substring0, trim.
  set (z := replace_runs _ _ _).
  destruct (trimEnd_prefix (trimStart z)) as [t Ht].
  apply (sanitized_prefix_of_trimmed z _ (drop 255 (trimEnd (trimStart z)) ++ t)).
  - apply replace_runs_clean, replace_each_clean.
  - apply replace_runs_single_spaced.
  - by rewrite app_assoc, take_drop.
  - rewrite length_take. lia.
Qed.






(** *** The project-name decoder *)

Example decodeURIComponent_ex1 :
  decodeURIComponent (js "home%2Fuser%2Fproj") = Normal (js "home/user/proj").
Proof. reflexivity. Qed.

Example decodeURIComponent_ex2 :
  decodeURIComponent (js "caf%C3%A9%20%F0%9F%98%80") = Normal (js "caf" ++ [233; 32; 55357; 56832]).
Proof. reflexivity. Qed.

Example decodeURIComponent_ex3 :
  decodeURIComponent (js "100%") = Throw malformed ∧
  decodeURIComponent (js "%E0%A4%A") = Throw malformed ∧
  decodeURIComponent (js "%C0%80") = Throw malformed ∧
  decodeURIComponent (js "%ED%A0%80") = Throw malformed ∧
  decodeURIComponent (js "%zz") = Throw malformed.
Proof. repeat split; reflexivity. Qed.

Example split_runs_ex :
  split_runs is_path_separator (js "/a//b\c/") = [ []; js "a"; js "b"; js "c"; [] ].
Proof. reflexivity. Qed.

Lemma percent_octet_length s b r :
  percent_octet s = Some (b, r) → length s = (3 + length r)%nat.
Proof.
  destruct s as [|p [|h [|l r']]]; simpl; try done.
  destruct (p =? c_percent); [|done].
  destruct (hex_digit h), (hex_digit l); try done.
  by intros [= _ ->].
Qed.

Lemma percent_octets_length n s bs r :
  percent_octets n s = Some (bs, r) → (length r ≤ length s)%nat.
Proof.
  revert s bs r. induction n as [|n IH]; intros s bs r; simpl.
  - by intros [= _ ->].
  - destruct (percent_octet s) as [[b r1]|] eqn:E1; [|done].
    destruct (percent_octets n r1) as [[bs' r2]|] eqn:E2; [|done].
    intros [= _ <-]. apply IH in E2. apply percent_octet_length in E1. lia.
Qed.

(** The fuel given by [decodeURIComponent] is enough: more fuel does not
    change the result. *)
Lemma Decode_fuel f1 f2 s :
  (length s ≤ f1)%nat → (length s ≤ f2)%nat → Decode f1 s = Decode f2 s.
Proof.
  revert f2 s. induction f1 as [|f1 IH]; intros f2 s H1 H2.
  { destruct s; simpl in *; [by destruct f2 | lia]. }
  destruct s as [|c r]; [by destruct f2|].
  destruct f2 as [|f2]; [simpl in H2; lia|].
  cbn [Decode]. destruct (c =? c_percent).
  - destruct (percent_octet (c :: r)) as [[b r1]|] eqn:E1; [|done].
    apply percent_octet_length in E1.
    destruct (leading_ones b) as [|n].
    + rewrite (IH f2 r1); [done | simpl in *; lia..].
    + case_bool_decide; [done|].
      destruct (percent_octets n r1) as [[bs r2]|] eqn:E2; [|done].
      apply percent_octets_length in E2.
      rewrite (IH f2 r2); [done | simpl in *; lia..].
  - rewrite (IH f2 r); [done | simpl in *; lia..].
Qed.

Lemma split_runs_from_nonempty p b s : split_runs_from p b s ≠ [].
Proof.
  revert b. induction s as [|c r IH]; intros b; simpl; [done|].
  destruct (p c).
  - destruct b; simpl; [apply IH | done].
  - by destruct (split_runs_from p false r).
Qed.

(** Replacing the runs is splitting at the runs and joining the pieces. *)
Lemma replace_runs_from_split_join p by_ b s :
  replace_runs_from p by_ b s = join by_ (split_runs_from p b s).
Proof.
  revert b. induction s as [|c r IH]; intros b; simpl; [done|].
  destruct (p c).
  - destruct b; simpl; [apply IH|].
    rewrite IH. pose proof (split_runs_from_nonempty p true r).
    by destruct (split_runs_from p true r).
  - rewrite IH. pose proof (split_runs_from_nonempty p false r).
    destruct (split_runs_from p false r) as [|piece [|piece' pieces]]; done.
Qed.

Lemma replace_runs_from_Forall (P : N → Prop) p by_ b s :
  Forall P by_ → (∀ c, c ∈ s → p c = false → P c) →
  Forall P (replace_runs_from p by_ b s).
Proof.
  intros Hby. revert b. induction s as [|c r IH]; intros b Hs; simpl; [done|].
  destruct (p c) eqn:E.
  - apply Forall_app; split; [by destruct b|]. apply IH. intros; apply Hs; [by right|done].
  - constructor; [apply Hs; [by left|done]|]. apply IH. intros; apply Hs; [by right|done].
Qed.

(** C9.  [decodeProjectName] never throws.  When the percent-decoding
    succeeds, the result is the decoded text without its leading path
    separators, cut at every run of separators and joined with [" - "]
    (or ["Unknown Project"] when nothing is left), and no separator
    remains in it; when the percent-encoding is malformed, the result is
    the encoded segment itself.  [home%2Fuser%2Fproj] gives
    [home - user - proj]. *)
Theorem C9_decodeProjectName_total :
  (∀ encoded : jsstring, ∃ name : jsstring,
     decodeProjectName encoded = Normal name ∧
     match decodeURIComponent encoded with
     | Normal decoded =>
         let cleaned :=
           join (js " - ")
             (split_runs is_path_separator (drop_while is_path_separator decoded)) in
         name = (if bool_decide (cleaned = []) then js "Unknown Project" else cleaned)
         ∧ Forall (λ c, is_path_separator c = false) name
     | Throw _ => name = encoded
     end)
  ∧ decodeProjectName (js "home%2Fuser%2Fproj") = Normal (js "home - user - proj")
  ∧ decodeProjectName (js "%2F%2F") = Normal (js "Unknown Project")
  ∧ decodeProjectName (js "100%done") = Normal (js "100%done").
Proof.
  split; [|by vm_compute].
  intros encoded. unfold decodeProjectName.
  destruct (decodeURIComponent encoded) as [decoded|e]; simpl; [|by eexists].
  eexists; split; [done|].
  unfold replace_runs, strip_leading, split_runs.
  rewrite <- replace_runs_from_split_join.
  set (cleaned := replace_runs_from _ _ _ _).
  assert (Forall (λ c, is_path_separator c = false) cleaned) as Hc.
  { apply replace_runs_from_Forall; [by repeat constructor | done]. }
  destruct cleaned as [|c r]; simpl; [|done].
  split; [done|]. by repeat constructor.
Qed.

(** *** Paths *)

Example normalize_ex :
  Path.normalize (js "/home/u/.claude//projects/./a%2Fb/../a%2Fb/s1.jsonl")
    = js "/home/u/.claude/projects/a%2Fb/s1.jsonl"
  ∧ Path.normalize (js "../../x/") = js "../../x/"
  ∧ Path.normalize (js "/../x") = js "/x"
  ∧ Path.normalize (js "a/..") = js "."
  ∧ Path.join_paths [js "/vault"; js "Claude-Contexts"; js "home - u - proj"]
    = js "/vault/Claude-Contexts/home - u - proj"
  ∧ Path.join_paths [[]; []] = js ".".
Proof. repeat split; reflexivity. Qed.

Example parseClaudePath_ex :
  parseClaudePath (js "/home/u/.claude/projects/home%2Fu%2Fproj/abc-123.jsonl")
  = Normal {| projectsDir := js "/home/u/.claude/projects";
              encodedProjectName := Some (js "home%2Fu%2Fproj");
              decodedProjectName := js "home - u - proj";
              pp_sessionId := js "abc-123";
              fullPath := js "/home/u/.claude/projects/home%2Fu%2Fproj/abc-123.jsonl" |}.
Proof. reflexivity. Qed.

Lemma normalize_nonempty p : Path.normalize p ≠ [].
Proof.
  unfold Path.normalize. destruct p as [|first r]; [done|].
  destruct (Path.normalizeString _ _) as [|c res].
  - by repeat case_match.
  - destruct (first =? Path.sep); [done|]. by case_match.
Qed.

Lemma join_paths_nonempty args : Path.join_paths args ≠ [].
Proof.
  unfold Path.join_paths. case_match; [done|]. apply normalize_nonempty.
Qed.

(** The destination paths are never the empty string. *)
Lemma getTargetPaths_jsonlFile_truthy base storage parsed t :
  getTargetPaths base storage parsed = Normal t → truthy (jsonlFile t) = true.
Proof.
  unfold getTargetPaths. destruct base; [|done]. intros [= <-]. simpl.
  pose proof (join_paths_nonempty
    [Path.join_paths [l; storage; sanitizeFileName (decodedProjectName parsed)];
     pp_sessionId parsed ++ js ".jsonl"]) as H.
  by destruct (Path.join_paths _).
Qed.

(** The last segment of a joined path. *)

Lemma split_on_nonempty c s : Path.split_on c s ≠ [].
Proof.
  destruct s as [|d r]; simpl; [done|].
  destruct (d =? c); [done|]. by destruct (Path.split_on c r).
Qed.

Lemma split_on_app c s t :
  Path.split_on c (s ++ c :: t) = Path.split_on c s ++ Path.split_on c t.
Proof.
  induction s as [|d r IH]; simpl.
  { by rewrite N.eqb_refl. }
  destruct (d =? c); [by rewrite IH|].
  rewrite IH. pose proof (split_on_nonempty c r).
  by destruct (Path.split_on c r).
Qed.

Lemma split_on_free c t : Forall (λ x, x ≠ c) t → Path.split_on c t = [t].
Proof.
  induction 1 as [|d r Hd _ IH]; simpl; [done|].
  apply N.eqb_neq in Hd. by rewrite Hd, IH.
Qed.

Lemma split_on_pieces c s : Forall (Forall (λ x, x ≠ c)) (Path.split_on c s).
Proof.
  induction s as [|d r IH]; simpl; [by repeat constructor|].
  destruct (N.eqb_spec d c) as [->|Hne]; [by constructor|].
  destruct (Path.split_on c r) as [|piece pieces]; [by repeat constructor|].
  apply Forall_cons in IH as [Hp Hps]. constructor; [by constructor|done].
Qed.

Lemma normalize_segments_app allow stack l1 l2 :
  Path.normalize_segments allow stack (l1 ++ l2)
  = Path.normalize_segments allow (reverse (Path.normalize_segments allow stack l1)) l2.
Proof.
  revert stack. induction l1 as [|seg l1 IH]; intros stack; simpl.
  { by rewrite reverse_involutive. }
  repeat case_match; apply IH.
Qed.

(** A segment that is a plain name stays where it is. *)
Lemma normalize_segments_snoc allow segs name :
  name ≠ [] → name ≠ [c_dot] → name ≠ [c_dot; c_dot] →
  Path.normalize_segments allow [] (segs ++ [name])
  = Path.normalize_segments allow [] segs ++ [name].
Proof.
  intros H0 H1 H2. rewrite normalize_segments_app. simpl.
  rewrite bool_decide_eq_false_2 by (by intros [?|?]).
  rewrite bool_decide_eq_false_2 by done.
  by rewrite reverse_cons, reverse_involutive.
Qed.

Lemma join_snoc sep l name :
  join sep (l ++ [name])
  = match l with [] => name | _ => join sep l ++ sep ++ name end.
Proof.
  induction l as [|a l IH]; [done|].
  destruct l as [|b l]; [done|]. cbn [app] in *.
  change (join sep (a :: b :: l ++ [name]))
    with (a ++ sep ++ join sep (b :: l ++ [name])).
  rewrite IH.
  change (join sep (a :: b :: l)) with (a ++ sep ++ join sep (b :: l)).
  by rewrite <- !app_assoc.
Qed.

Lemma join_paths_name dir name :
  dir ≠ [] → Forall (λ x, x ≠ Path.sep) name →
  name ≠ [] → name ≠ [c_dot] → name ≠ [c_dot; c_dot] →
  Path.join_paths [dir; name] = joined_prefix dir ++ name.
Proof.
  intros Hdir Hfree H0 H1 H2. unfold Path.join_paths.
  rewrite !filter_cons_True, filter_nil by done.
  change (join [Path.sep] [dir; name]) with (dir ++ Path.sep :: name).
  unfold Path.normalize, joined_prefix, Path.normalizeString.
  destruct dir as [|first dir']; [done|]. cbn [app].
  change (first :: dir' ++ Path.sep :: name) with ((first :: dir') ++ Path.sep :: name).
  rewrite split_on_app, (split_on_free _ name) by done.
  rewrite normalize_segments_snoc, join_snoc by done.
  assert (last ((first :: dir') ++ Path.sep :: name) ≠ Some Path.sep) as Hlast.
  { rewrite last_app_cons. destruct (last name) as [x|] eqn:El.
    - rewrite last_cons, El. intros [= ->].
      apply last_Some_elem_of in El. rewrite Forall_forall in Hfree.
      by apply (Hfree Path.sep).
    - by apply last_None in El. }
  rewrite bool_decide_eq_false_2 by done.
  generalize (Path.normalize_segments (negb (first =? Path.sep)) []
                (Path.split_on Path.sep (first :: dir'))).
  intros segs. destruct name as [|n name']; [done|].
  destruct (first =? Path.sep), segs as [|seg segs]; try done.
  - destruct (join [Path.sep] (seg :: segs) ++ [Path.sep] ++ n :: name') eqn:Ej.
    + by destruct (join [Path.sep] (seg :: segs)).
    + rewrite <- Ej. cbn [app]. by rewrite <- !app_assoc.
  - destruct (join [Path.sep] (seg :: segs) ++ [Path.sep] ++ n :: name') eqn:Ej.
    + by destruct (join [Path.sep] (seg :: segs)).
    + rewrite <- Ej. cbn [app]. by rewrite <- !app_assoc.
Qed.

Lemma replace_first_Forall (P : N → Prop) pat s :
  Forall P s → Forall P (replace_first pat [] s).
Proof.
  induction 1 as [|c r Hc Hr IH]; simpl; [done|].
  case_match; [|by constructor].
  simpl. destruct pat as [|a pat']; simpl; [by constructor|].
  by apply Forall_drop.
Qed.

(** The session identifier is a plain name: it holds no separator. *)
Lemma parseClaudePath_sessionId filePath pp :
  parseClaudePath filePath = Normal pp →
  Forall (λ x, x ≠ Path.sep) (pp_sessionId pp).
Proof.
  unfold parseClaudePath. destruct (decodeProjectName _); simpl; [|done].
  intros [= <-]. simpl. apply replace_first_Forall.
  pose proof (split_on_pieces Path.sep (Path.normalize filePath)) as Hp.
  destruct (last _) as [fileName|] eqn:El; simpl; [|done].
  apply last_Some_elem_of in El. rewrite Forall_forall in Hp. by apply Hp.
Qed.

(** The copy and the sidecar of a session are different files. *)
Lemma getTargetPaths_distinct base storage filePath pp tp :
  parseClaudePath filePath = Normal pp →
  getTargetPaths base storage pp = Normal tp →
  jsonlFile tp ≠ metaFile tp.
Proof.
  intros Hpp Htp. apply parseClaudePath_sessionId in Hpp.
  unfold getTargetPaths in Htp. destruct base as [base|]; [|done].
  injection Htp as <-. cbn [jsonlFile metaFile].
  set (dir := Path.join_paths [base; _; _]).
  assert (∀ ext, ext ≠ [] → Forall (λ x, x ≠ Path.sep) ext → (3 ≤ length ext)%nat →
            Path.join_paths [dir; pp_sessionId pp ++ ext]
            = joined_prefix dir ++ pp_sessionId pp ++ ext) as Hjoin.
  { intros ext Hne Hfree Hlen. apply join_paths_name.
    - apply join_paths_nonempty.
    - by apply Forall_app.
    - by destruct (pp_sessionId pp), ext.
    - intros E. apply (f_equal length) in E. rewrite length_app in E. simpl in E. lia.
    - intros E. apply (f_equal length) in E. rewrite length_app in E. simpl in E. lia. }
  rewrite !Hjoin; [|done|by vm_compute; repeat constructor|simpl; lia
                   |done|by vm_compute; repeat constructor|simpl; lia].
  intros E. by do 2 apply app_inv_head in E.
Qed.

(** *** The staleness check *)

Lemma Qgtb_true a b : Qgtb a b = true ↔ (b < a)%Q.
Proof.
  unfold Qgtb. rewrite negb_true_iff, <- not_true_iff_false, Qle_bool_iff.
  split; [apply Qnot_le_lt | apply Qlt_not_le].
Qed.

Lemma Qgtb_false a b : Qgtb a b = false ↔ (a <= b)%Q.
Proof.
  unfold Qgtb. by rewrite negb_false_iff, Qle_bool_iff.
Qed.

Section Syncer_facts.
Context `{!JSON}.

(** [shouldSync], call by call. *)
Lemma shouldSync_unfold src meta s :
  shouldSync src meta s =
    match faults s (Access meta), files s !! meta with
    | None, Some g =>
        match faults s (ReadFile meta),
              JSON_parse_metadata (Unicode.utf8_to_string (content g)) with
        | None, Normal prior =>
            match faults s (Stat src), files s !! src with
            | None, Some f =>
                (Normal (Qgtb (mtimeMs f) (syncedAt prior)),
                 set_trace (trace s ++ [Access meta; ReadFile meta; Stat src]) s)
            | _, _ =>
                (Normal true,
                 set_trace (trace s ++ [Access meta; ReadFile meta; Stat src]) s)
            end
        | _, _ => (Normal true, set_trace (trace s ++ [Access meta; ReadFile meta]) s)
        end
    | _, _ => (Normal true, set_trace (trace s ++ [Access meta]) s)
    end.
Proof.
  unfold shouldSync, try_catchM, mbind, M_bind, mret, M_ret, lift,
    fs_access, fs_readFile, fs_stat, host_call.
  destruct (faults s (Access meta)) eqn:Ea; simpl; [by repeat case_match|].
  destruct (files s !! meta) as [g|] eqn:Em; simpl; [|by repeat case_match].
  rewrite Em.
  destruct (faults s (ReadFile meta)) eqn:Er; simpl;
    [unfold set_trace; simpl; rewrite <- app_assoc; by repeat case_match|].
  destruct (JSON_parse_metadata _) as [prior|e] eqn:Ep; simpl;
    [|unfold set_trace; simpl; rewrite <- app_assoc; by repeat case_match].
  destruct (faults s (Stat src)) eqn:Es; simpl;
    [unfold set_trace; simpl; rewrite <- !app_assoc; by repeat case_match|].
  destruct (files s !! src) as [f|] eqn:Ef; simpl;
    unfold set_trace; simpl; rewrite <- !app_assoc; by repeat case_match.
Qed.

(** [shouldSync] never throws, and leaves everything but the trace as it
    was. *)
Lemma shouldSync_returns src meta s :
  ∃ b t, shouldSync src meta s = (Normal b, set_trace (trace s ++ t) s)
         ∧ Forall (λ c, c = Access meta ∨ c = ReadFile meta ∨ c = Stat src) t.
Proof.
  rewrite shouldSync_unfold.
  repeat case_match; do 2 eexists; (split; [done|]);
    repeat (apply Forall_cons_2; [by auto|]); apply Forall_nil_2.
Qed.


(** When even the source cannot be stat'ed, the check asks for a sync (which
    will then report the error). *)
Lemma shouldSync_source_unreadable src meta s :
  faults s (Stat src) ≠ None ∨ files s !! src = None →
  (shouldSync src meta s).1 = Normal true.
Proof.
  intros Hsrc. rewrite shouldSync_unfold.
  repeat case_match; simpl; try done. destruct Hsrc; congruence.
Qed.

End Syncer_facts.

(** *** The single-file sync, case by case *)

Lemma decodeProjectName_returns encoded : ∃ name, decodeProjectName encoded = Normal name.
Proof.
  unfold decodeProjectName. destruct (decodeURIComponent encoded); simpl; eauto.
Qed.


Section Sync_cases.
Context `{!JSON}.

Lemma parseJsonlFile_unfold p s :
  parseJsonlFile p s =
    match faults s (CreateReadStream p), files s !! p with
    | None, Some f =>
        (Normal (parse_lines (readline_lines (Unicode.utf8_to_string (content f)))),
         set_trace (trace s ++ [CreateReadStream p]) s)
    | Some code, _ =>
        (Throw (SystemError code []), set_trace (trace s ++ [CreateReadStream p]) s)
    | None, None =>
        (Throw (enoent p), set_trace (trace s ++ [CreateReadStream p]) s)
    end.
Proof.
  unfold parseJsonlFile, try_catchM, mbind, M_bind, mret, M_ret, throw,
    read_stream_lines, host_call.
  destruct (faults s (CreateReadStream p)); simpl; [done|].
  by destruct (files s !! p).
Qed.

Lemma generateMetadata_unfold messages src pp s :
  generateMetadata messages src pp s =
    let now0 := inject_Z (clock s (reads s)) in
    let now1 := inject_Z (clock s (S (reads s))) in
    let now2 := inject_Z (clock s (S (S (reads s)))) in
    let build first last now :=
      {| sessionId := pp_sessionId pp;
         projectName := decodedProjectName pp;
         projectPath := encodedProjectName pp;
         messageCount := length messages;
         firstTimestamp := first;
         lastTimestamp := last;
         md_gitBranch := find (λ m, truthy_field (gitBranch m)) messages ≫= gitBranch;
         md_version := find (λ m, truthy_field (version m)) messages ≫= version;
         syncedAt := now;
         sourceFilePath := src |} in
    match omap timestamp messages with
    | t :: ts =>
        (Normal (build (Math_min t ts) (Math_max t ts) now0), set_reads (S (reads s)) s)
    | [] =>
        (Normal (build now0 now1 now2), set_reads (S (S (S (reads s)))) s)
    end.
Proof.
  unfold generateMetadata, mbind, M_bind, mret, M_ret, Date_now.
  by destruct (omap timestamp messages).
Qed.

(** The sync of one file is its last part after the three tests. *)
Lemma sync_try_unfold p s :
  sync_try p s =
    match parseClaudePath p with
    | Throw e => (Throw e, s)
    | Normal pp =>
        match getTargetPaths (vaultBasePath s) (obsidianStoragePath (settings s)) pp with
        | Throw e => (Throw e, s)
        | Normal tp =>
            match shouldSync p (metaFile tp) s with
            | (Throw e, s1) => (Throw e, s1)
            | (Normal false, s1) => (Normal (skipped_up_to_date pp), s1)
            | (Normal true, s1) =>
                match parseJsonlFile p s1 with
                | (Throw e, s2) => (Throw e, s2)
                | (Normal [], s2) => (Normal (skipped_empty pp), s2)
                | (Normal messages, s2) => sync_copy p pp tp messages s2
                end
            end
        end
    end.
Proof.
  unfold sync_try, sync_copy, mbind, M_bind, mret, M_ret, lift.
  destruct (parseClaudePath p) as [pp|]; [|done].
  destruct (getTargetPaths _ _ _) as [tp|]; [|done].
  destruct (shouldSync _ _ _) as [[[]|] s1]; simpl; [|done..].
  destruct (parseJsonlFile _ _) as [[[|m ms]|] s2]; simpl; done.
Qed.

End Sync_cases.

(** *** What a computation leaves unchanged *)

Section Frame.
Context {X : Type} (f : State → X).

Lemma preserves_ret {A} (a : A) : preserves f (mret a).
Proof. done. Qed.

Lemma preserves_throw {A} e : preserves f (@throw A e).
Proof. done. Qed.

Lemma preserves_lift {A} (c : completion A) : preserves f (lift c).
Proof. done. Qed.

Lemma preserves_bind {A B} (c : M A) (k : A → M B) :
  preserves f c → (∀ a, preserves f (k a)) → preserves f (c ≫= k).
Proof.
  intros Hc Hk s. unfold mbind, M_bind. specialize (Hc s).
  destruct (c s) as [[a|e] s1]; simpl in *; [|done].
  by rewrite Hk.
Qed.

Lemma preserves_try_catch {A} (c : M A) (h : jserror → M A) :
  preserves f c → (∀ e, preserves f (h e)) → preserves f (try_catchM c h).
Proof.
  intros Hc Hh s. unfold try_catchM. specialize (Hc s).
  destruct (c s) as [[a|e] s1]; simpl in *; [done|].
  by rewrite Hh.
Qed.

Lemma preserves_if {A} (b : bool) (c1 c2 : M A) :
  preserves f c1 → preserves f c2 → preserves f (if b then c1 else c2).
Proof. by destruct b. Qed.

Lemma preserves_host_call {A} (call : FsCall) (k : M A) :
  (∀ t s, f (set_trace t s) = f s) → preserves f k → preserves f (host_call call k).
Proof.
  intros Ht Hk s. unfold host_call.
  destruct (faults s call); simpl; [apply Ht|].
  by rewrite Hk, Ht.
Qed.

End Frame.

Ltac frame_step :=
  first
    [ apply preserves_bind; [|intros ?]
    | apply preserves_try_catch; [|intros ?]
    | apply preserves_host_call; [done|]
    | apply preserves_ret
    | apply preserves_throw
    | apply preserves_lift
    | match goal with |- preserves _ (if _ then _ else _) => case_match end
    | match goal with |- preserves _ (match ?x with _ => _ end) => destruct x end
    | (intros ?; done) ].

Ltac frame := repeat frame_step.

Section Frame_syncer.
Context `{!JSON}.

Lemma shouldSync_preserves {X} (f : State → X) src meta :
  (∀ t s, f (set_trace t s) = f s) → preserves f (shouldSync src meta).
Proof.
  intros Ht s. destruct (shouldSync_returns src meta s) as (b & t & -> & _). apply Ht.
Qed.

Lemma parseJsonlFile_preserves {X} (f : State → X) p :
  (∀ t s, f (set_trace t s) = f s) → preserves f (parseJsonlFile p).
Proof.
  intros Ht s. rewrite parseJsonlFile_unfold. repeat case_match; apply Ht.
Qed.

Lemma generateMetadata_preserves {X} (f : State → X) messages src pp :
  (∀ n s, f (set_reads n s) = f s) → preserves f (generateMetadata messages src pp).
Proof.
  intros Hn s. rewrite generateMetadata_unfold. simpl. case_match; apply Hn.
Qed.

(** Nothing in the [try] block touches the set of syncs in progress. *)
Lemma sync_try_preserves_syncInProgress p : preserves syncInProgress (sync_try p).
Proof.
  unfold sync_try.
  apply preserves_bind; [frame|intros pp].
  apply preserves_bind; [by intros s|intros tp].
  apply preserves_bind; [by apply shouldSync_preserves|intros b].
  case_match; [frame|].
  apply preserves_bind; [by apply parseJsonlFile_preserves|intros messages].
  case_match; [frame|].
  apply preserves_bind; [by apply generateMetadata_preserves|intros md].
  unfold ensureDirectory, fs_mkdir, fs_readFile, fs_writeFile, saveSettings.
  frame; try (intros s; simpl; by repeat case_match).
  intros s. unfold host_call. by case_match.
Qed.

End Frame_syncer.

Section Sync_outcomes.
Context `{!JSON}.

Lemma syncSingleFile_start_cases p s :
  (p ∈ syncInProgress s ∧ syncSingleFile_start p s = (Rejected skipped_in_progress, s)) ∨
  ((p ∉ syncInProgress s) ∧ syncSingleFile_start p s = (Running p, mark p s)).
Proof. unfold syncSingleFile_start. case_bool_decide; auto. Qed.

Lemma syncSingleFile_finish_running p s :
  syncSingleFile_finish (Running p) s =
    let '(c, s1) := sync_try p s in
    (Normal (match c with Normal r => r | Throw e => sync_failed e end), unmark p s1).
Proof.
  unfold syncSingleFile_finish, try_finallyM, try_catchM.
  by destruct (sync_try p s) as [[r|e] s1].
Qed.

Lemma syncSingleFile_unfold p s :
  syncSingleFile p s =
    if bool_decide (p ∈ syncInProgress s) then (Normal skipped_in_progress, s)
    else
      let '(c, s1) := sync_try p (mark p s) in
      (Normal (match c with Normal r => r | Throw e => sync_failed e end), unmark p s1).
Proof.
  unfold syncSingleFile, syncSingleFile_start.
  case_bool_decide; [done|]. apply syncSingleFile_finish_running.
Qed.

(** The last part of a sync returns [synced] when it does not throw. *)
Lemma sync_copy_result p pp tp messages s r s' :
  sync_copy p pp tp messages s = (Normal r, s') → r = synced pp tp.
Proof.
  unfold sync_copy, mbind, M_bind, mret, M_ret. intros Hrun.
  repeat (case_match; simplify_eq/=). done.
Qed.

Lemma sync_try_outcome p s r s' :
  sync_try p s = (Normal r, s') → sync_outcome r.
Proof.
  rewrite sync_try_unfold. intros Hrun.
  destruct (parseClaudePath p) as [pp|]; [|done].
  destruct (getTargetPaths _ _ _) as [tp|] eqn:Etp; [|done].
  destruct (shouldSync _ _ _) as [[[]|] s1]; simplify_eq; [|constructor].
  destruct (parseJsonlFile _ _) as [[[|m ms]|] s2]; simplify_eq; [constructor|].
  apply sync_copy_result in Hrun as ->. constructor.
  by eapply getTargetPaths_jsonlFile_truthy.
Qed.

(** [syncSingleFile] never throws, and returns one of five results. *)
Lemma syncSingleFile_finish_outcome c s :
  (c = Rejected skipped_in_progress ∨ ∃ p, c = Running p) →
  ∃ r s', syncSingleFile_finish c s = (Normal r, s') ∧ sync_outcome r.
Proof.
  intros [->|[p ->]].
  - do 2 eexists. split; [done|constructor].
  - rewrite syncSingleFile_finish_running.
    destruct (sync_try p s) as [[r|e] s1] eqn:E; do 2 eexists; (split; [done|]).
    + by eapply sync_try_outcome.
    + constructor.
Qed.

Lemma syncSingleFile_outcome p s :
  ∃ r s', syncSingleFile p s = (Normal r, s') ∧ sync_outcome r.
Proof.
  unfold syncSingleFile.
  destruct (syncSingleFile_start_cases p s) as [[_ ->]|[_ ->]];
    apply syncSingleFile_finish_outcome; eauto.
Qed.

Lemma start_all_cases batch s :
  Forall (λ c, c = Rejected skipped_in_progress ∨ ∃ p, c = Running p) (start_all batch s).1.
Proof.
  revert s. induction batch as [|f rest IH]; intros s; simpl; [done|].
  destruct (syncSingleFile_start_cases f s) as [[_ ->]|[_ ->]].
  - specialize (IH s). destruct (start_all rest s) as [cs s2]. constructor; eauto.
  - specialize (IH (mark f s)). destruct (start_all rest (mark f s)) as [cs s2].
    constructor; eauto.
Qed.

Lemma finish_all_outcomes started s :
  Forall (λ c, c = Rejected skipped_in_progress ∨ ∃ p, c = Running p) started →
  ∃ rs s', finish_all started s = (Normal rs, s') ∧ Forall sync_outcome rs.
Proof.
  intros Hs. revert s. induction Hs as [|c rest Hc _ IH]; intros s; simpl.
  { by eexists _, _. }
  unfold mbind, M_bind.
  destruct (syncSingleFile_finish_outcome c s Hc) as (r & s1 & -> & Hr).
  destruct (IH s1) as (rs & s2 & -> & Hrs).
  eexists _, _. split; [done|]. by constructor.
Qed.

Lemma sync_batch_outcomes batch s :
  ∃ rs s', sync_batch batch s = (Normal rs, s') ∧ Forall sync_outcome rs.
Proof.
  unfold sync_batch. pose proof (start_all_cases batch s) as Hs.
  destruct (start_all batch s) as [started s1]. by apply finish_all_outcomes.
Qed.

Lemma sync_batches_outcomes fuel remaining results s :
  Forall sync_outcome results →
  ∃ rs s', sync_batches fuel remaining results s = (Normal rs, s') ∧ Forall sync_outcome rs.
Proof.
  revert remaining results s. induction fuel as [|fuel IH]; intros remaining results s Hres.
  { destruct remaining; by eexists _, _. }
  destruct remaining as [|f rest]; [by eexists _, _|].
  cbn [sync_batches]. unfold mbind, M_bind.
  destruct (sync_batch_outcomes (take 10 (f :: rest)) s) as (rs & s1 & -> & Hrs).
  apply IH. by apply Forall_app.
Qed.

(** Every result of a bulk sync is a result of [syncSingleFile]. *)
Lemma syncAllExisting_outcomes s results :
  (syncAllExisting s).1 = Normal results → Forall sync_outcome results.
Proof.
  unfold syncAllExisting, mbind, M_bind, try_catchM, notice, mret, M_ret.
  destruct (expandHomePath _ s) as [[claudePath|] s0]; simpl; [|done].
  destruct (truthy claudePath); simpl; [|by intros [= <-]].
  destruct (findAllJsonlFiles claudePath s0) as [[found|] s1]; simpl;
    [|by intros [= <-]].
  case_bool_decide; simpl; [by intros [= <-]|].
  destruct (sync_batches_outcomes (length found) found [] s1) as (rs & s2 & -> & Hrs);
    [done|].
  by intros [= <-].
Qed.

Lemma sync_outcome_skipped r :
  sync_outcome r → action r = skipped →
  (message r = Some (js "Already up to date") ∧ success r = true) ∨
  (message r = Some (js "Empty JSONL file") ∧ success r = false) ∨
  (message r = Some (js "Sync already in progress") ∧ success r = false).
Proof.
  destruct 1; simpl; intros Ha; try done; auto.
  by destruct (truthy _).
Qed.

Lemma errorCount_pos results r :
  r ∈ results → success r = false → (0 < errorCount results)%nat.
Proof.
  intros Hr Hs. unfold errorCount.
  assert (r ∈ filter (λ r, success r = false) results) as Hin
    by (by apply list_elem_of_filter).
  destruct (filter _ results); [by apply elem_of_nil in Hin|simpl; lia].
Qed.

(** C10.  A skipped result is a success only when the file was already up
    to date: the skips of an empty file and of a sync already in progress
    have [success = false].  An empty file is therefore among the failures
    that the notice of a manual bulk sync counts. *)
Theorem C10_skipped_success_depends_on_reason :
  (∀ p s r, (syncSingleFile p s).1 = Normal r → action r = skipped →
     (message r = Some (js "Already up to date") ∧ success r = true) ∨
     (message r = Some (js "Empty JSONL file") ∧ success r = false) ∨
     (message r = Some (js "Sync already in progress") ∧ success r = false))
  ∧ (∀ s results r,
       (syncAllExisting s).1 = Normal results → r ∈ results →
       message r = Some (js "Empty JSONL file") →
       success r = false ∧ (0 < errorCount results)%nat ∧
       summary results =
         js "Sync complete with errors: " ++ js (pretty (successCount results))
         ++ js " succeeded, " ++ js (pretty (errorCount results)) ++ js " failed.").
Proof.
  split.
  - intros p s r Hrun. destruct (syncSingleFile_outcome p s) as (r' & s' & E & Hr).
    rewrite E in Hrun. simplify_eq/=. by apply sync_outcome_skipped.
  - intros s results r Hrun Hin Hmsg.
    apply syncAllExisting_outcomes in Hrun.
    rewrite Forall_forall in Hrun. specialize (Hrun r Hin).
    assert (success r = false) as Hs.
    { destruct Hrun; simpl in *; try done. }
    split; [done|]. pose proof (errorCount_pos _ _ Hin Hs) as Hpos.
    split; [done|]. unfold summary. case_bool_decide; [lia|done].
Qed.




(** C5.  A sync never reports [created]: the test that chooses between
    [updated] and [created] looks at the path of the copy, which is never
    the empty string.  A sync that succeeds without being skipped, that is,
    one that copied the file, reports [updated]. *)
Theorem C5_copy_is_reported_as_updated p s r :
  (syncSingleFile p s).1 = Normal r →
  action r ≠ created
  ∧ (success r = true → action r ≠ skipped → action r = updated)
  ∧ (∀ pp tp,
       getTargetPaths (vaultBasePath s) (obsidianStoragePath (settings s)) pp = Normal tp →
       jsonlFile tp ≠ [] ∧ truthy (jsonlFile tp) = true).
Proof.
  intros Hrun. destruct (syncSingleFile_outcome p s) as (r' & s' & E & Hr).
  rewrite E in Hrun. simplify_eq/=. split; [|split].
  - destruct Hr as [| | | |pp tp Ht]; simpl; try done. by rewrite Ht.
  - destruct Hr as [| | | |pp tp Ht]; simpl; try done. by rewrite Ht.
  - intros pp tp Htp. apply getTargetPaths_jsonlFile_truthy in Htp.
    split; [|done]. by destruct (jsonlFile tp).
Qed.

End Sync_outcomes.

(** *** UTF-8 and UTF-16 *)

Module Unicode_facts.
Import Unicode.

Lemma div_mod_64 a r : r < 64 → (a * 64 + r) / 64 = a ∧ (a * 64 + r) mod 64 = r.
Proof.
  intros Hr. split; symmetry.
  - apply (N.div_unique _ _ _ r); lia.
  - apply (N.mod_unique _ _ a); lia.
Qed.

Lemma utf8_of_cp_1 b : b < 128 → utf8_of_cp b = [b].
Proof. intros Hb. unfold utf8_of_cp. by rewrite (proj2 (N.ltb_lt _ _) Hb). Qed.

Lemma utf8_of_cp_2 x y :
  2 ≤ x < 32 → y < 64 → utf8_of_cp (x * 64 + y) = [192 + x; 128 + y].
Proof.
  intros Hx Hy. unfold utf8_of_cp.
  rewrite (proj2 (N.ltb_ge _ _)), (proj2 (N.ltb_lt _ 2048)) by lia.
  by destruct (div_mod_64 x y Hy) as [-> ->].
Qed.

Lemma utf8_of_cp_3 x y z :
  x < 16 → y < 64 → z < 64 → 32 ≤ x * 64 + y →
  utf8_of_cp ((x * 64 + y) * 64 + z) = [224 + x; 128 + y; 128 + z].
Proof.
  intros Hx Hy Hz Hlo. unfold utf8_of_cp.
  rewrite (proj2 (N.ltb_ge _ 128)), (proj2 (N.ltb_ge _ 2048)),
    (proj2 (N.ltb_lt _ 65536)) by lia.
  change 4096 with (64 * 64). rewrite <- N.Div0.div_div.
  destruct (div_mod_64 (x * 64 + y) z Hz) as [-> ->].
  by destruct (div_mod_64 x y Hy) as [-> ->].
Qed.

Lemma utf8_of_cp_4 x y z w :
  x < 8 → y < 64 → z < 64 → w < 64 → 16 ≤ x * 64 + y →
  utf8_of_cp (((x * 64 + y) * 64 + z) * 64 + w)
  = [240 + x; 128 + y; 128 + z; 128 + w].
Proof.
  intros Hx Hy Hz Hw Hlo. unfold utf8_of_cp.
  rewrite (proj2 (N.ltb_ge _ 128)), (proj2 (N.ltb_ge _ 2048)),
    (proj2 (N.ltb_ge _ 65536)) by lia.
  change 262144 with (64 * (64 * 64)). change 4096 with (64 * 64).
  rewrite <- !N.Div0.div_div.
  destruct (div_mod_64 ((x * 64 + y) * 64 + z) w Hw) as [-> ->].
  destruct (div_mod_64 (x * 64 + y) z Hz) as [-> ->].
  by destruct (div_mod_64 x y Hy) as [-> ->].
Qed.

(** Writing the UTF-16 form of a scalar value gives its UTF-8 form. *)
Lemma string_to_utf8_scalar v rest :
  v < 1114112 → v < 55296 ∨ 57344 ≤ v →
  string_to_utf8 (utf16_of_cp v ++ rest) = utf8_of_cp v ++ string_to_utf8 rest.
Proof.
  intros Hmax Hscalar. unfold utf16_of_cp.
  destruct (v <? 65536) eqn:Hbmp.
  - apply N.ltb_lt in Hbmp. simpl. unfold is_high_surrogate, is_low_surrogate.
    destruct Hscalar.
    + by rewrite (proj2 (N.leb_gt 55296 v)), (proj2 (N.leb_gt 56320 v)) by lia.
    + rewrite (proj2 (N.leb_le 55296 v)), (proj2 (N.leb_gt v 56319)) by lia. simpl.
      by rewrite (proj2 (N.leb_le 56320 v)), (proj2 (N.leb_gt v 57343)) by lia.
  - apply N.ltb_ge in Hbmp.
    assert ((v - 65536) / 1024 < 1024) as Hd by (apply N.Div0.div_lt_upper_bound; lia).
    assert (v - 65536 = 1024 * ((v - 65536) / 1024) + (v - 65536) mod 1024) as Hdm
      by (apply N.div_mod; lia).
    assert ((v - 65536) mod 1024 < 1024) as Hm by (apply N.mod_lt; lia).
    generalize dependent ((v - 65536) / 1024). intros d Hd.
    generalize dependent ((v - 65536) mod 1024). intros m Hdm Hm.
    remember (55296 + d) as h eqn:Hh. remember (56320 + m) as l eqn:Hl.
    assert (65536 + (h - 55296) * 1024 + (l - 56320) = v) as Hv by lia.
    cbn [app string_to_utf8]. unfold is_high_surrogate, is_low_surrogate.
    rewrite (proj2 (N.leb_le 55296 h)), (proj2 (N.leb_le h 56319)),
      (proj2 (N.leb_le 56320 l)), (proj2 (N.leb_le l 57343)) by lia.
    cbn [andb]. by rewrite Hv.
Qed.

Ltac tests :=
  unfold is_cont, in_range in *;
  repeat match goal with
    | H : _ && _ = true |- _ => apply andb_true_iff in H as [? ?]
    | H : (_ <=? _) = true |- _ => apply N.leb_le in H
    | H : (_ <=? _) = false |- _ => apply N.leb_gt in H
    | H : context [?a =? ?b] |- _ => destruct (N.eqb_spec a b)
    end.

Lemma well_formed_cons v l : Bad ∉ Cp v :: l → Bad ∉ l.
Proof. intros H Hin. apply H. by right. Qed.

(** Reading well-formed UTF-8 into a string and writing the string back
    gives the same bytes. *)
Lemma utf8_roundtrip_bounded n bs :
  (length bs ≤ n)%nat → well_formed bs → string_to_utf8 (utf8_to_string bs) = bs.
Proof.
  unfold well_formed, utf8_to_string.
  revert bs. induction n as [|n IH]; intros bs Hlen Hwf.
  { by destruct bs; [|simpl in Hlen; lia]. }
  destruct bs as [|b r]; [done|]. simpl in Hlen, Hwf |- *.
  assert (∀ l, Bad ∉ Bad :: l → False) as Hbad by (intros l H; apply H; by left).
  destruct (b <=? 127) eqn:E1.
  { apply well_formed_cons in Hwf. rewrite bind_cons. simpl. tests.
    rewrite string_to_utf8_scalar, utf8_of_cp_1 by lia. simpl. f_equal.
    apply IH; [lia|done]. }
  destruct (in_range 194 223 b) eqn:E2.
  { destruct r as [|c1 r1]; [by destruct (Hbad [])|].
    destruct (is_cont c1) eqn:Ec1; [|by destruct (Hbad _ Hwf)].
    apply well_formed_cons in Hwf. rewrite bind_cons. simpl in Hlen |- *. tests.
    rewrite string_to_utf8_scalar, utf8_of_cp_2 by lia. simpl.
    rewrite IH by (done || lia). f_equal; [lia|f_equal; lia]. }
  destruct (in_range 224 239 b) eqn:E3.
  { destruct r as [|c1 r1]; [by destruct (Hbad [])|].
    destruct (in_range _ _ c1) eqn:Ec1; [|by destruct (Hbad _ Hwf)].
    destruct r1 as [|c2 r2]; [by destruct (Hbad [])|].
    destruct (is_cont c2) eqn:Ec2; [|by destruct (Hbad _ Hwf)].
    apply well_formed_cons in Hwf. rewrite bind_cons. simpl in Hlen |- *.
    rewrite string_to_utf8_scalar, utf8_of_cp_3 by (tests; lia). simpl.
    rewrite IH by (done || lia). tests; (f_equal; [lia|f_equal; [lia|f_equal; lia]]). }
  destruct (in_range 240 244 b) eqn:E4; [|by destruct (Hbad _ Hwf)].
  destruct r as [|c1 r1]; [by destruct (Hbad [])|].
  destruct (in_range _ _ c1) eqn:Ec1; [|by destruct (Hbad _ Hwf)].
  destruct r1 as [|c2 r2]; [by destruct (Hbad [])|].
  destruct (is_cont c2) eqn:Ec2; [|by destruct (Hbad _ Hwf)].
  destruct r2 as [|c3 r3]; [by destruct (Hbad [])|].
  destruct (is_cont c3) eqn:Ec3; [|by destruct (Hbad _ Hwf)].
  apply well_formed_cons in Hwf. rewrite bind_cons. simpl in Hlen |- *.
  rewrite string_to_utf8_scalar, utf8_of_cp_4 by (tests; lia). simpl.
  rewrite IH by (done || lia).
  tests; (f_equal; [lia|f_equal; [lia|f_equal; [lia|f_equal; lia]]]).
Qed.

Lemma utf8_roundtrip bs :
  well_formed bs → string_to_utf8 (utf8_to_string bs) = bs.
Proof. by apply (utf8_roundtrip_bounded (length bs)). Qed.

End Unicode_facts.

(** *** The copy *)

Section Copy.
Context `{!JSON}.

(** A sync that goes through has read the source and written the copy
    and the sidecar. *)
Lemma sync_copy_success p pp tp messages s r s' :
  sync_copy p pp tp messages s = (Normal r, s') →
  ∃ f md t1 t2,
    files s !! p = Some f ∧
    files s' =
      <[metaFile tp := {| content := Unicode.string_to_utf8 (JSON_stringify_metadata md);
                          mtimeMs := t2 |}]>
        (<[jsonlFile tp :=
             {| content := Unicode.string_to_utf8 (Unicode.utf8_to_string (content f));
                mtimeMs := t1 |}]> (files s)).
Proof.
  unfold sync_copy, mbind, M_bind, mret, M_ret.
  rewrite generateMetadata_unfold.
  unfold ensureDirectory, fs_mkdir, fs_readFile, fs_writeFile, saveSettings,
    Date_now, try_catchM, host_call, throw, mret, M_ret.
  intros Hrun. repeat (case_match; simplify_eq/=).
  all: by eexists _, _, _, _.
Qed.

(** X27.  The copy of a source holds the source decoded as UTF-8 and
    encoded again; for a source that is well-formed UTF-8 these are the
    bytes of the source. *)
Theorem copy_of_well_formed_source p s r :
  (syncSingleFile p s).1 = Normal r → success r = true → action r ≠ skipped →
  ∃ f pp tp,
    files s !! p = Some f ∧
    parseClaudePath p = Normal pp ∧
    getTargetPaths (vaultBasePath s) (obsidianStoragePath (settings s)) pp = Normal tp ∧
    content <$> files (syncSingleFile p s).2 !! jsonlFile tp
      = Some (Unicode.string_to_utf8 (Unicode.utf8_to_string (content f))) ∧
    (Unicode.well_formed (content f) →
     content <$> files (syncSingleFile p s).2 !! jsonlFile tp = Some (content f)).
Proof.
  rewrite syncSingleFile_unfold. case_bool_decide as Hp; [by intros [= <-]|].
  rewrite sync_try_unfold.
  destruct (parseClaudePath p) as [pp|] eqn:Epp; [|by intros [= <-]].
  simpl. destruct (getTargetPaths _ _ _) as [tp|] eqn:Etp; [|by intros [= <-]].
  destruct (shouldSync_returns p (metaFile tp) (mark p s)) as (b & t & -> & _).
  destruct b; [|by intros [= <-] _ []].
  rewrite parseJsonlFile_unfold. simpl.
  destruct (faults s (CreateReadStream p)); [by intros [= <-]|].
  destruct (files s !! p) as [f0|] eqn:Ef0; [|by intros [= <-]].
  destruct (parse_lines _) as [|m ms]; [by intros [= <-]|].
  destruct (sync_copy _ _ _ _ _) as [[r1|e1] s1] eqn:Ec; [|by intros [= <-]].
  intros [= <-] _ _. apply sync_copy_success in Ec as (f & md & t1 & t2 & Ef & Efiles).
  simpl in Ef. rewrite Ef0 in Ef. injection Ef as <-.
  exists f0, pp, tp. split; [done|]. split; [done|]. split; [done|].
  assert (content <$> files s1 !! jsonlFile tp
          = Some (Unicode.string_to_utf8 (Unicode.utf8_to_string (content f0)))) as Hcopy.
  { rewrite Efiles. rewrite lookup_insert_ne, lookup_insert_eq; [done|].
    intros E. by apply (getTargetPaths_distinct _ _ _ _ _ Epp Etp). }
  cbn [snd unmark files set_syncInProgress]. split; [done|].
  intros Hwf. by rewrite Hcopy, Unicode_facts.utf8_roundtrip.
Qed.

End Copy.

(** *** The parser and the metadata *)





Section Parser_facts.
Context `{!JSON}.




End Parser_facts.

(** *** The re-entrancy guard *)

Section Guard.
Context `{!JSON}.

Lemma syncSingleFile_finish_unmarks p s :
  syncInProgress (syncSingleFile_finish (Running p) s).2 = syncInProgress s ∖ {[p]}.
Proof.
  rewrite syncSingleFile_finish_running.
  pose proof (sync_try_preserves_syncInProgress p s) as Hp.
  destruct (sync_try p s) as [c s1]. simpl in *. by rewrite Hp.
Qed.

Lemma engine_step_invariant e ev :
  guard_invariant e → guard_invariant (engine_step e ev).1.
Proof.
  intros [Hnd Hin]. destruct ev as [p|p]; unfold engine_step.
  - destruct (syncSingleFile_start_cases p (eng_state e)) as [[Hp ->]|[Hp ->]].
    + by split.
    + split; cbn [fst in_flight eng_state].
      * apply NoDup_cons. split; [|done]. by rewrite Hin.
      * intros q. rewrite elem_of_cons, Hin. unfold mark. simpl.
        rewrite elem_of_union, elem_of_singleton. done.
  - case_bool_decide as Hp; [|by split].
    pose proof (syncSingleFile_finish_unmarks p (eng_state e)) as Hun.
    destruct (syncSingleFile_finish (Running p) (eng_state e)) as [[r|err] s];
      cbn [snd] in Hun.
    all: split; cbn [fst in_flight eng_state]; [by apply NoDup_filter|].
    all: intros q; rewrite list_elem_of_filter, Hin, Hun, elem_of_difference,
           elem_of_singleton; tauto.
Qed.

Lemma run_events_invariant events e :
  guard_invariant e → guard_invariant (run_events events e).
Proof.
  revert e. induction events as [|ev events IH]; intros e He; [done|].
  apply IH. by apply engine_step_invariant.
Qed.

Lemma new_engine_invariant s : guard_invariant (new_engine s).
Proof. split; [constructor|]. intros p. simpl. set_solver. Qed.

(** C7.  In every interleaving of calls, a path has at most one call in
    flight; a call for a path whose sync is in flight returns at once with
    [skipped] and [Sync already in progress], leaves the world as it was (no
    file is read or written, the trace does not grow) and is not recorded
    anywhere: the calls in flight stay the same. *)
Theorem C7_one_sync_per_path_at_a_time s events p :
  let e := run_events events (new_engine s) in
  p ∈ in_flight e →
  NoDup (in_flight e)
  ∧ engine_step e (Call p) = (e, Some skipped_in_progress)
  ∧ syncSingleFile p (eng_state e) = (Normal skipped_in_progress, eng_state e)
  ∧ success skipped_in_progress = false
  ∧ action skipped_in_progress = skipped
  ∧ message skipped_in_progress = Some (js "Sync already in progress").
Proof.
  intros e Hp.
  destruct (run_events_invariant events (new_engine s) (new_engine_invariant s))
    as [Hnd Hin]. fold e in Hnd, Hin.
  apply Hin in Hp. split; [done|].
  unfold engine_step, syncSingleFile, syncSingleFile_start.
  rewrite bool_decide_eq_true_2 by done. simpl. by destruct e.
Qed.

End Guard.

(** *** The debounce *)

Lemma filter_local_ext {A} (P Q : A → Prop) `{∀ x, Decision (P x)} `{∀ x, Decision (Q x)}
    (l : list A) :
  (∀ x, x ∈ l → P x ↔ Q x) → filter P l = filter Q l.
Proof.
  induction l as [|a l IH]; intros Hl; [done|].
  rewrite !filter_cons.
  destruct (decide (P a)) as [Ha|Ha], (decide (Q a)) as [Hb|Hb].
  - f_equal. apply IH. intros x Hx. apply Hl. by right.
  - destruct Hb. apply Hl; [by left|done].
  - destruct Ha. apply Hl; [by left|done].
  - apply IH. intros x Hx. apply Hl. by right.
Qed.

Lemma NoDup_fmap_eq {A B} (f : A → B) (l : list A) x y :
  NoDup (f <$> l) → x ∈ l → y ∈ l → f x = f y → x = y.
Proof.
  induction l as [|a l IH]; csimpl; intros Hnd Hx Hy Hf; [by apply elem_of_nil in Hx|].
  apply NoDup_cons in Hnd as [Ha Hnd].
  apply elem_of_cons in Hx as [->|Hx], Hy as [->|Hy]; auto.
  - destruct Ha. rewrite Hf. by apply list_elem_of_fmap_2.
  - destruct Ha. rewrite <- Hf. by apply list_elem_of_fmap_2.
Qed.

Lemma NoDup_singleton_eq {A} (l : list A) a :
  NoDup l → (∀ x, x ∈ l ↔ x = a) → l = [a].
Proof.
  intros Hnd Hl. destruct l as [|b l].
  { assert (a ∈ @nil A) as Hin by (by apply Hl). by apply elem_of_nil in Hin. }
  assert (b = a) as -> by (apply Hl; by left).
  destruct l as [|c l]; [done|].
  assert (c = a) as -> by (apply Hl; right; by left).
  apply NoDup_cons in Hnd as [Hnd _]. destruct Hnd. by left.
Qed.

Lemma filter_nil_iff {A} (P : A → Prop) `{∀ x, Decision (P x)} (l : list A) :
  (∀ x, x ∈ l → ¬ P x) → filter P l = [].
Proof.
  induction l as [|a l IH]; intros Hl; [done|].
  rewrite filter_cons_False by (apply Hl; by left).
  apply IH. intros x Hx. apply Hl. by right.
Qed.

Lemma filter_all {A} (P : A → Prop) `{∀ x, Decision (P x)} (l : list A) :
  (∀ x, x ∈ l → P x) → filter P l = l.
Proof.
  induction l as [|a l IH]; intros Hl; [done|].
  rewrite filter_cons_True by (apply Hl; by left).
  f_equal. apply IH. intros x Hx. apply Hl. by right.
Qed.

Lemma NoDup_fmap_filter {A B} (f : A → B) (P : A → Prop) `{∀ x, Decision (P x)}
    (l : list A) :
  NoDup (f <$> l) → NoDup (f <$> filter P l).
Proof.
  induction l as [|a l IH]; csimpl; intros Hnd; [done|].
  apply NoDup_cons in Hnd as [Ha Hnd]. rewrite filter_cons.
  destruct (decide (P a)); [|by apply IH].
  csimpl. apply NoDup_cons. split; [|by apply IH].
  intros (x & Hfx & [_ Hx]%list_elem_of_filter)%list_elem_of_fmap.
  apply Ha. rewrite Hfx. by apply list_elem_of_fmap_2.
Qed.

Section Debounce.

Lemma timer_of_pending_of tm : timer_of (pending_of tm) = tm.
Proof. by destruct tm. Qed.

(** Under the invariant, two armed timers with the same path, or with the
    same identifier, are the same timer. *)
Lemma timers_same_path d tm1 tm2 :
  debounce_invariant d → tm1 ∈ timers d → tm2 ∈ timers d →
  t_path tm1 = t_path tm2 → tm1 = tm2.
Proof.
  intros Hinv H1 H2 Hp.
  pose proof (inv_timers d Hinv tm1 H1) as E1.
  pose proof (inv_timers d Hinv tm2 H2) as E2.
  rewrite Hp, E2 in E1. apply (inj Some) in E1.
  apply (f_equal timer_of) in E1. by rewrite !timer_of_pending_of in E1.
Qed.

Lemma timers_same_id d tm1 tm2 :
  debounce_invariant d → tm1 ∈ timers d → tm2 ∈ timers d →
  t_id tm1 = t_id tm2 → tm1 = tm2.
Proof. intros Hinv. apply NoDup_fmap_eq, Hinv. Qed.

(** The armed timers of a path: the one of its pending sync, if any. *)
Lemma timers_for_pending d q :
  debounce_invariant d →
  timers_for q d = match pendingSyncs d !! q with
                   | Some ps => [timer_of ps]
                   | None => []
                   end.
Proof.
  intros Hinv. unfold timers_for.
  destruct (pendingSyncs d !! q) as [ps|] eqn:Eq.
  - destruct (inv_pending d Hinv q ps Eq) as [Hq Hin].
    apply NoDup_singleton_eq.
    + apply NoDup_filter. eapply NoDup_fmap_1, Hinv.
    + intros tm. rewrite list_elem_of_filter. split.
      * intros [Hp Htm]. apply (timers_same_path d); [done..|]. by rewrite Hp.
      * intros ->. by split.
  - apply filter_nil_iff. intros tm Htm Hp.
    pose proof (inv_timers d Hinv tm Htm) as E. by rewrite Hp, Eq in E.
Qed.

Lemma fire_invariant d tm :
  debounce_invariant d → tm ∈ timers d → debounce_invariant (fire tm d).
Proof.
  intros Hinv Htm. split; simpl; unfold clearTimeout.
  - intros q ps Hq. apply lookup_delete_Some in Hq as [Hne Hq].
    destruct (inv_pending d Hinv q ps Hq) as [Hp Hin]. split; [done|].
    apply list_elem_of_filter. split; [|done]. intros Hid.
    apply Hne. rewrite <- Hp.
    by rewrite <- (timers_same_id d (timer_of ps) tm Hinv Hin Htm Hid).
  - intros tm' [Hid Hin]%list_elem_of_filter.
    rewrite lookup_delete_ne; [by apply Hinv|].
    intros Hp. apply Hid. f_equal. by apply (timers_same_path d).
  - apply NoDup_fmap_filter, Hinv.
  - intros tm' [_ Hin]%list_elem_of_filter. by apply Hinv.
Qed.

Lemma fire_timers d tm :
  debounce_invariant d → tm ∈ timers d →
  timers (fire tm d) = filter (λ x, x ≠ tm) (timers d).
Proof.
  intros Hinv Htm. simpl. unfold clearTimeout. apply filter_local_ext.
  intros x Hx. split; [by intros Hid ->|].
  intros Hne Hid. apply Hne. by apply (timers_same_id d).
Qed.

(** Firing a list of armed timers. *)
Lemma fire_all l d :
  debounce_invariant d → NoDup l → (∀ tm, tm ∈ l → tm ∈ timers d) →
  debounce_invariant (foldl (λ d tm, fire tm d) d l)
  ∧ timers (foldl (λ d tm, fire tm d) d l) = filter (λ tm, tm ∉ l) (timers d)
  ∧ executed (foldl (λ d tm, fire tm d) d l)
    = executed d ++ ((λ tm, (t_due tm, t_path tm)) <$> l)
  ∧ ∀ q, pendingSyncs (foldl (λ d tm, fire tm d) d l) !! q
         = if decide (q ∈ t_path <$> l) then None else pendingSyncs d !! q.
Proof.
  revert d. induction l as [|tm l IH]; intros d Hinv Hnd Hl.
  { cbn [foldl]. split; [done|]. split; [|split].
    - symmetry. apply filter_all. intros x _. apply not_elem_of_nil.
    - by rewrite fmap_nil, app_nil_r.
    - intros q. rewrite fmap_nil, decide_False; [done|apply not_elem_of_nil]. }
  apply NoDup_cons in Hnd as [Htm Hnd]. cbn [foldl].
  assert (tm ∈ timers d) as Hin by (apply Hl; by left).
  destruct (IH (fire tm d)) as (Hinv' & Ht & He & Hp).
  - by apply fire_invariant.
  - done.
  - intros x Hx. rewrite fire_timers by done. apply list_elem_of_filter.
    split; [by intros ->|]. apply Hl. by right.
  - split; [done|]. split; [|split].
    + rewrite Ht, fire_timers by done. rewrite list_filter_filter.
      apply list_filter_iff. intros x. rewrite not_elem_of_cons. tauto.
    + rewrite He, fmap_cons. cbn [executed fire]. by rewrite <- app_assoc.
    + intros q. rewrite Hp, fmap_cons. cbn [pendingSyncs fire].
      destruct (decide (q ∈ t_path <$> l)) as [Hq|Hq].
      * rewrite decide_True; [done|by right].
      * destruct (decide (q = t_path tm)) as [->|Hne].
        -- rewrite decide_True by (by left). apply lookup_delete_eq.
        -- rewrite decide_False by (by intros [?|?]%elem_of_cons).
           by apply lookup_delete_ne.
Qed.

(** The timers of a path that are due by [t]. *)
Lemma due_timers_for d q t :
  debounce_invariant d →
  filter (λ tm, t_path tm = q) (filter (λ tm, (t_due tm ≤ t)%Z) (timers d))
  = match pendingSyncs d !! q with
    | Some ps => if decide (scheduledTime ps ≤ t)%Z then [timer_of ps] else []
    | None => []
    end.
Proof.
  intros Hinv. rewrite list_filter_filter.
  rewrite (list_filter_iff _ (λ tm, (t_due tm ≤ t)%Z ∧ t_path tm = q)) by (intros; tauto).
  rewrite <- list_filter_filter. fold (timers_for q d).
  rewrite timers_for_pending by done.
  destruct (pendingSyncs d !! q) as [ps|]; [|done].
  rewrite filter_cons, filter_nil. simpl. by destruct (decide _).
Qed.

Lemma filter_executed_fmap q (l : list Timer) :
  filter (λ x : Z * jsstring, x.2 = q) ((λ tm, (t_due tm, t_path tm)) <$> l)
  = (λ tm, (t_due tm, t_path tm)) <$> filter (λ tm, t_path tm = q) l.
Proof.
  induction l as [|tm l IH]; [done|].
  rewrite fmap_cons, !filter_cons. simpl.
  destruct (decide (t_path tm = q)); [|done]. by rewrite fmap_cons, IH.
Qed.

Lemma elem_of_paths_filter q (l : list Timer) :
  q ∈ t_path <$> l ↔ filter (λ tm, t_path tm = q) l ≠ [].
Proof.
  rewrite list_elem_of_fmap. split.
  - intros (tm & -> & Htm) Hnil.
    by apply (filter_nil_not_elem_of _ _ tm) in Hnil.
  - intros Hne. destruct (filter _ l) as [|tm l'] eqn:E; [done|].
    assert (tm ∈ filter (λ tm, t_path tm = q) l) as Hin by (rewrite E; by left).
    apply list_elem_of_filter in Hin as [Hp Hin]. by exists tm.
Qed.

(** Time passes: a pending sync that comes due is executed once and is no
    longer pending; the others stay as they are. *)
Lemma advance_to_spec t d q :
  debounce_invariant d →
  debounce_invariant (advance_to t d)
  ∧ now (advance_to t d) = Z.max t (now d)
  ∧ match pendingSyncs d !! q with
    | Some ps =>
        if decide (scheduledTime ps ≤ t)%Z then
          pendingSyncs (advance_to t d) !! q = None
          ∧ executed_for q (advance_to t d) = executed_for q d ++ [(scheduledTime ps, q)]
        else
          pendingSyncs (advance_to t d) !! q = Some ps
          ∧ executed_for q (advance_to t d) = executed_for q d
    | None =>
        pendingSyncs (advance_to t d) !! q = None
        ∧ executed_for q (advance_to t d) = executed_for q d
    end.
Proof.
  intros Hinv.
  destruct (fire_all (filter (λ tm, (t_due tm ≤ t)%Z) (timers d)) d)
    as (Hinv' & Ht & He & Hp); [done| |by intros tm [_ ?]%list_elem_of_filter|].
  { apply NoDup_filter. eapply NoDup_fmap_1, Hinv. }
  split; [|split; [done|]].
  { destruct Hinv'. by split. }
  unfold executed_for, advance_to. cbn [pendingSyncs executed].
  rewrite Hp, He, filter_app, filter_executed_fmap.
  pose proof (elem_of_paths_filter q (filter (λ tm, (t_due tm ≤ t)%Z) (timers d))) as Hq.
  rewrite due_timers_for in Hq |- * by done.
  destruct (pendingSyncs d !! q) as [ps|] eqn:Eq.
  - destruct (inv_pending d Hinv q ps Eq) as [Hpath _].
    destruct (decide (scheduledTime ps ≤ t)%Z).
    + rewrite decide_True by (by apply Hq). simpl. by rewrite Hpath.
    + rewrite decide_False by (by rewrite Hq; intros []). by rewrite app_nil_r.
  - rewrite decide_False by (by rewrite Hq; intros []). by rewrite app_nil_r.
Qed.

(** An event disarms the timer of its path, whichever it is, and arms a new
    one. *)
Lemma schedule_timers q d :
  debounce_invariant d →
  timers (scheduleSyncWithDebounce q d)
  = filter (λ tm, t_path tm ≠ q) (timers d)
    ++ [{| t_id := next_id d; t_due := (now d + DEBOUNCE_MS)%Z; t_path := q |}].
Proof.
  intros Hinv. unfold scheduleSyncWithDebounce. cbn [timers]. f_equal.
  destruct (pendingSyncs d !! q) as [ps|] eqn:Eq.
  - destruct (inv_pending d Hinv q ps Eq) as [Hpath Hin].
    unfold clearTimeout. apply filter_local_ext. intros tm Htm. split.
    + intros Hid Hp. apply Hid.
      assert (tm = timer_of ps) as -> by (apply (timers_same_path d); [done..|by rewrite Hp]).
      done.
    + intros Hp Hid. apply Hp.
      assert (tm = timer_of ps) as -> by (by apply (timers_same_id d)).
      done.
  - symmetry. apply filter_all. intros tm Htm Hp.
    pose proof (inv_timers d Hinv tm Htm) as E. by rewrite Hp, Eq in E.
Qed.

Lemma schedule_spec q d :
  debounce_invariant d →
  debounce_invariant (scheduleSyncWithDebounce q d)
  ∧ now (scheduleSyncWithDebounce q d) = now d
  ∧ executed (scheduleSyncWithDebounce q d) = executed d
  ∧ pendingSyncs (scheduleSyncWithDebounce q d) !! q
    = Some {| ps_filePath := q; scheduledTime := (now d + DEBOUNCE_MS)%Z;
              timeoutId := next_id d |}
  ∧ (∀ p, p ≠ q →
       pendingSyncs (scheduleSyncWithDebounce q d) !! p = pendingSyncs d !! p)
  ∧ timers_for q (scheduleSyncWithDebounce q d)
    = [{| t_id := next_id d; t_due := (now d + DEBOUNCE_MS)%Z; t_path := q |}].
Proof.
  intros Hinv. pose proof (schedule_timers q d Hinv) as Ht.
  assert (debounce_invariant (scheduleSyncWithDebounce q d)) as Hinv'.
  { split; rewrite Ht; cbn [pendingSyncs next_id scheduleSyncWithDebounce].
    - intros p ps. rewrite lookup_insert. case_decide as Hp.
      + subst p. intros [= <-]. split; [done|].
        apply elem_of_app. right. by left.
      + intros Hps. destruct (inv_pending d Hinv p ps Hps) as [Hpath Hin].
        split; [done|]. apply elem_of_app. left.
        apply list_elem_of_filter. split; [|done]. simpl. congruence.
    - intros tm [[Hp Hin]%list_elem_of_filter| ->%list_elem_of_singleton]%elem_of_app.
      + rewrite lookup_insert_ne by done. by apply Hinv.
      + simpl. by rewrite lookup_insert_eq.
    - rewrite fmap_app, (fmap_cons t_id), fmap_nil. cbn [t_id].
      apply NoDup_app. split; [|split].
      + apply NoDup_fmap_filter, Hinv.
      + intros i (tm & -> & [_ Hin]%list_elem_of_filter)%list_elem_of_fmap.
        intros Heq%list_elem_of_singleton.
        pose proof (inv_fresh d Hinv tm Hin). lia.
      + apply NoDup_singleton.
    - intros tm [[_ Hin]%list_elem_of_filter| ->%list_elem_of_singleton]%elem_of_app.
      + pose proof (inv_fresh d Hinv tm Hin). lia.
      + simpl. lia. }
  split; [done|]. split; [done|]. split; [done|]. split; [|split].
  - cbn [pendingSyncs scheduleSyncWithDebounce]. by rewrite lookup_insert_eq.
  - intros p Hp. cbn [pendingSyncs scheduleSyncWithDebounce].
    by rewrite lookup_insert_ne.
  - unfold timers_for. rewrite Ht, filter_app, list_filter_filter.
    rewrite (filter_nil_iff _ (timers d)) by (intros; tauto).
    rewrite filter_cons_True by done. done.
Qed.

Lemma new_debouncer_invariant : debounce_invariant new_debouncer.
Proof.
  split; simpl.
  - intros q ps Hq. by rewrite lookup_empty in Hq.
  - intros tm Htm. by apply elem_of_nil in Htm.
  - constructor.
  - intros tm Htm. by apply elem_of_nil in Htm.
Qed.

(** Time passing keeps or advances the state of a burst. *)
Lemma advance_to_burst p d last t :
  debounce_invariant d → (now d ≤ t)%Z → burst_state p d last →
  debounce_invariant (advance_to t d)
  ∧ now (advance_to t d) = t
  ∧ burst_state p (advance_to t d) last
  ∧ (match last with Some tl => (t < tl + DEBOUNCE_MS)%Z | None => True end →
     executed_for p (advance_to t d) = []).
Proof.
  intros Hinv Hnow Hb.
  destruct (advance_to_spec t d p Hinv) as (Hinv' & Hn & Hp).
  assert (now (advance_to t d) = t) as Hn' by lia.
  split; [done|]. split; [done|].
  destruct last as [tl|]; cbn [burst_state] in *.
  - destruct Hb as [(ps & Eq & Hs & He)|(Eq & Hle & He)]; rewrite Eq in Hp.
    + destruct (decide (scheduledTime ps ≤ t)%Z) as [Hdue|Hdue]; destruct Hp as [Hp1 Hp2].
      * split; [|lia]. right. rewrite Hp2, He, Hs, Hn'. split; [done|]. split; [lia|done].
      * split; [|by rewrite Hp2]. left. exists ps. by rewrite Hp2.
    + destruct Hp as [Hp1 Hp2]. split; [|lia].
      right. rewrite Hp2. split; [done|]. split; [lia|done].
  - destruct Hb as [Eq He]. rewrite Eq in Hp. destruct Hp as [Hp1 Hp2].
    rewrite Hp2. by repeat split.
Qed.

(** One file event. *)
Lemma file_event_burst p d last t q :
  debounce_invariant d → (now d ≤ t)%Z → burst_state p d last →
  (q = p → match last with Some tl => (t < tl + DEBOUNCE_MS)%Z | None => True end) →
  debounce_invariant (file_event d (t, q))
  ∧ now (file_event d (t, q)) = t
  ∧ burst_state p (file_event d (t, q)) (if decide (q = p) then Some t else last).
Proof.
  intros Hinv Hnow Hb Hgap. unfold file_event. cbn [fst snd].
  destruct (advance_to_burst p d last t Hinv Hnow Hb) as (Hinv1 & Hn1 & Hb1 & He1).
  destruct (schedule_spec q (advance_to t d) Hinv1) as (Hinv2 & Hn2 & He2 & Hq & Hother & _).
  split; [done|]. split; [lia|].
  destruct (decide (q = p)) as [->|Hne].
  - left. eexists. split; [exact Hq|]. split; [simpl; lia|].
    unfold executed_for. rewrite He2. by apply He1, Hgap.
  - unfold burst_state, executed_for in *. rewrite He2, Hn2, Hother by done. exact Hb1.
Qed.

Lemma last_event_cons p ev rest :
  last_event p (ev :: rest)
  = match last_event p rest with
    | Some t => Some t
    | None => if decide (ev.2 = p) then Some ev.1 else None
    end.
Proof.
  unfold last_event. rewrite filter_cons.
  destruct (decide (ev.2 = p)); [|by destruct (last _)].
  rewrite last_cons. by destruct (last _).
Qed.

(** A run of file events in which the events of [p] form one burst. *)
Lemma run_file_events_burst p events d last t0 :
  debounce_invariant d → (now d ≤ t0)%Z →
  chronological t0 events → one_burst p last events → burst_state p d last →
  debounce_invariant (run_file_events events d)
  ∧ burst_state p (run_file_events events d)
      (match last_event p events with Some t => Some t | None => last end).
Proof.
  revert d last t0. induction events as [|[t q] rest IH]; intros d last t0 Hinv Hnow Hc Hb Hs.
  { by split. }
  cbn [chronological one_burst fst snd] in Hc, Hb. destruct Hc as [Ht Hc].
  destruct (file_event_burst p d last t q) as (Hinv' & Hn' & Hs'); [done|lia|done| |].
  { intros ->. rewrite bool_decide_eq_true_2 in Hb by done. by destruct Hb. }
  change (run_file_events ((t, q) :: rest) d)
    with (run_file_events rest (file_event d (t, q))).
  rewrite last_event_cons. cbn [fst snd].
  destruct (IH (file_event d (t, q)) (if decide (q = p) then Some t else last) t)
    as [Hinv'' Hs'']; [done|lia|done| |done|].
  { destruct (decide (q = p)) as [->|Hne].
    - rewrite bool_decide_eq_true_2 in Hb by done. by destruct Hb.
    - by rewrite bool_decide_eq_false_2 in Hb. }
  split; [done|]. destruct (last_event p rest); [done|]. by destruct (decide (q = p)).
Qed.

(** C6.  Every event of a path disarms the timer that was armed for it and
    arms a new one for one second later, so that the path has exactly one
    armed timer, the one of its pending sync.  When the events of a path
    form a burst in which each event comes less than a second after the one
    before, the burst leads to exactly one call of [executeSync] for that
    path, one second after its last event. *)
Theorem C6_burst_gives_one_sync_after_last_event p events tl horizon :
  chronological 0 events →
  one_burst p None events →
  last_event p events = Some tl →
  (tl + DEBOUNCE_MS ≤ horizon)%Z →
  DEBOUNCE_MS = 1000%Z
  ∧ executed_for p (advance_to horizon (run_file_events events new_debouncer))
    = [((tl + DEBOUNCE_MS)%Z, p)]
  ∧ (∀ k t q,
       let d := advance_to t (run_file_events (take k events) new_debouncer) in
       timers_for q (scheduleSyncWithDebounce q d)
       = [{| t_id := next_id d; t_due := (now d + DEBOUNCE_MS)%Z; t_path := q |}]
       ∧ pendingSyncs (scheduleSyncWithDebounce q d) !! q
         = Some {| ps_filePath := q; scheduledTime := (now d + DEBOUNCE_MS)%Z;
                   timeoutId := next_id d |}
       ∧ Forall (λ tm, t_id tm ≠ next_id d) (timers d)).
Proof.
  intros Hc Hb Hl Hh. split; [done|]. split.
  - destruct (run_file_events_burst p events new_debouncer None 0)
      as [Hinv Hs]; [apply new_debouncer_invariant|done..|].
    rewrite Hl in Hs.
    destruct (advance_to_spec horizon _ p Hinv) as (_ & _ & Hp).
    destruct Hs as [(ps & Eq & Hsched & He)|(Eq & _ & He)]; rewrite Eq in Hp.
    + rewrite decide_True in Hp by lia. destruct Hp as [_ ->]. by rewrite He, Hsched.
    + destruct Hp as [_ ->]. done.
  - intros k t q d.
    assert (debounce_invariant d) as Hinv.
    { apply (advance_to_spec t _ q).
      clear. generalize new_debouncer_invariant. generalize new_debouncer.
      induction (take k events) as [|ev l IH]; intros d0 Hd0; [done|].
      apply IH. unfold file_event.
      apply schedule_spec. by apply (advance_to_spec ev.1 d0 ev.2). }
    destruct (schedule_spec q d Hinv) as (_ & _ & _ & Hq & _ & Ht).
    split; [done|]. split; [done|].
    apply Forall_forall. intros tm Htm. pose proof (inv_fresh d Hinv tm Htm). lia.
Qed.

End Debounce.

(** *** Concrete runs *)

Module Run_facts.
Import Demo Runs.


Example shouldSync_same_time : (shouldSync session1 sidecar1 same_time).1 = Normal false.
Proof. vm_compute. reflexivity. Qed.

Example shouldSync_fresh : (shouldSync session1 sidecar1 fresh).1 = Normal true.
Proof. vm_compute. reflexivity. Qed.



Lemma C5_copy_is_reported_as_updated_witness :
  (syncSingleFile session1 fresh).1 = Normal synced1 ∧ action synced1 = updated.
Proof.
  assert ((syncSingleFile session1 fresh).1 = Normal synced1) as Hrun
    by (vm_compute; reflexivity).
  split; [exact Hrun|].
  destruct (C5_copy_is_reported_as_updated session1 fresh synced1 Hrun) as (_ & Hupd & _).
  by apply Hupd.
Defined.

Lemma C10_skipped_success_depends_on_reason_witness :
  (syncAllExisting two_sessions).1 = Normal [synced1; skipped2]
  ∧ success skipped2 = false
  ∧ summary [synced1; skipped2] = js "Sync complete with errors: 1 succeeded, 1 failed.".
Proof.
  assert ((syncAllExisting two_sessions).1 = Normal [synced1; skipped2]) as Hrun
    by (vm_compute; reflexivity).
  split; [exact Hrun|].
  destruct (proj2 C10_skipped_success_depends_on_reason two_sessions
              [synced1; skipped2] skipped2 Hrun) as (Hs & _ & Hsum).
  - by apply list_elem_of_In; right; left.
  - reflexivity.
  - split; [exact Hs|]. rewrite Hsum. reflexivity.
Defined.

(** C1 (the code at a failing input).  A source whose malformed line holds
    a byte that is not UTF-8 is copied (the sync reports [updated]), and the
    copy is not the source byte for byte: the file is read into a string
    and written back, which turns the byte 255 into the three bytes of
    U+FFFD. *)
Theorem C1_copy_rewrites_ill_formed_bytes :
  (syncSingleFile session1 torn).1 = Normal synced1
  ∧ content <$> files torn !! session1 = Some torn_bytes
  ∧ content <$> files (syncSingleFile session1 torn).2 !! copy1 = Some torn_copy
  ∧ torn_copy ≠ torn_bytes
  ∧ length torn_bytes = 35%nat ∧ length torn_copy = 37%nat.
Proof. repeat split; try (vm_compute; reflexivity). by vm_compute. Qed.


(** Three lines of which the second is not JSON: two entries, the
    earliest at 1650 and the latest at 1700; the branch and the version
    come from the first entry that has one. *)
Example three_lines_metadata :
  ((messages ← parseJsonlFile session1; generateMetadata messages session1 parsed1) fresh).1
  = Normal {| sessionId := js "s1";
               projectName := js "home - u - proj";
               projectPath := Some project;
               messageCount := 2;
               firstTimestamp := 1650;
               lastTimestamp := 1700;
               md_gitBranch := Some (js "main");
               md_version := Some (js "1.0.3");
               syncedAt := 5000;
               sourceFilePath := session1 |}.
Proof. vm_compute. reflexivity. Qed.

Example three_lines_copied :
  content <$> files (syncSingleFile session1 fresh).2 !! copy1
  = Some (Unicode.string_to_utf8 three_lines).
Proof. vm_compute. reflexivity. Qed.

(** A second sync of an unchanged source is skipped. *)
Example second_sync_skipped :
  (syncSingleFile session1 (syncSingleFile session1 fresh).2).1
  = Normal {| success := true; r_sessionId := js "s1"; r_projectName := js "home - u - proj";
              action := skipped; message := Some (js "Already up to date");
              r_error := None |}.
Proof. vm_compute. reflexivity. Qed.

Lemma C6_burst_gives_one_sync_after_last_event_witness :
  DEBOUNCE_MS = 1000%Z
  ∧ executed_for session1 (advance_to 5000 (run_file_events burst new_debouncer))
    = [((1800 + DEBOUNCE_MS)%Z, session1)]
  ∧ (∀ k t q,
       let d := advance_to t (run_file_events (take k burst) new_debouncer) in
       timers_for q (scheduleSyncWithDebounce q d)
       = [{| t_id := next_id d; t_due := (now d + DEBOUNCE_MS)%Z; t_path := q |}]
       ∧ pendingSyncs (scheduleSyncWithDebounce q d) !! q
         = Some {| ps_filePath := q; scheduledTime := (now d + DEBOUNCE_MS)%Z;
                   timeoutId := next_id d |}
       ∧ Forall (λ tm, t_id tm ≠ next_id d) (timers d)).
Proof.
  refine (C6_burst_gives_one_sync_after_last_event session1 burst 1800 5000 _ _ _ _).
  - simpl. lia.
  - vm_compute. repeat split; reflexivity.
  - vm_compute. reflexivity.
  - vm_compute. discriminate.
Defined.

Example burst_executed :
  executed (advance_to 5000 (run_file_events burst new_debouncer))
  = [(1300%Z, session2); (2800%Z, session1); (3900%Z, session2)].
Proof. vm_compute. reflexivity. Qed.

Lemma C7_one_sync_per_path_at_a_time_witness :
  let e := run_events [Call session1; Call session2] (new_engine fresh) in
  NoDup (in_flight e)
  ∧ engine_step e (Call session1) = (e, Some skipped_in_progress)
  ∧ syncSingleFile session1 (eng_state e) = (Normal skipped_in_progress, eng_state e)
  ∧ success skipped_in_progress = false
  ∧ action skipped_in_progress = skipped
  ∧ message skipped_in_progress = Some (js "Sync already in progress").
Proof.
  refine (C7_one_sync_per_path_at_a_time fresh [Call session1; Call session2] session1 _).
  vm_compute. right. left.
Defined.

(** A second call while the first is in flight is skipped; once the first
    has settled, a call is let through again. *)
Example calls_in_flight :
  let e1 := (engine_step (new_engine fresh) (Call session1)).1 in
  (engine_step e1 (Call session1)).2 = Some skipped_in_progress
  ∧ (engine_step e1 (Settle session1)).2 = Some synced1
  ∧ in_flight (engine_step e1 (Settle session1)).1 = []
  ∧ (engine_step (engine_step e1 (Settle session1)).1 (Call session1)).2 = None.
Proof. repeat split; vm_compute; reflexivity. Qed.

Example triggerManualSync_two_sessions :
  notices (triggerManualSync two_sessions).2
  = [js "Starting manual sync..."; js "Sync complete with errors: 1 succeeded, 1 failed."].
Proof. vm_compute. reflexivity. Qed.

End Run_facts.

(** ** Further properties of the sync engine *)

Set Warnings "-clear-no-such-hyp".

(** *** Results and failures of a sync *)

Lemma getErrorMessage_nonempty e : getErrorMessage e ≠ [].
Proof.
  unfold getErrorMessage. destruct e as [m|m|m|code m]; simpl.
  1-3: by destruct m.
  by destruct code.
Qed.


Section Sync_results.
Context `{!JSON}.

(** X1.  [syncSingleFile] never throws: whatever goes wrong in its [try]
    block comes back as a result.  A result that is not a success carries
    a message that is not empty; an [error] result carries the error that
    was caught and the message that [getErrorMessage] gives for it; an
    [updated] result is a success without message nor error. *)
Theorem syncSingleFile_failure_is_a_result p s :
  ∃ r, (syncSingleFile p s).1 = Normal r
    ∧ (success r = false → ∃ m, message r = Some m ∧ m ≠ [])
    ∧ (action r = error →
         success r = false
         ∧ ∃ e, r_error r = Some e ∧ message r = Some (getErrorMessage e))
    ∧ (action r = updated → success r = true ∧ message r = None ∧ r_error r = None).
Proof.
  destruct (syncSingleFile_outcome p s) as (r & s' & -> & Hr).
  exists r. split; [done|].
  destruct Hr as [| | |e|pp tp Ht]; simpl; try rewrite Ht.
  - split; [by eexists|]. by split.
  - by repeat split.
  - split; [by eexists|]. by split.
  - split; [|split; [|done]].
    + intros _. eexists. split; [done|]. apply getErrorMessage_nonempty.
    + intros _. split; [done|]. by eexists.
  - by repeat split.
Qed.

(** The [finally] block: a call that is not interleaved with another
    leaves the set of syncs in progress as it found it. *)
Lemma syncSingleFile_finish_releases c s S0 :
  match c with
  | Rejected _ => syncInProgress s = S0
  | Running p => syncInProgress s ∖ {[p]} = S0
  end →
  syncInProgress (syncSingleFile_finish c s).2 = S0.
Proof.
  destruct c as [r|p]; [done|]. intros <-. apply syncSingleFile_finish_unmarks.
Qed.

End Sync_results.

Section Bulk_sync.
Context `{!JSON}.

(** X2.  The [finally] block of [syncSingleFile] always runs: a call, on
    its own, leaves the set of syncs in progress exactly as it found it,
    whether it copied, skipped or failed. *)
Theorem syncSingleFile_releases_guard p s :
  syncInProgress (syncSingleFile p s).2 = syncInProgress s.
Proof.
  unfold syncSingleFile.
  destruct (syncSingleFile_start_cases p s) as [[Hp ->]|[Hp ->]]; [done|].
  rewrite syncSingleFile_finish_unmarks. unfold mark. simpl. set_solver.
Qed.

Lemma start_all_marks batch s :
  length (start_all batch s).1 = length batch
  ∧ syncInProgress (start_all batch s).2
    = syncInProgress s ∪ list_to_set (running (start_all batch s).1)
  ∧ NoDup (running (start_all batch s).1)
  ∧ ∀ p, p ∈ running (start_all batch s).1 → p ∉ syncInProgress s.
Proof.
  revert s. induction batch as [|f rest IH]; intros s.
  { simpl. repeat split; [set_solver|constructor|set_solver]. }
  cbn [start_all].
  destruct (syncSingleFile_start_cases f s) as [[Hf ->]|[Hf ->]].
  - destruct (IH s) as (Hlen & Hset & Hnd & Hnew).
    destruct (start_all rest s) as [cs s2]. simpl in *.
    split; [by rewrite Hlen|]. by split.
  - destruct (IH (mark f s)) as (Hlen & Hset & Hnd & Hnew).
    destruct (start_all rest (mark f s)) as [cs s2]. unfold running in *. simpl in *.
    split; [by rewrite Hlen|]. split; [|split].
    + rewrite Hset. set_solver.
    + apply NoDup_cons. split; [|done]. intros Hin. apply (Hnew f Hin). set_solver.
    + intros p [->|Hp]%elem_of_cons; [done|]. specialize (Hnew p Hp). set_solver.
Qed.

Lemma finish_all_releases started s :
  Forall (λ c, c = Rejected skipped_in_progress ∨ ∃ p, c = Running p) started →
  ∃ rs s', finish_all started s = (Normal rs, s')
    ∧ length rs = length started
    ∧ syncInProgress s' = syncInProgress s ∖ list_to_set (running started).
Proof.
  intros Hs. revert s. induction Hs as [|c rest Hc _ IH]; intros s.
  { eexists _, _. split; [done|]. split; [done|]. simpl. set_solver. }
  cbn [finish_all]. unfold mbind, M_bind.
  destruct (syncSingleFile_finish_outcome c s Hc) as (r & s1 & E & _).
  pose proof (f_equal snd E) as E2. simpl in E2. rewrite E.
  destruct (IH s1) as (rs & s2 & -> & Hlen & Hset).
  eexists _, _. split; [done|]. split; [simpl; by rewrite Hlen|].
  rewrite Hset, <- E2. destruct Hc as [->|[p ->]].
  - unfold running. simpl. done.
  - rewrite syncSingleFile_finish_unmarks. unfold running. simpl. set_solver.
Qed.

Lemma sync_batch_releases batch s :
  ∃ rs s', sync_batch batch s = (Normal rs, s')
    ∧ length rs = length batch
    ∧ syncInProgress s' = syncInProgress s.
Proof.
  unfold sync_batch. pose proof (start_all_cases batch s) as Hs.
  destruct (start_all_marks batch s) as (Hlen & Hset & _ & Hnew).
  destruct (start_all batch s) as [started s1]. simpl in *.
  destruct (finish_all_releases started s1 Hs) as (rs & s2 & -> & Hlen' & Hset').
  eexists _, _. split; [done|]. split; [congruence|].
  rewrite Hset', Hset. set_solver.
Qed.

Lemma sync_batches_releases fuel remaining results s :
  (length remaining ≤ fuel)%nat →
  ∃ rs s', sync_batches fuel remaining results s = (Normal rs, s')
    ∧ length rs = (length results + length remaining)%nat
    ∧ syncInProgress s' = syncInProgress s.
Proof.
  revert remaining results s. induction fuel as [|fuel IH]; intros remaining results s Hfuel.
  { destruct remaining; [|simpl in Hfuel; lia]. eexists _, _. simpl. by rewrite Nat.add_0_r. }
  destruct remaining as [|f rest].
  { eexists _, _. simpl. by rewrite Nat.add_0_r. }
  cbn [sync_batches]. unfold mbind, M_bind.
  destruct (sync_batch_releases (take 10 (f :: rest)) s) as (rs & s1 & -> & Hlen & Hset).
  destruct (IH (drop 10 (f :: rest)) (results ++ rs) s1) as (rs' & s2 & -> & Hlen' & Hset').
  { rewrite length_drop. simpl in *. lia. }
  eexists _, _. split; [done|]. split; [|congruence].
  rewrite Hlen', length_app, Hlen, length_take, length_drop. lia.
Qed.

End Bulk_sync.

(** *** The search for session files *)

Lemma collect_jsonl_spec claudePath entries found s :
  collect_jsonl claudePath entries found s
  = (Normal (found ++ (entries ≫= jsonl_files_of s claudePath)),
     set_trace (trace s ++ (Readdir <$> project_dirs claudePath entries)) s).
Proof.
  revert found s. induction entries as [|[name isDirectory] rest IH]; intros found s.
  { simpl. rewrite !app_nil_r. by destruct s. }
  cbn [collect_jsonl]. unfold mbind at 1, M_bind at 1.
  unfold project_dirs. rewrite filter_cons, bind_cons. unfold jsonl_files_of at 1.
  cbn [fst snd]. destruct isDirectory.
  - rewrite decide_True by done. rewrite fmap_cons. cbn [fst].
    unfold try_catchM, fs_readdir, host_call, listing, mbind, M_bind, mret, M_ret.
    destruct (faults s (Readdir _)) eqn:Ef; cbn [set_trace dirs faults].
    + rewrite IH. unfold set_trace. cbn. by rewrite <- app_assoc.
    + destruct (dirs s !! _) eqn:Ed.
      * rewrite IH. unfold set_trace. cbn. by rewrite <- !app_assoc.
      * rewrite IH. unfold set_trace. cbn. by rewrite <- app_assoc.
  - rewrite decide_False by done. unfold mret, M_ret. rewrite IH. done.
Qed.

(** The search, call by call. *)
Lemma findAllJsonlFiles_unfold claudePath s :
  match listing s claudePath with
  | Some entries =>
      findAllJsonlFiles claudePath s
      = (Normal (entries ≫= jsonl_files_of s claudePath),
         set_trace (trace s ++ Readdir claudePath
                      :: (Readdir <$> project_dirs claudePath entries)) s)
  | None =>
      ∃ e, findAllJsonlFiles claudePath s
           = (Throw e, set_trace (trace s ++ [Readdir claudePath]) s)
         ∧ error_code e = Some (default ENOENT (faults s (Readdir claudePath)))
  end.
Proof.
  unfold findAllJsonlFiles, try_catchM, fs_readdir, host_call, listing, mbind, M_bind, throw.
  destruct (faults s (Readdir claudePath)) as [code|] eqn:Ef.
  { by eexists. }
  destruct (dirs s !! claudePath) as [entries|] eqn:Ed; cbn [dirs set_trace].
  - rewrite Ed, collect_jsonl_spec. cbn [trace set_trace app].
    by rewrite <- app_assoc.
  - rewrite Ed. by eexists.
Qed.

(** X3.  [findAllJsonlFiles] lists the projects directory and, one level
    below it, every subdirectory: it returns, in listing order, the names
    ending in [.jsonl] of the subdirectories that can be listed, joined
    to their path.  Plain files of the projects directory contribute
    nothing, and a subdirectory that cannot be listed is passed over.  It
    throws only when the projects directory itself cannot be listed, and
    it changes nothing in the world but the record of the calls made. *)
Theorem findAllJsonlFiles_finds_sessions claudePath s :
  match listing s claudePath with
  | Some entries =>
      findAllJsonlFiles claudePath s
      = (Normal (entries ≫= jsonl_files_of s claudePath),
         set_trace (trace s ++ Readdir claudePath
                      :: (Readdir <$> project_dirs claudePath entries)) s)
  | None =>
      ∃ e, findAllJsonlFiles claudePath s
           = (Throw e, set_trace (trace s ++ [Readdir claudePath]) s)
         ∧ error_code e = Some (default ENOENT (faults s (Readdir claudePath)))
  end.
Proof. apply findAllJsonlFiles_unfold. Qed.

Lemma expandHomePath_returns inputPath s :
  ∃ expanded, expandHomePath inputPath s = (Normal expanded, s).
Proof. unfold expandHomePath. case_match; by eexists. Qed.

Lemma findAllJsonlFiles_state claudePath s :
  ∃ t, (findAllJsonlFiles claudePath s).2 = set_trace (trace s ++ t) s.
Proof.
  pose proof (findAllJsonlFiles_unfold claudePath s) as H.
  destruct (listing s claudePath); [|destruct H as (e & H & _)]; rewrite H; by eexists.
Qed.

Section Bulk_sync_results.
Context `{!JSON}.

(** The bulk sync, once the projects directory is known. *)
Lemma syncAllExisting_unfold s claudePath :
  (expandHomePath (claudeProjectsPath (settings s)) s).1 = Normal claudePath →
  syncAllExisting s =
    if negb (truthy claudePath) then
      (Normal [], set_notices (notices s ++ [js "Claude projects path not configured"]) s)
    else
      match findAllJsonlFiles claudePath s with
      | (Normal found, s1) =>
          if bool_decide (length found = 0%nat) then
            (Normal [],
             set_notices (notices s1 ++ [js "No Claude conversations found to sync"]) s1)
          else
            match sync_batches (length found) found [] s1 with
            | (Normal results, s2) => (Normal results, s2)
            | (Throw e, s2) =>
                (Normal [],
                 set_notices (notices s2 ++ [js "Sync error: " ++ getErrorMessage e]) s2)
            end
      | (Throw e, s1) =>
          (Normal [],
           set_notices (notices s1 ++ [js "Sync error: " ++ getErrorMessage e]) s1)
      end.
Proof.
  intros Hexp. unfold syncAllExisting, mbind, M_bind, try_catchM, notice, mret, M_ret.
  destruct (expandHomePath_returns (claudeProjectsPath (settings s)) s) as [x E].
  rewrite E in Hexp |- *. simpl in Hexp. injection Hexp as ->.
  destruct (truthy claudePath); simpl; [|done].
  destruct (findAllJsonlFiles claudePath s) as [[found|e] s1]; [|done].
  case_bool_decide; [done|].
  by destruct (sync_batches _ _ _ _) as [[results|e] s2].
Qed.

(** X4.  The bulk sync never throws, and it leaves no path marked as
    being synced: the set of syncs in progress is afterwards what it was
    before. *)
Theorem syncAllExisting_never_throws s :
  ∃ results, (syncAllExisting s).1 = Normal results
    ∧ syncInProgress (syncAllExisting s).2 = syncInProgress s.
Proof.
  destruct (expandHomePath_returns (claudeProjectsPath (settings s)) s) as [claudePath E].
  rewrite (syncAllExisting_unfold s claudePath) by (by rewrite E).
  destruct (truthy claudePath); simpl; [|by eexists].
  destruct (findAllJsonlFiles_state claudePath s) as [t Hs1].
  destruct (findAllJsonlFiles claudePath s) as [[found|e] s1]; simpl in Hs1; subst s1;
    [|by eexists].
  case_bool_decide; [by eexists|].
  destruct (sync_batches_releases (length found) found []
              (set_trace (trace s ++ t) s)) as (rs & s2 & -> & _ & Hset); [done|].
  by eexists.
Qed.


(** X6.  Without a projects directory there is nothing to sync, and the
    bulk sync says so instead of failing: with an empty path in the
    settings it makes no call at all; when the directory cannot be listed
    it shows the message of the error; when no session file is found it
    says that.  In each case it returns no result and leaves every file as
    it was. *)
Theorem syncAllExisting_nothing_to_sync s :
  (claudeProjectsPath (settings s) = [] →
     syncAllExisting s
     = (Normal [], set_notices (notices s ++ [js "Claude projects path not configured"]) s))
  ∧ (∀ claudePath,
       (expandHomePath (claudeProjectsPath (settings s)) s).1 = Normal claudePath →
       claudePath ≠ [] →
       listing s claudePath = None →
       ∃ e, error_code e = Some (default ENOENT (faults s (Readdir claudePath)))
         ∧ syncAllExisting s
           = (Normal [],
              set_notices (notices s ++ [js "Sync error: " ++ getErrorMessage e])
                (set_trace (trace s ++ [Readdir claudePath]) s)))
  ∧ (∀ claudePath entries,
       (expandHomePath (claudeProjectsPath (settings s)) s).1 = Normal claudePath →
       claudePath ≠ [] →
       listing s claudePath = Some entries →
       entries ≫= jsonl_files_of s claudePath = [] →
       syncAllExisting s
       = (Normal [],
          set_notices (notices s ++ [js "No Claude conversations found to sync"])
            (set_trace (trace s ++ Readdir claudePath
                          :: (Readdir <$> project_dirs claudePath entries)) s))).
Proof.
  split; [|split].
  - intros Hempty. rewrite (syncAllExisting_unfold s []); [done|].
    rewrite Hempty. reflexivity.
  - intros claudePath Hexp Hne Hlist. rewrite (syncAllExisting_unfold s claudePath Hexp).
    destruct claudePath as [|c cp]; [done|]. cbn [truthy negb].
    pose proof (findAllJsonlFiles_unfold (c :: cp) s) as Hfind. rewrite Hlist in Hfind.
    destruct Hfind as (e & -> & He). by exists e.
  - intros claudePath entries Hexp Hne Hlist Hnone.
    rewrite (syncAllExisting_unfold s claudePath Hexp).
    destruct claudePath as [|c cp]; [done|]. cbn [truthy negb].
    pose proof (findAllJsonlFiles_unfold (c :: cp) s) as Hfind. rewrite Hlist in Hfind.
    rewrite Hfind, Hnone. reflexivity.
Qed.

End Bulk_sync_results.

(** *** Paths of session files *)

Lemma split_on_join segs :
  segs ≠ [] → Forall (Forall (λ x, x ≠ Path.sep)) segs →
  Path.split_on Path.sep (join [Path.sep] segs) = segs.
Proof.
  induction segs as [|seg segs IH]; [done|]. intros _ [Hseg Hsegs]%Forall_cons.
  destruct segs as [|seg' segs'].
  { by apply split_on_free. }
  change (join [Path.sep] (seg :: seg' :: segs'))
    with (seg ++ Path.sep :: join [Path.sep] (seg' :: segs')).
  rewrite split_on_app, IH, split_on_free by done. done.
Qed.

Lemma normalize_segments_plain allow stack segs :
  Forall plain_name segs →
  Path.normalize_segments allow stack segs = reverse stack ++ segs.
Proof.
  intros Hsegs. revert stack.
  induction Hsegs as [|seg segs (H0 & H1 & H2 & _) _ IH]; intros stack; simpl.
  { by rewrite app_nil_r. }
  rewrite bool_decide_eq_false_2 by (by intros [?|?]).
  rewrite bool_decide_eq_false_2 by done.
  rewrite IH, reverse_cons, <- app_assoc. done.
Qed.

Lemma plain_names_free segs :
  Forall plain_name segs → Forall (Forall (λ x, x ≠ Path.sep)) segs.
Proof. intros H. eapply Forall_impl; [exact H|]. by intros seg (_ & _ & _ & ?). Qed.

Lemma split_on_absolute segs :
  Forall plain_name segs →
  Path.split_on Path.sep (absolute segs) = [] :: match segs with [] => [[]] | _ => segs end.
Proof.
  intros Hsegs. unfold absolute. cbn [Path.split_on]. rewrite N.eqb_refl. f_equal.
  destruct segs as [|seg segs]; [done|].
  apply split_on_join; [done|]. by apply plain_names_free.
Qed.

Lemma join_nonempty sep seg segs : seg ≠ [] → join sep (seg :: segs) ≠ [].
Proof. destruct seg, segs; done. Qed.

Lemma last_join sep segs seg :
  seg ≠ [] → last (join sep (segs ++ [seg])) = last seg.
Proof.
  intros Hseg. induction segs as [|a segs IH]; [done|].
  change ((a :: segs) ++ [seg]) with (a :: (segs ++ [seg])).
  destruct (segs ++ [seg]) as [|b l] eqn:E; [by destruct segs|].
  change (join sep (a :: b :: l)) with (a ++ sep ++ join sep (b :: l)).
  rewrite !last_app, IH. destruct (last seg) eqn:El; [done|].
  by apply last_None in El.
Qed.

(** An absolute path of plain names is its own normal form. *)
Lemma normalize_absolute segs :
  Forall plain_name segs → Path.normalize (absolute segs) = absolute segs.
Proof.
  intros Hsegs. unfold Path.normalize, Path.normalizeString.
  rewrite split_on_absolute by done.
  change (absolute segs) with (Path.sep :: join [Path.sep] segs) at 1.
  cbv iota. rewrite N.eqb_refl. cbn [negb Path.normalize_segments].
  rewrite bool_decide_eq_true_2 by (by left).
  destruct segs as [|seg segs].
  { simpl. done. }
  rewrite normalize_segments_plain by done. cbn [reverse app].
  rewrite reverse_nil. cbn [app].
  assert (join [Path.sep] (seg :: segs) ≠ []) as Hne.
  { apply join_nonempty. apply Forall_cons in Hsegs as [(H0 & _) _]. done. }
  destruct (join [Path.sep] (seg :: segs)) as [|c r] eqn:Ej; [done|].
  rewrite bool_decide_eq_false_2; [unfold absolute; by rewrite Ej|].
  unfold absolute.
  destruct (exists_last (l := seg :: segs)) as (front & lastseg & E); [done|].
  rewrite E in Hsegs |- *. apply Forall_app in Hsegs as [_ [(H0 & _ & _ & Hfree) _]%Forall_cons].
  rewrite last_cons, last_join by done.
  destruct (last lastseg) as [x|] eqn:El; [|by apply last_None in El].
  intros [= ->]. apply last_Some_elem_of in El.
  rewrite Forall_forall in Hfree. by apply (Hfree Path.sep).
Qed.

Lemma join_paths_absolute segs name :
  Forall plain_name segs → plain_name name →
  Path.join_paths [absolute segs; name] = absolute (segs ++ [name]).
Proof.
  intros Hsegs (H0 & H1 & H2 & Hfree).
  rewrite join_paths_name by done.
  unfold joined_prefix. rewrite split_on_absolute by done.
  change (absolute segs) with (Path.sep :: join [Path.sep] segs) at 1.
  cbv iota. rewrite N.eqb_refl. cbn [negb Path.normalize_segments].
  rewrite bool_decide_eq_true_2 by (by left).
  unfold absolute. rewrite join_snoc.
  destruct segs as [|seg segs].
  { simpl. done. }
  rewrite normalize_segments_plain by done. cbn [reverse app]. rewrite reverse_nil.
  cbn [app]. by rewrite <- !app_assoc.
Qed.

Lemma last_snoc2 {A} (l : list A) a b : last (l ++ [a; b]) = Some b.
Proof. by rewrite last_app. Qed.

(** [parseClaudePath] on the absolute path of a session file. *)
Lemma parseClaudePath_absolute segs name f :
  Forall plain_name segs → plain_name name → plain_name f →
  ∃ decoded,
    decodeProjectName name = Normal decoded
    ∧ parseClaudePath (absolute (segs ++ [name; f]))
      = Normal {| projectsDir := match segs with [] => [] | _ => absolute segs end;
                  encodedProjectName := Some name;
                  decodedProjectName := decoded;
                  pp_sessionId := replace_first (js ".jsonl") [] f;
                  fullPath := absolute (segs ++ [name; f]) |}.
Proof.
  intros Hsegs Hname Hf.
  destruct (decodeProjectName_returns name) as [decoded Hd]. exists decoded.
  split; [done|]. unfold parseClaudePath.
  assert (Forall plain_name (segs ++ [name; f])) as Hall.
  { apply Forall_app. split; [done|].
    apply Forall_cons_2; [done|]. apply Forall_cons_2; [done|]. apply Forall_nil_2. }
  rewrite normalize_absolute, split_on_absolute by done.
  destruct (segs ++ [name; f]) as [|a l] eqn:E; [by destruct segs|]. rewrite <- E.
  change ([] :: segs ++ [name; f]) with (([] :: segs) ++ [name; f]).
  rewrite last_snoc2. cbn [default from_option id].
  rewrite length_app. cbn [length].
  assert (∀ n, n = S (length segs) → (([] :: segs) ++ [name; f]) !! n = Some name) as Hlook.
  { intros n ->. rewrite lookup_app_r by (simpl; lia).
    by replace (S (length segs) - length ([] :: segs))%nat with 0%nat by (simpl; lia). }
  rewrite !(decide_True (P := (2 ≤ S (length segs) + 2)%nat)) by lia.
  rewrite !Hlook by lia. cbn [default from_option id]. rewrite Hd. cbn [cbind].
  unfold slice_0_minus2. rewrite length_app.
  replace (length ([] :: segs) + length [name; f] - 2)%nat
    with (length ([] :: segs)) by (simpl; lia).
  rewrite take_app_length.
  do 2 f_equal.
Qed.

Lemma is_prefix_app pat rest : is_prefix pat (pat ++ rest) = true.
Proof. induction pat as [|a pat IH]; [done|]. simpl. by rewrite N.eqb_refl. Qed.

Lemma ends_with_app pat pre s : ends_with pat s = true → ends_with pat (pre ++ s) = true.
Proof.
  unfold ends_with. rewrite reverse_app.
  generalize (reverse pat), (reverse s), (reverse pre). clear.
  intros pat. induction pat as [|a pat IH]; intros s pre; [done|].
  destruct s as [|b s]; [done|]. simpl.
  intros [-> H]%andb_true_iff. by rewrite (IH s pre H).
Qed.

(** Removing the extension from a file name whose base holds no dot. *)
Lemma replace_first_extension base rest :
  Forall (λ x, x ≠ c_dot) base →
  replace_first (js ".jsonl") [] (base ++ js ".jsonl" ++ rest) = base ++ rest.
Proof.
  induction 1 as [|c base Hc _ IH].
  - cbn [app]. destruct (js ".jsonl" ++ rest) as [|d r] eqn:E; [done|].
    cbn [replace_first]. rewrite <- E, is_prefix_app.
    by rewrite drop_app_length.
  - cbn [app replace_first].
    replace (is_prefix (js ".jsonl") (c :: base ++ js ".jsonl" ++ rest)) with false.
    + by rewrite IH.
    + change (js ".jsonl") with (c_dot :: js "jsonl"). cbn [is_prefix].
      by rewrite (proj2 (N.eqb_neq c_dot c)) by congruence.
Qed.

(** X7.  What [findAllJsonlFiles] puts together, [parseClaudePath] takes
    apart.  Below an absolute projects directory whose entries have the
    names that a directory listing gives, every path found ends in
    [.jsonl] and is the directory, a project name and a file name; parsing
    it does not throw and gives back that project name as the encoded
    name, its decoding as the display name, the path itself, and as
    session identifier the file name without its first [.jsonl], which is
    the base of the name when the base holds no dot. *)
Theorem found_files_parse_back s segs entries p :
  Forall plain_name segs →
  listing s (absolute segs) = Some entries →
  (∀ name isDirectory, (name, isDirectory) ∈ entries → plain_name name) →
  (∀ name projectFiles f isDirectory,
     (name, true) ∈ entries →
     listing s (absolute (segs ++ [name])) = Some projectFiles →
     (f, isDirectory) ∈ projectFiles → plain_name f) →
  p ∈ entries ≫= jsonl_files_of s (absolute segs) →
  ends_with (js ".jsonl") p = true
  ∧ ∃ name f pp,
      (name, true) ∈ entries
      ∧ p = absolute (segs ++ [name; f])
      ∧ parseClaudePath p = Normal pp
      ∧ (segs ≠ [] → projectsDir pp = absolute segs)
      ∧ encodedProjectName pp = Some name
      ∧ decodeProjectName name = Normal (decodedProjectName pp)
      ∧ pp_sessionId pp = replace_first (js ".jsonl") [] f
      ∧ (∀ base, f = base ++ js ".jsonl" → Forall (λ x, x ≠ c_dot) base →
           pp_sessionId pp = base)
      ∧ fullPath pp = p.
Proof.
  intros Hsegs Hlist Hnames Hfiles Hp.
  apply list_elem_of_bind in Hp as ([name isDirectory] & Hp & Hentry).
  unfold jsonl_files_of in Hp. cbn [fst snd] in Hp.
  destruct isDirectory; [|by apply elem_of_nil in Hp].
  pose proof (Hnames name true Hentry) as Hname.
  rewrite join_paths_absolute in Hp by done.
  destruct (listing s (absolute (segs ++ [name]))) as [projectFiles|] eqn:El;
    [|by apply elem_of_nil in Hp].
  apply list_elem_of_fmap in Hp as (f & -> & [Hext Hf]%list_elem_of_filter).
  apply list_elem_of_fmap in Hf as ([f' isDir] & -> & Hf). cbn [fst] in *.
  pose proof (Hfiles name projectFiles f' isDir Hentry El Hf) as Hplain.
  assert (Forall plain_name (segs ++ [name])) as Hsegs'.
  { apply Forall_app. split; [done|]. apply Forall_cons_2; [done|]. apply Forall_nil_2. }
  rewrite join_paths_absolute by done. rewrite <- app_assoc. cbn [app].
  split.
  { unfold absolute.
    destruct (exists_last (l := segs ++ [name; f'])) as (front & lastseg & E);
      [by destruct segs|].
    assert (lastseg = f') as ->.
    { apply (f_equal last) in E. rewrite last_snoc2, last_snoc in E. congruence. }
    rewrite E, join_snoc. change (Path.sep :: ?x) with ([Path.sep] ++ x).
    destruct front; [by apply ends_with_app|].
    rewrite !app_assoc. by apply ends_with_app. }
  destruct (parseClaudePath_absolute segs name f' Hsegs Hname Hplain) as (decoded & Hd & Hpp).
  eexists name, f', _. split; [done|]. split; [done|]. split; [exact Hpp|].
  cbn [projectsDir encodedProjectName decodedProjectName pp_sessionId fullPath].
  split; [by destruct segs|]. split; [done|]. split; [done|]. split; [done|].
  split; [|done].
  intros base -> Hbase. rewrite <- (app_nil_r (js ".jsonl")).
  rewrite replace_first_extension by done. by rewrite app_nil_r.
Qed.

(** *** Where sessions go in the vault *)

Lemma joined_prefix_end dir : joined_prefix dir = [] ∨ last (joined_prefix dir) = Some Path.sep.
Proof.
  unfold joined_prefix.
  destruct (Path.normalize_segments _ _ _) as [|seg segs].
  - rewrite app_nil_r. case_match; [by right|by left].
  - right. by rewrite !app_assoc, last_snoc.
Qed.

(** The last segment of a path decides the path's name. *)
Lemma last_segment_unique x y n1 n2 :
  x = [] ∨ last x = Some Path.sep → y = [] ∨ last y = Some Path.sep →
  Forall (λ c, c ≠ Path.sep) n1 → Forall (λ c, c ≠ Path.sep) n2 →
  x ++ n1 = y ++ n2 → n1 = n2.
Proof.
  assert (∀ x n, x = [] ∨ last x = Some Path.sep → Forall (λ c, c ≠ Path.sep) n →
            last (Path.split_on Path.sep (x ++ n)) = Some n) as Hlast.
  { intros x' n [->|Hx] Hn.
    - by rewrite (split_on_free _ n).
    - destruct (exists_last (l := x')) as (front & c & ->); [by intros ->|].
      rewrite last_snoc in Hx. injection Hx as ->.
      rewrite <- app_assoc. cbn [app]. rewrite split_on_app, (split_on_free _ n) by done.
      by rewrite last_snoc. }
  intros Hx Hy Hn1 Hn2 E.
  pose proof (Hlast x n1 Hx Hn1) as H1. rewrite E, (Hlast y n2 Hy Hn2) in H1. congruence.
Qed.

Lemma sessionId_with_extension sid ext :
  Forall (λ c, c ≠ Path.sep) sid → Forall (λ c, c ≠ Path.sep) ext → (3 ≤ length ext)%nat →
  ∀ dir, dir ≠ [] → Path.join_paths [dir; sid ++ ext] = joined_prefix dir ++ sid ++ ext.
Proof.
  intros Hsid Hext Hlen dir Hdir. apply join_paths_name; [done|by apply Forall_app|..].
  - destruct sid, ext; simpl in *; [lia|done..].
  - intros E%(f_equal length). rewrite length_app in E. simpl in E. lia.
  - intros E%(f_equal length). rewrite length_app in E. simpl in E. lia.
Qed.

(** X8.  The copy and the sidecar of a session are named after its
    identifier: two sessions with different identifiers never share a copy
    nor a sidecar, whatever their projects, and the copy of a session is
    never the sidecar of one. *)
Theorem sessions_have_their_own_files base storage p1 p2 pp1 pp2 tp1 tp2 :
  parseClaudePath p1 = Normal pp1 →
  parseClaudePath p2 = Normal pp2 →
  getTargetPaths base storage pp1 = Normal tp1 →
  getTargetPaths base storage pp2 = Normal tp2 →
  (pp_sessionId pp1 ≠ pp_sessionId pp2 →
     jsonlFile tp1 ≠ jsonlFile tp2 ∧ metaFile tp1 ≠ metaFile tp2)
  ∧ jsonlFile tp1 ≠ metaFile tp2.
Proof.
  intros H1%parseClaudePath_sessionId H2%parseClaudePath_sessionId Ht1 Ht2.
  unfold getTargetPaths in Ht1, Ht2. destruct base as [base|]; [|done].
  injection Ht1 as <-. injection Ht2 as <-. cbn [jsonlFile metaFile].
  set (dir1 := Path.join_paths [base; storage; sanitizeFileName (decodedProjectName pp1)]).
  set (dir2 := Path.join_paths [base; storage; sanitizeFileName (decodedProjectName pp2)]).
  assert (Forall (λ c, c ≠ Path.sep) (js ".jsonl")) as Hj by (vm_compute; repeat constructor; done).
  assert (Forall (λ c, c ≠ Path.sep) (js ".meta.json")) as Hm
    by (vm_compute; repeat constructor; done).
  rewrite !sessionId_with_extension
    by (first [done | simpl; lia | apply join_paths_nonempty]).
  split; [intros Hne; split|]; intros E.
  - apply last_segment_unique in E;
      [|apply joined_prefix_end..|by apply Forall_app|by apply Forall_app].
    by apply app_inv_tail in E.
  - apply last_segment_unique in E;
      [|apply joined_prefix_end..|by apply Forall_app|by apply Forall_app].
    by apply app_inv_tail in E.
  - apply last_segment_unique in E;
      [|apply joined_prefix_end..|by apply Forall_app|by apply Forall_app].
    apply (f_equal last) in E. by rewrite !last_app in E.
Qed.

(** *** Display names of projects *)

Lemma cbind_Normal {A} (c : completion A) : cbind c Normal = c.
Proof. by destruct c. Qed.

(** Code units other than the percent sign decode to themselves. *)
Lemma Decode_unescaped fuel s rest :
  Forall (λ c, c ≠ c_percent) s →
  Decode (length s + fuel) (s ++ rest) = cbind (Decode fuel rest) (λ t, Normal (s ++ t)).
Proof.
  induction 1 as [|c s Hc _ IH]; [by rewrite cbind_Normal|].
  cbn [length app Nat.add Decode].
  rewrite (proj2 (N.eqb_neq c c_percent)) by done.
  rewrite IH. by destruct (Decode fuel rest).
Qed.

Lemma decodeURIComponent_unescaped s :
  Forall (λ c, c ≠ c_percent) s → decodeURIComponent s = Normal s.
Proof.
  intros Hs. unfold decodeURIComponent.
  rewrite <- (app_nil_r s) at 2. rewrite <- (Nat.add_0_r (length s)).
  rewrite Decode_unescaped by done. simpl. by rewrite app_nil_r.
Qed.

Lemma Decode_escape fuel h l c t :
  percent_octet (c_percent :: h :: l :: t) = Some (c, t) → leading_ones c = 0%nat →
  Decode (S fuel) (c_percent :: h :: l :: t) = cbind (Decode fuel t) (λ u, Normal (c :: u)).
Proof. intros Hoct Hones. cbn [Decode]. by rewrite N.eqb_refl, Hoct, Hones. Qed.

(** An escaped separator in the middle of a name. *)
Lemma decodeURIComponent_separator s h l c t t' :
  Forall (λ c, c ≠ c_percent) s →
  percent_octet (c_percent :: h :: l :: t) = Some (c, t) → leading_ones c = 0%nat →
  decodeURIComponent t = Normal t' →
  decodeURIComponent (s ++ c_percent :: h :: l :: t) = Normal (s ++ c :: t').
Proof.
  intros Hs Hoct Hones Ht. unfold decodeURIComponent in *.
  rewrite length_app. cbn [length]. rewrite Decode_unescaped by done.
  rewrite (Decode_escape _ h l c t) by done.
  rewrite (Decode_fuel _ (length t)), Ht by lia. done.
Qed.

Lemma replace_runs_from_separator p by_ b s c c' t :
  p c = true → p c' = true →
  replace_runs_from p by_ b (s ++ c :: t) = replace_runs_from p by_ b (s ++ c' :: t).
Proof.
  intros Hc Hc'. revert b. induction s as [|x s IH]; intros b; simpl.
  - by rewrite Hc, Hc'.
  - destruct (p x); by rewrite IH.
Qed.

Lemma cleaned_separator p by_ s c c' t :
  p c = true → p c' = true →
  replace_runs p by_ (strip_leading p (s ++ c :: t))
  = replace_runs p by_ (strip_leading p (s ++ c' :: t)).
Proof.
  intros Hc Hc'. unfold replace_runs, strip_leading.
  induction s as [|x s IH]; simpl.
  - by rewrite Hc, Hc'.
  - destruct (p x) eqn:Ex; [done|].
    simpl. rewrite Ex. f_equal. by apply replace_runs_from_separator.
Qed.

Lemma replace_runs_from_free p by_ s :
  Forall (λ c, p c = false) s → replace_runs_from p by_ false s = s.
Proof. induction 1 as [|c s Hc _ IH]; simpl; [done|]. by rewrite Hc, IH. Qed.

Lemma drop_while_free {A} (p : A → bool) s : Forall (λ c, p c = false) s → drop_while p s = s.
Proof. destruct 1 as [|c s Hc _]; simpl; [done|]. by rewrite Hc. Qed.

(** X9.  A project directory whose name holds no percent sign and no
    separator is displayed under that very name: [decodeProjectName] is
    the identity on it. *)
Theorem decodeProjectName_plain encoded :
  encoded ≠ [] →
  Forall (λ c, c ≠ c_percent ∧ is_path_separator c = false) encoded →
  decodeURIComponent encoded = Normal encoded
  ∧ decodeProjectName encoded = Normal encoded.
Proof.
  intros Hne Hplain.
  assert (decodeURIComponent encoded = Normal encoded) as Hd.
  { apply decodeURIComponent_unescaped. eapply Forall_impl; [exact Hplain|]. by intros c [? _]. }
  split; [done|]. unfold decodeProjectName. rewrite Hd. cbn [cbind try_catch].
  assert (Forall (λ c, is_path_separator c = false) encoded) as Hfree.
  { eapply Forall_impl; [exact Hplain|]. by intros c [_ ?]. }
  unfold strip_leading, replace_runs.
  rewrite drop_while_free, replace_runs_from_free by done.
  by destruct encoded.
Qed.

(** X10.  The display name forgets which separator a project path was
    written with: two project directories whose names differ only in an
    escaped slash against an escaped backslash are different directories
    with the same display name, so that their sessions of the same file
    name are given the same copy and the same sidecar in the vault. *)
Theorem projects_share_a_display_name segs s t t' f base storage :
  Forall plain_name segs → plain_name f →
  Forall (λ c, c ≠ c_percent ∧ c ≠ Path.sep) s → Forall (λ c, c ≠ Path.sep) t →
  decodeURIComponent t = Normal t' →
  let p1 := absolute (segs ++ [s ++ js "%2F" ++ t; f]) in
  let p2 := absolute (segs ++ [s ++ js "%5C" ++ t; f]) in
  p1 ≠ p2
  ∧ ∃ pp1 pp2,
      parseClaudePath p1 = Normal pp1 ∧ parseClaudePath p2 = Normal pp2
      ∧ encodedProjectName pp1 = Some (s ++ js "%2F" ++ t)
      ∧ encodedProjectName pp2 = Some (s ++ js "%5C" ++ t)
      ∧ decodedProjectName pp1 = decodedProjectName pp2
      ∧ getTargetPaths base storage pp1 = getTargetPaths base storage pp2.
Proof.
  intros Hsegs Hf Hs Ht Hdec p1 p2.
  change (js "%2F" ++ t) with (c_percent :: 50 :: 70 :: t) in *.
  change (js "%5C" ++ t) with (c_percent :: 53 :: 67 :: t) in *.
  assert (Forall (λ c, c ≠ c_percent) s) as Hs1
    by (eapply Forall_impl; [exact Hs|]; by intros c [? _]).
  assert (Forall (λ c, c ≠ Path.sep) s) as Hs2
    by (eapply Forall_impl; [exact Hs|]; by intros c [_ ?]).
  assert (∀ h l, h ≠ Path.sep → l ≠ Path.sep → plain_name (s ++ c_percent :: h :: l :: t))
    as Hplain.
  { intros h l Hh Hl. split; [by destruct s|]. split; [|split].
    - intros E%(f_equal length). rewrite length_app in E. simpl in E. lia.
    - intros E%(f_equal length). rewrite length_app in E. simpl in E. lia.
    - apply Forall_app. split; [done|]. by repeat (apply Forall_cons_2; [done|]). }
  destruct (parseClaudePath_absolute segs (s ++ c_percent :: 50 :: 70 :: t) f)
    as (d1 & Hd1 & Hpp1); [done|by apply Hplain|done|].
  destruct (parseClaudePath_absolute segs (s ++ c_percent :: 53 :: 67 :: t) f)
    as (d2 & Hd2 & Hpp2); [done|by apply Hplain|done|].
  assert (d1 = d2) as <-.
  { unfold decodeProjectName in Hd1, Hd2.
    rewrite (decodeURIComponent_separator s _ _ c_slash t t') in Hd1 by done.
    rewrite (decodeURIComponent_separator s _ _ c_backslash t t') in Hd2 by done.
    cbn [cbind try_catch] in Hd1, Hd2.
    rewrite (cleaned_separator _ _ s c_slash c_backslash t') in Hd1 by done.
    congruence. }
  split.
  - intros E. subst p1 p2. rewrite E, Hpp2 in Hpp1.
    assert (Some (s ++ c_percent :: 53 :: 67 :: t) = Some (s ++ c_percent :: 50 :: 70 :: t))
      as E1 by congruence.
    apply (inj Some) in E1. apply app_inv_head in E1. done.
  - eexists _, _. split; [exact Hpp1|]. split; [exact Hpp2|]. by repeat split.
Qed.

(** *** Names that the sanitizer gives *)

Lemma single_spaced_spaces b y c :
  single_spaced b y → c ∈ y → is_space c = true → c = c_space.
Proof.
  revert b. induction y as [|d r IH]; intros b Hy Hc Hsp; [by apply elem_of_nil in Hc|].
  simpl in Hy. apply elem_of_cons in Hc as [->|Hc].
  - rewrite Hsp in Hy. by destruct Hy.
  - destruct (is_space d); [destruct Hy as (_ & _ & Hy)|]; by apply (IH _ Hy).
Qed.

Lemma single_spaced_adjacent b y i :
  single_spaced b y → y !! i = Some c_space → y !! S i ≠ Some c_space.
Proof.
  revert b i. induction y as [|d r IH]; intros b i Hy Hi; [done|].
  simpl in Hy. destruct i as [|i].
  - simpl in Hi. injection Hi as ->. change (is_space c_space) with true in Hy.
    destruct Hy as (_ & _ & Hr). destruct r as [|e r']; [done|]. simpl.
    intros [= ->]. simpl in Hr. change (is_space c_space) with true in Hr.
    by destruct Hr as (_ & ? & _).
  - simpl in Hi |- *. destruct (is_space d); [destruct Hy as (_ & _ & Hy)|]; by apply (IH _ _ Hy).
Qed.

Lemma replace_runs_from_length b s :
  (length (replace_runs_from is_space [c_space] b s) ≤ length s)%nat.
Proof.
  revert b. induction s as [|c r IH]; intros b; simpl; [done|].
  destruct (is_space c).
  - rewrite length_app. specialize (IH true). destruct b; simpl; lia.
  - simpl. specialize (IH false). lia.
Qed.

(** X11.  Whatever the name, the sanitized name has at most 255 code
    units and is not longer than the name; it holds none of the
    characters [< > : QUOTE | ? *]; its only whitespace is the plain
    space, never two in a row and never at the start.  The sanitizer
    changes nothing else: a name of at most 255 code units without such
    characters and without whitespace is returned as it is, a slash or a
    backslash in it included. *)
Theorem sanitizeFileName_safe name :
  let y := sanitizeFileName name in
  (length y ≤ 255)%nat
  ∧ (length y ≤ length name)%nat
  ∧ Forall (λ c, is_invalid_char c = false) y
  ∧ (∀ c, c ∈ y → is_space c = true → c = c_space)
  ∧ (∀ i, y !! i = Some c_space → y !! S i ≠ Some c_space)
  ∧ (∀ c, head y = Some c → is_space c = false)
  ∧ (Forall (λ c, is_invalid_char c = false ∧ is_space c = false) name →
     (length name ≤ 255)%nat → y = name).
Proof.
  intros y. destruct (sanitizeFileName_sanitized name) as [Hclean Hspaces Hhead Hlen].
  fold y in Hclean, Hspaces, Hhead, Hlen.
  split; [done|]. split; [|split; [done|split; [|split; [|split; [done|]]]]].
  - subst y. unfold sanitizeFileName, substring0, trim, trimStart.
    rewrite length_take.
    etrans; [apply Nat.le_min_r|]. etrans; [apply trimEnd_length|].
    etrans; [apply drop_while_length|]. unfold replace_runs.
    etrans; [apply replace_runs_from_length|]. unfold replace_each. by rewrite length_fmap.
  - intros c. by apply single_spaced_spaces with (b := false).
  - intros i. by apply single_spaced_adjacent with (b := false).
  - intros Hname Hl. subst y. unfold sanitizeFileName, substring0.
    assert (Forall (λ c, is_invalid_char c = false) name) as H1
      by (eapply Forall_impl; [exact Hname|]; by intros c [? _]).
    assert (Forall (λ c, is_space c = false) name) as H2
      by (eapply Forall_impl; [exact Hname|]; by intros c [_ ?]).
    rewrite replace_each_id by done. unfold replace_runs.
    rewrite replace_runs_from_free by done.
    unfold trim, trimStart. rewrite drop_while_free by done.
    rewrite trimEnd_id.
    + by apply take_ge.
    + intros c Hc%last_Some_elem_of. rewrite Forall_forall in H2. by apply H2.
Qed.

(** *** The home directory *)

Lemma normalize_absolute_head r : head (Path.normalize (Path.sep :: r)) = Some Path.sep.
Proof.
  unfold Path.normalize. rewrite N.eqb_refl.
  by destruct (Path.normalizeString _ _).
Qed.

Lemma join_paths_absolute_head h rest :
  head (Path.join_paths [Path.sep :: h; rest]) = Some Path.sep.
Proof.
  unfold Path.join_paths. rewrite filter_cons_True by done.
  destruct rest as [|c rest].
  - rewrite filter_cons_False, filter_nil by (intros H; by apply H).
    apply normalize_absolute_head.
  - rewrite filter_cons_True, filter_nil by done.
    apply normalize_absolute_head.
Qed.

(** X12.  With an absolute home directory: [expandHomePath] never throws
    and its result is empty only for the empty path; it returns as it is
    every path that is not a tilde alone or followed by a slash (a path
    such as [~user/x] included); the expansion of a tilde path is
    absolute, [~] alone gives the normalized home directory, and expanding
    twice is expanding once. *)
Theorem expandHomePath_absolute inputPath s :
  head (homedir s) = Some Path.sep →
  ∃ expanded,
    expandHomePath inputPath s = (Normal expanded, s)
    ∧ (expanded = [] ↔ inputPath = [])
    ∧ (inputPath = js "~" → expanded = Path.normalize (homedir s))
    ∧ (starts_with (js "~/") inputPath = true → head expanded = Some Path.sep)
    ∧ (starts_with (js "~/") inputPath = false → inputPath ≠ js "~" → expanded = inputPath)
    ∧ expandHomePath expanded s = (Normal expanded, s).
Proof.
  intros Hhome. destruct (homedir s) as [|c h] eqn:Eh; [done|]. injection Hhome as ->.
  unfold expandHomePath at 1. rewrite Eh.
  destruct (starts_with (js "~/") inputPath) eqn:Es; cbn [orb].
  - eexists. split; [done|].
    pose proof (join_paths_absolute_head h (drop 1 inputPath)) as Hhead.
    split; [|split; [|split; [done|split; [done|]]]].
    + split; [by intros E%join_paths_nonempty|]. intros ->. done.
    + intros ->. done.
    + unfold expandHomePath. destruct (Path.join_paths _) as [|d r]; [done|].
      injection Hhead as ->. done.
  - case_bool_decide as Ht.
    + subst inputPath. eexists. split; [done|].
      pose proof (join_paths_absolute_head h (drop 1 (js "~"))) as Hhead.
      split; [|split; [|split; [done|split; [done|]]]].
      * split; [by intros E%join_paths_nonempty|done].
      * intros _. unfold Path.join_paths. change (drop 1 (js "~")) with (@nil N).
        rewrite filter_cons_True by done.
        rewrite filter_cons_False, filter_nil by (intros H; by apply H). done.
      * unfold expandHomePath. destruct (Path.join_paths _) as [|d r]; [done|].
        injection Hhead as ->. done.
    + exists inputPath. split; [done|]. split; [done|]. split; [done|].
      split; [done|]. split; [done|].
      unfold expandHomePath. by rewrite Es, bool_decide_eq_false_2.
Qed.

(** *** The debounce, event by event *)

Lemma advance_to_debounce p d pending done_ t :
  debounce_invariant d → (now d ≤ t)%Z → debounce_state p d pending done_ →
  debounce_invariant (advance_to t d)
  ∧ now (advance_to t d) = t
  ∧ match pending with
    | None => debounce_state p (advance_to t d) None done_
    | Some tl =>
        if decide (tl + DEBOUNCE_MS ≤ t)%Z then
          pendingSyncs (advance_to t d) !! p = None
          ∧ executed_for p (advance_to t d)
            = (λ t, (t, p)) <$> (done_ ++ [(tl + DEBOUNCE_MS)%Z])
        else
          ∃ ps, pendingSyncs (advance_to t d) !! p = Some ps
                ∧ scheduledTime ps = (tl + DEBOUNCE_MS)%Z
                ∧ executed_for p (advance_to t d) = (λ t, (t, p)) <$> done_
    end.
Proof.
  intros Hinv Hnow Hs.
  destruct (advance_to_spec t d p Hinv) as (Hinv' & Hn & Hp).
  split; [done|]. split; [lia|].
  destruct pending as [tl|]; cbn [debounce_state] in Hs.
  - destruct Hs as [(ps & Eq & Hsched & He)|(Eq & Hle & He)]; rewrite Eq in Hp.
    + rewrite Hsched in Hp. destruct (decide (tl + DEBOUNCE_MS ≤ t)%Z); destruct Hp as [Hp1 Hp2].
      * split; [done|]. by rewrite Hp2, He, fmap_app.
      * exists ps. by rewrite Hp2.
    + destruct Hp as [Hp1 Hp2]. rewrite decide_True by lia. by rewrite Hp2.
  - destruct Hs as [Eq He]. rewrite Eq in Hp. destruct Hp as [Hp1 Hp2].
    split; [done|]. by rewrite Hp2.
Qed.

Lemma run_file_events_debounced p events d pending done_ t0 horizon :
  debounce_invariant d → (now d ≤ t0)%Z → chronological t0 events →
  Forall (λ ev, (ev.1 ≤ horizon)%Z) events → (t0 ≤ horizon)%Z →
  debounce_state p d pending done_ →
  executed_for p (advance_to horizon (run_file_events events d))
  = (λ t, (t, p)) <$> (done_ ++ debounced p pending events horizon).
Proof.
  revert d pending done_ t0.
  induction events as [|[t q] rest IH]; intros d pending done_ t0 Hinv Hnow Hc Hh Ht0 Hs.
  { cbn [run_file_events foldl debounced].
    destruct (advance_to_debounce p d pending done_ horizon) as (_ & _ & H); [done|lia|done|].
    destruct pending as [tl|].
    - destruct (decide (tl + DEBOUNCE_MS ≤ horizon)%Z).
      + by destruct H as [_ ->].
      + destruct H as (ps & _ & _ & ->). by rewrite app_nil_r.
    - destruct H as [_ ->]. by rewrite app_nil_r. }
  cbn [chronological fst snd] in Hc. destruct Hc as [Ht Hc].
  apply Forall_cons in Hh as [Hth Hh]. cbn [fst] in Hth.
  change (run_file_events ((t, q) :: rest) d)
    with (run_file_events rest (file_event d (t, q))).
  destruct (advance_to_debounce p d pending done_ t) as (Hinv1 & Hn1 & H1); [done|lia|done|].
  unfold file_event. cbn [fst snd].
  destruct (schedule_spec q (advance_to t d) Hinv1) as (Hinv2 & Hn2 & He2 & Hq & Hother & _).
  set (d2 := scheduleSyncWithDebounce q (advance_to t d)) in *.
  assert (∀ done', executed_for p (advance_to t d) = (λ t, (t, p)) <$> done' →
            q = p → debounce_state p d2 (Some t) done') as Hnew.
  { intros done' He ->. left. eexists. split; [exact Hq|]. split; [simpl; lia|].
    unfold executed_for in *. by rewrite He2. }
  cbn [debounced snd fst]. destruct (decide (q = p)) as [->|Hne].
  - destruct pending as [tl|].
    + destruct (decide (tl + DEBOUNCE_MS ≤ t)%Z).
      * destruct H1 as [_ He].
        rewrite (IH d2 (Some t) (done_ ++ [(tl + DEBOUNCE_MS)%Z]) t); [|done|lia|done..|by apply Hnew].
        by rewrite <- app_assoc.
      * destruct H1 as (ps & _ & _ & He).
        by rewrite (IH d2 (Some t) done_ t); [|done|lia|done..|by apply Hnew].
    + destruct H1 as [_ He].
      by rewrite (IH d2 (Some t) done_ t); [|done|lia|done..|by apply Hnew].
  - apply (IH d2 pending done_ t); [done|lia|done..|].
    unfold debounce_state, executed_for in *. rewrite He2, Hn2, Hother, Hn1 by done.
    destruct pending as [tl|]; [|done].
    destruct (decide (tl + DEBOUNCE_MS ≤ t)%Z).
    + right. destruct H1 as [H1 H2]. by repeat split.
    + left. done.
Qed.

Lemma run_file_events_invariant events d :
  debounce_invariant d → debounce_invariant (run_file_events events d).
Proof.
  revert d. induction events as [|ev events IH]; intros d Hd; [done|].
  apply IH. unfold file_event. apply schedule_spec. by apply (advance_to_spec ev.1 d ev.2).
Qed.

(** X13.  The debounce lets a sync of a path through exactly one second
    after every event of that path that is not followed, within less than
    a second, by another event of the same path, and at no other time: the
    calls of [executeSync] for the path are those, in order, whatever the
    events of the other paths.  (A timer that is due when an event comes
    has fired before the event is handled.) *)
Theorem debounce_lets_through p events horizon :
  chronological 0 events →
  Forall (λ ev, (ev.1 ≤ horizon)%Z) events →
  (0 ≤ horizon)%Z →
  executed_for p (advance_to horizon (run_file_events events new_debouncer))
  = (λ t, (t, p)) <$> debounced p None events horizon.
Proof.
  intros Hc Hh H0.
  rewrite (run_file_events_debounced p events new_debouncer None [] 0 horizon);
    [done|apply new_debouncer_invariant|done..].
Qed.

(** *** Stopping the watcher *)

Lemma clear_all_timers (l : list PendingSync) (ts : list Timer) :
  foldr (λ pending ts, clearTimeout (timeoutId pending) ts) ts l
  = filter (λ tm, t_id tm ∉ timeoutId <$> l) ts.
Proof.
  induction l as [|ps l IH]; simpl.
  { symmetry. apply filter_all. intros tm _. apply not_elem_of_nil. }
  rewrite IH. unfold clearTimeout. rewrite list_filter_filter.
  apply list_filter_iff. intros tm. rewrite not_elem_of_cons. tauto.
Qed.

(** X14.  [stopWatching] cancels every pending sync: after it no watcher
    is open, no sync is pending and no timer of the debounce is armed, so
    that no sync is executed any more however much time passes; the syncs
    executed before are not forgotten. *)
Theorem stopWatching_cancels_pending_syncs events t0 open :
  let d := advance_to t0 (run_file_events events new_debouncer) in
  let w := stopWatching {| watcher := open; debouncer := d |} in
  watcher w = false
  ∧ pendingSyncs (debouncer w) = ∅
  ∧ timers (debouncer w) = []
  ∧ ∀ t, executed (advance_to t (debouncer w)) = executed d.
Proof.
  intros d w.
  assert (debounce_invariant d) as Hinv.
  { apply (advance_to_spec t0 _ []), run_file_events_invariant, new_debouncer_invariant. }
  assert (timers (debouncer w) = []) as Ht.
  { subst w. cbn [stopWatching debouncer timers]. rewrite clear_all_timers.
    apply filter_nil_iff. intros tm Htm Hid. apply Hid.
    pose proof (inv_timers d Hinv tm Htm) as Hp.
    apply elem_of_map_to_list in Hp.
    apply list_elem_of_fmap. exists (pending_of tm). split; [done|].
    apply list_elem_of_fmap. by exists (t_path tm, pending_of tm). }
  split; [done|]. split; [done|]. split; [done|].
  intros t. unfold advance_to. rewrite Ht. done.
Qed.

(** *** The effect of a sync *)

Section Sync_effect.
Context `{!JSON}.

(** The last part of a sync, when it goes through: what it calls, reads
    and writes. *)
Lemma sync_copy_effect p pp tp messages s r s' :
  sync_copy p pp tp messages s = (Normal r, s') →
  ∃ f md s1,
    files s !! p = Some f
    ∧ generateMetadata messages p pp s = (Normal md, s1)
    ∧ let copy := Unicode.string_to_utf8 (Unicode.utf8_to_string (content f)) in
      let side := Unicode.string_to_utf8 (JSON_stringify_metadata md) in
      let written := inject_Z (clock s (reads s1)) in
      files s'
      = <[metaFile tp := {| content := side; mtimeMs := written |}]>
          (<[jsonlFile tp := {| content := copy; mtimeMs := written |}]> (files s))
      ∧ trace s'
        = trace s ++ [Mkdir (projectDir tp); ReadFile p; WriteFile (jsonlFile tp) copy;
                      WriteFile (metaFile tp) side; SaveData (settings s')]
      ∧ settings s' = set_lastSyncTime (clock s (reads s1)) (settings s)
      ∧ saved s' = Some (settings s')
      ∧ reads s' = S (reads s1)
      ∧ syncInProgress s' = syncInProgress s
      ∧ faults s' = faults s
      ∧ vaultBasePath s' = vaultBasePath s.
Proof.
  unfold sync_copy, mbind, M_bind, mret, M_ret.
  rewrite generateMetadata_unfold.
  unfold ensureDirectory, fs_mkdir, fs_readFile, fs_writeFile, saveSettings,
    Date_now, try_catchM, host_call, throw, mret, M_ret.
  intros Hrun. repeat (case_match; simplify_eq/=).
  all: eexists _, _, _; split; [done|]; split; [done|]; simpl.
  all: rewrite <- ?app_assoc; simpl; done.
Qed.

End Sync_effect.

Section Sync_effect_whole.
Context `{!JSON}.

Lemma generateMetadata_frame messages src pp s s0 :
  clock s0 = clock s → reads s0 = reads s →
  (generateMetadata messages src pp s0).1 = (generateMetadata messages src pp s).1
  ∧ reads (generateMetadata messages src pp s0).2 = reads (generateMetadata messages src pp s).2.
Proof.
  intros Hc Hr. rewrite !generateMetadata_unfold. cbv zeta. rewrite Hc, Hr.
  by destruct (omap timestamp messages).
Qed.

(** A sync that reports [updated], in full. *)
Lemma syncSingleFile_updated_run p s r :
  (syncSingleFile p s).1 = Normal r → action r = updated →
  let s' := (syncSingleFile p s).2 in
  ∃ f pp tp md t,
    files s !! p = Some f
    ∧ parseClaudePath p = Normal pp
    ∧ getTargetPaths (vaultBasePath s) (obsidianStoragePath (settings s)) pp = Normal tp
    ∧ r = synced pp tp
    ∧ let messages :=
        parse_lines (readline_lines (Unicode.utf8_to_string (content f))) in
      let copy := Unicode.string_to_utf8 (Unicode.utf8_to_string (content f)) in
      let side := Unicode.string_to_utf8 (JSON_stringify_metadata md) in
      let written := inject_Z (lastSyncTime (settings s')) in
      messages ≠ []
      ∧ (generateMetadata messages p pp s).1 = Normal md
      ∧ files s'
        = <[metaFile tp := {| content := side; mtimeMs := written |}]>
            (<[jsonlFile tp := {| content := copy; mtimeMs := written |}]> (files s))
      ∧ Forall (λ c, c = Access (metaFile tp) ∨ c = ReadFile (metaFile tp) ∨ c = Stat p) t
      ∧ trace s'
        = trace s ++ t
          ++ [CreateReadStream p; Mkdir (projectDir tp); ReadFile p;
              WriteFile (jsonlFile tp) copy; WriteFile (metaFile tp) side;
              SaveData (settings s')]
      ∧ settings s' = set_lastSyncTime (lastSyncTime (settings s')) (settings s)
      ∧ saved s' = Some (settings s')
      ∧ syncInProgress s' = syncInProgress s
      ∧ faults s' = faults s
      ∧ vaultBasePath s' = vaultBasePath s
      ∧ faults s (CreateReadStream p) = None.
Proof.
  rewrite syncSingleFile_unfold. case_bool_decide as Hp; [by intros [= <-]|].
  rewrite sync_try_unfold.
  destruct (parseClaudePath p) as [pp|] eqn:Epp; [|by intros [= <-]].
  simpl. destruct (getTargetPaths _ _ _) as [tp|] eqn:Etp; [|by intros [= <-]].
  destruct (shouldSync_returns p (metaFile tp) (mark p s)) as (b & t & -> & Ht).
  destruct b; [|by intros [= <-]].
  rewrite parseJsonlFile_unfold. simpl.
  destruct (faults s (CreateReadStream p)) eqn:Estream; [by intros [= <-]|].
  destruct (files s !! p) as [f0|] eqn:Ef0; [|by intros [= <-]].
  destruct (parse_lines _) as [|m ms] eqn:Em; [by intros [= <-]|].
  destruct (sync_copy _ _ _ _ _) as [[r1|e1] s1] eqn:Ec; [|by intros [= <-]].
  intros [= <-] _.
  pose proof (sync_copy_result _ _ _ _ _ _ _ Ec) as ->.
  apply sync_copy_effect in Ec
    as (f & md & s2 & Ef & Emd & Hfiles & Htrace & Hset & Hsaved & Hreads & Hsip & Hfaults
        & Hvault).
  simpl in Ef. rewrite Ef0 in Ef. injection Ef as <-.
  cbn [clock files trace settings set_trace mark set_syncInProgress]
    in Hfiles, Htrace, Hset.
  match type of Emd with generateMetadata _ _ _ ?s0 = _ =>
    destruct (generateMetadata_frame (m :: ms) p pp s s0) as [Hmd Hr]; [done..|]
  end.
  rewrite Emd in Hmd, Hr. cbn [fst snd] in Hmd, Hr.
  exists f0, pp, tp, md, t. split; [done|]. split; [done|]. split; [done|]. split; [done|].
  cbv zeta. cbn [snd unmark files set_syncInProgress settings saved trace syncInProgress
                 faults vaultBasePath].
  rewrite Em. split; [done|]. split; [done|].
  assert (lastSyncTime (settings s1) = clock s (reads s2)) as Hlast by (by rewrite Hset).
  rewrite Hlast. split; [exact Hfiles|]. split; [done|].
  split; [by rewrite Htrace, <- !app_assoc|]. split; [done|]. split; [done|].
  split; [|done]. rewrite Hsip. cbn [syncInProgress set_trace mark set_syncInProgress].
  set_solver.
Qed.


(** X15.  A sync that reports [updated] has done the following, in this
    order and nothing else: checked the sidecar, read the lines of the
    source, created the project folder, read the source, written the copy,
    written the sidecar and saved the settings.  The source held at least
    one entry; the copy holds the text of the source; the sidecar holds
    the metadata of the entries, serialized; every other file is as it
    was; the time of the last sync is set and saved with the settings. *)
Theorem syncSingleFile_updated_effect p s r :
  (syncSingleFile p s).1 = Normal r → action r = updated →
  let s' := (syncSingleFile p s).2 in
  ∃ f pp tp md t,
    files s !! p = Some f
    ∧ parseClaudePath p = Normal pp
    ∧ getTargetPaths (vaultBasePath s) (obsidianStoragePath (settings s)) pp = Normal tp
    ∧ r = synced pp tp
    ∧ let messages :=
        parse_lines (readline_lines (Unicode.utf8_to_string (content f))) in
      let copy := Unicode.string_to_utf8 (Unicode.utf8_to_string (content f)) in
      let side := Unicode.string_to_utf8 (JSON_stringify_metadata md) in
      let written := inject_Z (lastSyncTime (settings s')) in
      messages ≠ []
      ∧ (generateMetadata messages p pp s).1 = Normal md
      ∧ files s'
        = <[metaFile tp := {| content := side; mtimeMs := written |}]>
            (<[jsonlFile tp := {| content := copy; mtimeMs := written |}]> (files s))
      ∧ Forall (λ c, c = Access (metaFile tp) ∨ c = ReadFile (metaFile tp) ∨ c = Stat p) t
      ∧ trace s'
        = trace s ++ t
          ++ [CreateReadStream p; Mkdir (projectDir tp); ReadFile p;
              WriteFile (jsonlFile tp) copy; WriteFile (metaFile tp) side;
              SaveData (settings s')]
      ∧ settings s' = set_lastSyncTime (lastSyncTime (settings s')) (settings s)
      ∧ saved s' = Some (settings s').
Proof.
  intros Hrun Hact s'.
  destruct (syncSingleFile_updated_run p s r Hrun Hact)
    as (f & pp & tp & md & t & Hf & Hpp & Htp & Hr & Hm & Hmd & Hfiles & Ht & Htrace
        & Hset & Hsaved & _).
  by exists f, pp, tp, md, t.
Qed.

(** X16.  Syncing twice is syncing once.  After a sync that copied a
    source lying outside its own destination, a second sync of the
    unchanged source is skipped as [Already up to date] and only looks at
    the sidecar and at the source's modification time, provided that the
    sidecar just written reads back with a [syncedAt] that is not before
    the last modification of the source (the source was not modified in
    the future of the clock), and that the sidecar and the source can be
    accessed. *)
Theorem resync_is_skipped p s r f pp tp md prior :
  (syncSingleFile p s).1 = Normal r → action r = updated →
  files s !! p = Some f →
  parseClaudePath p = Normal pp →
  getTargetPaths (vaultBasePath s) (obsidianStoragePath (settings s)) pp = Normal tp →
  p ≠ jsonlFile tp → p ≠ metaFile tp →
  faults s (Access (metaFile tp)) = None →
  faults s (ReadFile (metaFile tp)) = None →
  faults s (Stat p) = None →
  (generateMetadata (parse_lines (readline_lines (Unicode.utf8_to_string (content f))))
     p pp s).1 = Normal md →
  JSON_parse_metadata
    (Unicode.utf8_to_string (Unicode.string_to_utf8 (JSON_stringify_metadata md)))
    = Normal prior →
  (mtimeMs f <= syncedAt prior)%Q →
  let s' := (syncSingleFile p s).2 in
  (syncSingleFile p s').1 = Normal (skipped_up_to_date pp)
  ∧ files (syncSingleFile p s').2 = files s'
  ∧ trace (syncSingleFile p s').2
    = trace s' ++ [Access (metaFile tp); ReadFile (metaFile tp); Stat p].
Proof.
  intros Hrun Hact Hf Hpp Htp Hne1 Hne2 Ha Hr Hst Hmd Hprior Hle s'.
  assert (p ∉ syncInProgress s) as Hp.
  { intros Hin. rewrite syncSingleFile_unfold, bool_decide_eq_true_2 in Hrun by done.
    simpl in Hrun. by injection Hrun as <-. }
  destruct (syncSingleFile_updated_run p s r Hrun Hact)
    as (f' & pp' & tp' & md' & t & Hf' & Hpp' & Htp' & _ & _ & Hmd' & Hfiles & _ & _
        & Hset & _ & Hsip & Hfaults & Hvault & _).
  fold s' in Hfiles, Hset, Hsip, Hfaults, Hvault.
  assert (f' = f) as -> by congruence. assert (pp' = pp) as -> by congruence.
  assert (tp' = tp) as -> by congruence. assert (md' = md) as -> by congruence.
  clearbody s'.
  rewrite syncSingleFile_unfold, bool_decide_eq_false_2 by (by rewrite Hsip).
  rewrite sync_try_unfold, Hpp.
  cbn [vaultBasePath settings mark set_syncInProgress].
  rewrite Hvault, Hset. cbn [obsidianStoragePath set_lastSyncTime]. rewrite Htp.
  rewrite shouldSync_unfold. cbn [faults files trace mark set_syncInProgress].
  rewrite Hfaults, Ha, Hr, Hst, Hfiles.
  rewrite lookup_insert_eq. cbn [content]. rewrite Hprior.
  rewrite !lookup_insert_ne, Hf by done.
  rewrite (proj2 (Qgtb_false _ _) Hle).
  cbn [fst snd unmark mark set_trace files trace set_syncInProgress].
  by rewrite Hfiles.
Qed.

(** X29.  And a source that is newer than its sidecar is synced again:
    under the same conditions, when the sidecar just written reads back
    with a [syncedAt] that is before the modification time of the source
    (a source modified in the future of the clock), the second sync is
    not skipped: it copies the source again, or reports an error. *)
Theorem resync_repeats_for_newer_source p s r f pp tp md prior :
  (syncSingleFile p s).1 = Normal r → action r = updated →
  files s !! p = Some f →
  parseClaudePath p = Normal pp →
  getTargetPaths (vaultBasePath s) (obsidianStoragePath (settings s)) pp = Normal tp →
  p ≠ jsonlFile tp → p ≠ metaFile tp →
  faults s (Access (metaFile tp)) = None →
  faults s (ReadFile (metaFile tp)) = None →
  faults s (Stat p) = None →
  (generateMetadata (parse_lines (readline_lines (Unicode.utf8_to_string (content f))))
     p pp s).1 = Normal md →
  JSON_parse_metadata
    (Unicode.utf8_to_string (Unicode.string_to_utf8 (JSON_stringify_metadata md)))
    = Normal prior →
  (syncedAt prior < mtimeMs f)%Q →
  let s' := (syncSingleFile p s).2 in
  ∃ r2, (syncSingleFile p s').1 = Normal r2
        ∧ (action r2 = updated ∨ action r2 = error).
Proof.
  intros Hrun Hact Hf Hpp Htp Hne1 Hne2 Ha Hr Hst Hmd Hprior Hlt s'.
  assert (p ∉ syncInProgress s) as Hp.
  { intros Hin. rewrite syncSingleFile_unfold, bool_decide_eq_true_2 in Hrun by done.
    simpl in Hrun. by injection Hrun as <-. }
  destruct (syncSingleFile_updated_run p s r Hrun Hact)
    as (f' & pp' & tp' & md' & t & Hf' & Hpp' & Htp' & _ & Hm & Hmd' & Hfiles & _ & _
        & Hset & _ & Hsip & Hfaults & Hvault & Hstream).
  fold s' in Hfiles, Hset, Hsip, Hfaults, Hvault.
  assert (f' = f) as -> by congruence. assert (pp' = pp) as -> by congruence.
  assert (tp' = tp) as -> by congruence. assert (md' = md) as -> by congruence.
  clearbody s'.
  rewrite syncSingleFile_unfold, bool_decide_eq_false_2 by (by rewrite Hsip).
  rewrite sync_try_unfold, Hpp.
  cbn [vaultBasePath settings mark set_syncInProgress].
  rewrite Hvault, Hset. cbn [obsidianStoragePath set_lastSyncTime]. rewrite Htp.
  rewrite shouldSync_unfold. cbn [faults files trace mark set_syncInProgress].
  rewrite Hfaults, Ha, Hr, Hst, Hfiles.
  rewrite lookup_insert_eq. cbn [content]. rewrite Hprior.
  rewrite !lookup_insert_ne, Hf by done.
  rewrite (proj2 (Qgtb_true _ _) Hlt).
  rewrite parseJsonlFile_unfold. cbn [faults files trace set_trace mark set_syncInProgress].
  rewrite Hfaults, Hstream, Hfiles. rewrite !lookup_insert_ne, Hf by done.
  destruct (parse_lines _) as [|m ms] eqn:Em; [done|].
  destruct (sync_copy _ _ _ _ _) as [[r1|e1] s1] eqn:Ec.
  - pose proof (sync_copy_result _ _ _ _ _ _ _ Ec) as ->.
    eexists. split; [done|]. left. simpl.
    by rewrite (getTargetPaths_jsonlFile_truthy _ _ _ _ Htp).
  - eexists. split; [done|]. by right.
Qed.

End Sync_effect_whole.

(** *** The connection test *)

Lemma set_trace_set_trace t1 t2 s : set_trace t2 (set_trace t1 s) = set_trace t2 s.
Proof. done. Qed.

Lemma jsonl_files_of_set_trace t s : jsonl_files_of (set_trace t s) = jsonl_files_of s.
Proof. done. Qed.

Lemma count_entries_spec projectsPath entries counts s :
  count_entries projectsPath entries counts s
  = (Normal ((counts.1 + length (filter (λ entry, entry.2 = true) entries))%nat,
             (counts.2 + length (entries ≫= jsonl_files_of s projectsPath))%nat),
     set_trace (trace s ++ (Readdir <$> project_dirs projectsPath entries)) s).
Proof.
  revert counts s. induction entries as [|[name isDirectory] rest IH]; intros [n m] s.
  { simpl. rewrite !Nat.add_0_r, app_nil_r. by destruct s. }
  cbn [count_entries]. unfold mbind at 1, M_bind at 1.
  unfold project_dirs. rewrite !filter_cons, bind_cons. unfold jsonl_files_of at 1.
  cbn [fst snd]. destruct isDirectory.
  - rewrite !decide_True by done. rewrite fmap_cons. cbn [fst length].
    unfold try_catchM, fs_readdir, host_call, listing, mbind, M_bind, mret, M_ret.
    destruct (faults s (Readdir _)) eqn:Ef; cbn [set_trace dirs faults].
    + rewrite IH, jsonl_files_of_set_trace, set_trace_set_trace.
      cbn [trace set_trace fst snd length app]. rewrite <- app_assoc.
      f_equal. do 2 f_equal; first [lia | by rewrite ?Nat.add_assoc].
    + destruct (dirs s !! _) eqn:Ed.
      * rewrite IH, jsonl_files_of_set_trace, set_trace_set_trace.
        cbn [trace set_trace fst snd]. rewrite <- !app_assoc, length_app, length_fmap.
        f_equal. do 2 f_equal; first [lia | by rewrite ?Nat.add_assoc].
      * rewrite IH, jsonl_files_of_set_trace, set_trace_set_trace.
        cbn [trace set_trace fst snd length app]. rewrite <- app_assoc.
        f_equal. do 2 f_equal; first [lia | by rewrite ?Nat.add_assoc].
  - rewrite !decide_False by done. unfold mret, M_ret. rewrite IH. done.
Qed.

(** X17.  The counts of the connection test are those of the search of
    the bulk sync: the number of sessions is the number of files that
    [findAllJsonlFiles] finds in the same directory, and the number of
    projects is the number of subdirectories, those that cannot be listed
    or hold no session included.  Where the search throws because the
    directory cannot be listed, the counts are zero.  Counting never
    throws. *)
Theorem countProjectsAndSessions_agrees_with_search projectsPath s :
  match listing s projectsPath with
  | Some entries =>
      ∃ found,
        (findAllJsonlFiles projectsPath s).1 = Normal found
        ∧ (countProjectsAndSessions projectsPath s).1
          = Normal (length (filter (λ entry, entry.2 = true) entries), length found)
  | None =>
      (∃ e, (findAllJsonlFiles projectsPath s).1 = Throw e)
      ∧ (countProjectsAndSessions projectsPath s).1 = Normal (0%nat, 0%nat)
  end
  ∧ (countProjectsAndSessions projectsPath s).2 = (findAllJsonlFiles projectsPath s).2.
Proof.
  pose proof (findAllJsonlFiles_unfold projectsPath s) as Hfind.
  unfold countProjectsAndSessions, try_catchM, fs_readdir, host_call, mbind, M_bind, mret, M_ret.
  unfold listing in *.
  destruct (faults s (Readdir projectsPath)) as [code|] eqn:Ef.
  { destruct Hfind as (e & -> & _). split; [|done]. split; [by exists e|done]. }
  destruct (dirs s !! projectsPath) as [entries|] eqn:Ed; cbn [dirs set_trace].
  - rewrite Ed, count_entries_spec, Hfind. cbn [fst snd trace set_trace].
    split; [by eexists|]. unfold set_trace. cbn. by rewrite <- app_assoc.
  - rewrite Ed. destruct Hfind as (e & -> & _). split; [|done]. split; [by exists e|done].
Qed.

Lemma countProjectsAndSessions_result projectsPath s :
  ∃ t, countProjectsAndSessions projectsPath s
       = (Normal match listing s projectsPath with
                 | Some entries =>
                     (length (filter (λ entry, entry.2 = true) entries),
                      length (entries ≫= jsonl_files_of s projectsPath))
                 | None => (0%nat, 0%nat)
                 end,
          set_trace (trace s ++ t) s).
Proof.
  unfold countProjectsAndSessions, try_catchM, fs_readdir, host_call, mbind, M_bind, mret, M_ret.
  unfold listing.
  destruct (faults s (Readdir projectsPath)) as [code|] eqn:Ef; [by eexists|].
  destruct (dirs s !! projectsPath) as [entries|] eqn:Ed; cbn [dirs set_trace].
  - rewrite Ed, count_entries_spec, jsonl_files_of_set_trace, set_trace_set_trace.
    cbn [fst snd trace set_trace]. eexists. by rewrite <- app_assoc.
  - rewrite Ed. by eexists.
Qed.

(** The connection test, case by case. *)
Lemma validateClaudePath_unfold inputPath s expanded :
  (expandHomePath (trim inputPath) s).1 = Normal expanded →
  validateClaudePath inputPath s =
    if bool_decide (trim inputPath = []) then
      (Normal (invalid (js "Path cannot be empty")), s)
    else
      let s1 := set_trace (trace s ++ [Stat expanded]) s in
      let s2 := set_trace (trace s ++ [Stat expanded; Access expanded]) s in
      match faults s (Stat expanded) with
      | Some code =>
          (Normal (invalid (if bool_decide (code = ENOENT) then js "Path does not exist"
                            else getErrorMessage (SystemError code []))), s1)
      | None =>
          match dirs s !! expanded, files s !! expanded with
          | None, None => (Normal (invalid (js "Path does not exist")), s1)
          | None, Some _ => (Normal (invalid (js "Path is not a directory")), s1)
          | Some _, _ =>
              match faults s (Access expanded) with
              | Some _ =>
                  (Normal (invalid (js "Directory is not readable (permission denied)")), s2)
              | None =>
                  let '(c, s3) := countProjectsAndSessions expanded s2 in
                  (Normal {| valid := true;
                             v_message := js "Connection successful";
                             projectCount := Some (default (0%nat, 0%nat)
                                                     match c with Normal x => Some x
                                                                | Throw _ => None end).1;
                             sessionCount := Some (default (0%nat, 0%nat)
                                                     match c with Normal x => Some x
                                                                | Throw _ => None end).2 |},
                   s3)
              end
          end
      end.
Proof.
  intros Hexp. unfold validateClaudePath.
  destruct (expandHomePath_returns (trim inputPath) s) as [x E].
  rewrite E in Hexp. simpl in Hexp. injection Hexp as ->.
  assert (negb (truthy inputPath) || bool_decide (trim inputPath = [])
          = bool_decide (trim inputPath = [])) as ->.
  { destruct inputPath; [|done]. by rewrite bool_decide_eq_true_2. }
  case_bool_decide as Ht; [done|].
  unfold try_catchM, mbind, M_bind, mret, M_ret. rewrite E.
  unfold fs_stat_isDirectory, fs_access_entry, host_call.
  destruct (faults s (Stat expanded)) as [code|] eqn:Es.
  { cbn [error_code]. case_bool_decide as Hc; case_bool_decide as Hc'; try done.
    - by destruct Hc'; injection Hc.
    - by subst code. }
  cbn [dirs files faults set_trace trace].
  destruct (dirs s !! expanded) as [entries|] eqn:Ed.
  - cbn [negb]. cbv beta. cbn [faults dirs files trace set_trace].
    rewrite <- app_assoc. cbn [app].
    destruct (faults s (Access expanded)) as [code|] eqn:Ea; [done|].
    rewrite Ed. cbn [negb]. cbv beta.
    destruct (countProjectsAndSessions_result expanded
                (set_trace (trace s ++ [Stat expanded; Access expanded]) s)) as [t Hc].
    rewrite set_trace_set_trace, Hc. done.
  - destruct (files s !! expanded); [done|].
    cbn [error_code enoent]. by rewrite bool_decide_eq_true_2.
Qed.

(** X18.  The connection test never throws and changes no file.  A blank
    path is refused without any call.  Otherwise the path is trimmed and
    expanded, and the verdict is [valid] exactly when the path can be
    stat'ed, is a directory and can be accessed; the counts are then
    those of [countProjectsAndSessions], a directory that cannot be listed
    counting for zero projects and zero sessions.  Each refusal has its
    message, and a refusal carries no count. *)
Theorem validateClaudePath_verdict inputPath s :
  (trim inputPath = [] →
     validateClaudePath inputPath s = (Normal (invalid (js "Path cannot be empty")), s))
  ∧ ∀ expanded,
      trim inputPath ≠ [] →
      (expandHomePath (trim inputPath) s).1 = Normal expanded →
      ∃ r,
        (validateClaudePath inputPath s).1 = Normal r
        ∧ files (validateClaudePath inputPath s).2 = files s
        ∧ (valid r = true ↔
             faults s (Stat expanded) = None
             ∧ is_Some (dirs s !! expanded)
             ∧ faults s (Access expanded) = None)
        ∧ (valid r = true →
             ∃ counts,
               (countProjectsAndSessions expanded s).1 = Normal counts
               ∧ r = {| valid := true; v_message := js "Connection successful";
                        projectCount := Some counts.1; sessionCount := Some counts.2 |})
        ∧ (valid r = false →
             r = invalid (v_message r)
             ∧ match faults s (Stat expanded) with
               | Some code =>
                   v_message r
                   = if bool_decide (code = ENOENT) then js "Path does not exist"
                     else getErrorMessage (SystemError code [])
               | None =>
                   match dirs s !! expanded, files s !! expanded with
                   | None, None => v_message r = js "Path does not exist"
                   | None, Some _ => v_message r = js "Path is not a directory"
                   | Some _, _ =>
                       v_message r = js "Directory is not readable (permission denied)"
                   end
               end).
Proof.
  split.
  { intros Ht. destruct (expandHomePath_returns (trim inputPath) s) as [x E].
    rewrite (validateClaudePath_unfold inputPath s x) by (by rewrite E).
    by rewrite bool_decide_eq_true_2. }
  intros expanded Ht Hexp. rewrite (validateClaudePath_unfold inputPath s expanded Hexp).
  rewrite bool_decide_eq_false_2 by done. cbv zeta.
  destruct (faults s (Stat expanded)) as [code|] eqn:Es.
  { eexists. split; [done|]. split; [done|]. split; [by split; [|intros []]|].
    split; [done|]. done. }
  destruct (dirs s !! expanded) as [entries|] eqn:Ed.
  - destruct (faults s (Access expanded)) as [code|] eqn:Ea.
    { eexists. split; [done|]. split; [done|]. split; [by split; [|intros (_ & _ & ?)]|].
      split; [done|]. done. }
    destruct (countProjectsAndSessions_result expanded
                (set_trace (trace s ++ [Stat expanded; Access expanded]) s)) as [t Hc].
    destruct (countProjectsAndSessions_result expanded s) as [t' Hc'].
    rewrite Hc. cbn [default from_option id fst snd files set_trace].
    eexists. split; [done|]. split; [done|]. split; [|split; [|done]].
    + split; [|done]. intros _. by repeat split.
    + intros _. eexists. rewrite Hc'. split; [done|]. done.
  - destruct (files s !! expanded).
    + eexists. split; [done|]. split; [done|].
      split; [by split; [|intros (_ & [? [=]] & _)]|]. split; [done|]. done.
    + eexists. split; [done|]. split; [done|].
      split; [by split; [|intros (_ & [? [=]] & _)]|]. split; [done|]. done.
Qed.

Lemma expandHomePath_no_tilde inputPath s :
  head inputPath ≠ Some 126 → expandHomePath inputPath s = (Normal inputPath, s).
Proof.
  intros Hh. unfold expandHomePath.
  destruct inputPath as [|c r]; [done|].
  assert (c ≠ 126) as Hc by (by intros ->).
  replace (starts_with (js "~/") (c :: r)) with false.
  - rewrite bool_decide_eq_false_2; [done|]. intros [= ? ?]. done.
  - change (js "~/") with (126 :: js "/"). unfold starts_with. cbn [is_prefix].
    by rewrite (proj2 (N.eqb_neq 126 c)) by congruence.
Qed.

Lemma getErrorMessage_ENOENT e :
  error_code e = Some ENOENT → getErrorMessage e = js "File or directory not found".
Proof. unfold getErrorMessage. by intros ->. Qed.

Section Test_and_sync.
Context `{!JSON}.

(** X19.  The connection test trims the path; the bulk sync does not.
    With a path in the settings that names a directory only once the
    whitespace around it is removed, the test reports a valid connection
    and the bulk sync reports [File or directory not found] and syncs
    nothing. *)
Theorem test_passes_where_sync_fails s :
  let path := claudeProjectsPath (settings s) in
  trim path ≠ [] → head path ≠ Some 126 → head (trim path) ≠ Some 126 →
  (∀ call, faults s call = None) →
  is_Some (dirs s !! trim path) →
  dirs s !! path = None →
  (∃ r, (validateClaudePath path s).1 = Normal r ∧ valid r = true)
  ∧ (syncAllExisting s).1 = Normal []
  ∧ notices (syncAllExisting s).2
    = notices s ++ [js "Sync error: File or directory not found"]
  ∧ files (syncAllExisting s).2 = files s.
Proof.
  intros path Ht Hh Hht Hfaults [entries Hdir] Hnone.
  split; [|split; [|split]].
  - rewrite (validateClaudePath_unfold path s (trim path))
      by (by rewrite expandHomePath_no_tilde).
    rewrite bool_decide_eq_false_2 by done. cbv zeta. rewrite !Hfaults, Hdir.
    destruct (countProjectsAndSessions _ _) as [c s3]. by eexists.
  - rewrite (syncAllExisting_unfold s path) by (subst path; by rewrite expandHomePath_no_tilde).
    destruct path as [|c r] eqn:Ep; [done|]. cbn [truthy negb].
    pose proof (findAllJsonlFiles_unfold (c :: r) s) as Hfind.
    unfold listing in Hfind. rewrite Hfaults, Hnone in Hfind.
    destruct Hfind as (e & -> & He). done.
  - rewrite (syncAllExisting_unfold s path) by (subst path; by rewrite expandHomePath_no_tilde).
    destruct path as [|c r] eqn:Ep; [done|]. cbn [truthy negb].
    pose proof (findAllJsonlFiles_unfold (c :: r) s) as Hfind.
    unfold listing in Hfind. rewrite Hfaults, Hnone in Hfind.
    destruct Hfind as (e & -> & He). cbn [default from_option id] in He.
    rewrite (getErrorMessage_ENOENT e He). done.
  - rewrite (syncAllExisting_unfold s path) by (subst path; by rewrite expandHomePath_no_tilde).
    destruct path as [|c r] eqn:Ep; [done|]. cbn [truthy negb].
    pose proof (findAllJsonlFiles_unfold (c :: r) s) as Hfind.
    unfold listing in Hfind. rewrite Hfaults, Hnone in Hfind.
    destruct Hfind as (e & -> & He). done.
Qed.

End Test_and_sync.

(** *** Relative times *)

(** X20.  [formatRelativeTime] shows the time elapsed since a timestamp in
    the largest unit that fits, rounded down: [just now] below one minute
    (also for a timestamp in the future of the clock), minutes from 1 to
    59, hours from 1 to 23, and days from 1 on. *)
Theorem formatRelativeTime_units timestamp s :
  let diff := (clock s (reads s) - timestamp)%Z in
  ∃ text,
    formatRelativeTime timestamp s = (Normal text, set_reads (S (reads s)) s)
    ∧ ((diff < 60000)%Z → text = js "just now")
    ∧ ((60000 ≤ diff < 3600000)%Z →
         text = js (pretty (diff / 60000)%Z) ++ js "m ago" ∧ (1 ≤ diff / 60000 ≤ 59)%Z)
    ∧ ((3600000 ≤ diff < 86400000)%Z →
         text = js (pretty (diff / 3600000)%Z) ++ js "h ago" ∧ (1 ≤ diff / 3600000 ≤ 23)%Z)
    ∧ ((86400000 ≤ diff)%Z →
         text = js (pretty (diff / 86400000)%Z) ++ js "d ago" ∧ (1 ≤ diff / 86400000)%Z).
Proof.
  intros diff. unfold formatRelativeTime, mbind, M_bind, Date_now, mret, M_ret.
  fold diff. eexists. split; [done|].
  assert (diff / 1000 / 60 = diff / 60000)%Z as E1 by (rewrite Z.div_div by lia; done).
  assert (diff / 1000 / 60 / 60 = diff / 3600000)%Z as E2
    by (rewrite E1, Z.div_div by lia; done).
  assert (diff / 1000 / 60 / 60 / 24 = diff / 86400000)%Z as E3
    by (rewrite E2, Z.div_div by lia; done).
  rewrite E3, E2, E1.
  split; [|split; [|split]]; intros Hd.
  - rewrite decide_True; [done|]. apply Z.div_lt_upper_bound; lia.
  - rewrite decide_False by (apply Z.le_ngt, Z.div_le_lower_bound; lia).
    rewrite decide_True by (apply Z.div_lt_upper_bound; lia).
    split; [done|]. split; [apply Z.div_le_lower_bound; lia|].
    apply Z.lt_succ_r, Z.div_lt_upper_bound; lia.
  - rewrite decide_False by (apply Z.le_ngt, Z.div_le_lower_bound; lia).
    rewrite decide_False by (apply Z.le_ngt, Z.div_le_lower_bound; lia).
    rewrite decide_True by (apply Z.div_lt_upper_bound; lia).
    split; [done|]. split; [apply Z.div_le_lower_bound; lia|].
    apply Z.lt_succ_r, Z.div_lt_upper_bound; lia.
  - rewrite decide_False by (apply Z.le_ngt, Z.div_le_lower_bound; lia).
    rewrite decide_False by (apply Z.le_ngt, Z.div_le_lower_bound; lia).
    rewrite decide_False by (apply Z.le_ngt, Z.div_le_lower_bound; lia).
    split; [done|]. apply Z.div_le_lower_bound; lia.
Qed.

(** *** Separators of a platform *)

Lemma join_cons_nonempty sep x piece pieces :
  join sep ((x :: piece) :: pieces) = x :: join sep (piece :: pieces).
Proof. by destruct pieces. Qed.

(** Splitting at a character and joining with another replaces the one by
    the other. *)
Lemma join_split_on c d s :
  join [d] (Path.split_on c s) = (λ x, if x =? c then d else x) <$> s.
Proof.
  induction s as [|x r IH]; [done|].
  cbn [Path.split_on]. rewrite fmap_cons. destruct (x =? c) eqn:E.
  - pose proof (split_on_nonempty c r) as Hne.
    destruct (Path.split_on c r) as [|piece pieces] eqn:Es; [done|].
    change (join [d] ([] :: piece :: pieces)) with (d :: join [d] (piece :: pieces)).
    by rewrite IH.
  - pose proof (split_on_nonempty c r) as Hne.
    destruct (Path.split_on c r) as [|piece pieces] eqn:Es; [done|].
    by rewrite join_cons_nonempty, IH.
Qed.

(** X21.  [toUnixPath] turns every separator of the platform into a
    slash and [toPlatformPath] every slash into the separator of the
    platform.  On POSIX both are the identity.  On every platform a path
    written with slashes only comes back unchanged from the platform form,
    and a path without slash comes back unchanged from the Unix form. *)
Theorem platform_paths_round_trip sep p :
  toUnixPath sep p = (λ x, if x =? sep then c_slash else x) <$> p
  ∧ toPlatformPath sep p = (λ x, if x =? c_slash then sep else x) <$> p
  ∧ (sep = c_slash → toUnixPath sep p = p ∧ toPlatformPath sep p = p)
  ∧ (Forall (λ x, x ≠ sep) p → toUnixPath sep (toPlatformPath sep p) = p)
  ∧ (Forall (λ x, x ≠ c_slash) p → toPlatformPath sep (toUnixPath sep p) = p).
Proof.
  unfold toUnixPath, toPlatformPath. rewrite !join_split_on.
  split; [done|]. split; [done|]. split; [|split].
  - intros ->. split; rewrite <- (list_fmap_id p) at 2; apply list_fmap_ext;
      intros i x _; simpl; by destruct (N.eqb_spec x c_slash).
  - intros Hp. rewrite <- list_fmap_compose. rewrite <- (list_fmap_id p) at 2.
    apply list_fmap_ext. intros i x Hx. simpl.
    rewrite Forall_forall in Hp. specialize (Hp x (list_elem_of_lookup_2 _ _ _ Hx)).
    destruct (N.eqb_spec x c_slash) as [->|Hne].
    + by rewrite N.eqb_refl.
    + by rewrite (proj2 (N.eqb_neq x sep)).
  - intros Hp. rewrite <- list_fmap_compose. rewrite <- (list_fmap_id p) at 2.
    apply list_fmap_ext. intros i x Hx. simpl.
    rewrite Forall_forall in Hp. specialize (Hp x (list_elem_of_lookup_2 _ _ _ Hx)).
    destruct (N.eqb_spec x sep) as [->|Hne].
    + by rewrite N.eqb_refl.
    + by rewrite (proj2 (N.eqb_neq x c_slash)).
Qed.

(** *** The status bar *)

(** X22.  The status bar always reads [Claude: ] followed by a status.  A
    custom status changes the text only.  Without one, the text tells
    whether the plugin is configured and has synced, the success style is
    set exactly when a path is configured and a sync has been recorded, and
    the error style is never set. *)
Theorem updateStatusBar_styles customStatus item s :
  ∃ item',
    (updateStatusBar customStatus (Some item) s).1 = Normal (Some item')
    ∧ take 8 (sb_text item') = js "Claude: "
    ∧ (truthy_field customStatus = true →
         sb_text item' = js "Claude: " ++ default [] customStatus
         ∧ sb_classes item' = sb_classes item)
    ∧ (truthy_field customStatus = false →
         (js "claude-syncer-error" ∉ sb_classes item')
         ∧ (js "claude-syncer-success" ∈ sb_classes item' ↔
              claudeProjectsPath (settings s) ≠ [] ∧ lastSyncTime (settings s) ≠ 0%Z)
         ∧ (claudeProjectsPath (settings s) = [] → sb_text item' = js "Claude: Not configured")
         ∧ (claudeProjectsPath (settings s) ≠ [] → lastSyncTime (settings s) = 0%Z →
              sb_text item' = js "Claude: Ready")).
Proof.
  unfold updateStatusBar. destruct (truthy_field customStatus) eqn:Ec.
  { eexists. split; [done|]. split; [done|]. by split. }
  unfold mbind, M_bind, mret, M_ret.
  destruct (claudeProjectsPath (settings s)) as [|c r] eqn:Ep; cbn [truthy negb].
  { eexists. split; [done|]. split; [done|]. split; [done|]. intros _.
    cbn [sb_classes sb_text]. split; [set_solver|]. split; [|done].
    split; [set_solver|]. by intros [? _]. }
  case_bool_decide as Hl.
  { eexists. split; [done|]. split; [done|]. split; [done|]. intros _.
    cbn [sb_classes sb_text]. split; [set_solver|]. split; [|done].
    split; [set_solver|]. by intros [_ ?]. }
  unfold formatRelativeTime, mbind, M_bind, Date_now, mret, M_ret.
  eexists. split; [done|]. split; [done|]. split; [done|]. intros _.
  cbn [sb_classes sb_text]. split; [set_solver|]. split; [|done].
  split; [done|]. intros _.
  apply elem_of_difference. split; [set_solver|].
  rewrite elem_of_singleton. by vm_compute.
Qed.

(** *** Starting the watcher *)

(** X23.  [startWatching] never throws and opens at most one watcher.
    When one is open it does nothing at all.  Otherwise a watcher is
    opened exactly when the expanded projects path is not empty and can be
    accessed; when the path cannot be accessed the failure is shown in a
    notice, and with an empty path nothing is shown and no call is made. *)
Theorem startWatching_opens_one_watcher watching s claudePath :
  (expandHomePath (claudeProjectsPath (settings s)) s).1 = Normal claudePath →
  startWatching true s = (Normal true, s)
  ∧ ∃ opened,
      (startWatching watching s).1 = Normal opened
      ∧ files (startWatching watching s).2 = files s
      ∧ (watching = false →
           (opened = true ↔
              claudePath ≠ []
              ∧ faults s (Access claudePath) = None
              ∧ (is_Some (dirs s !! claudePath) ∨ is_Some (files s !! claudePath)))
           ∧ (claudePath = [] → startWatching watching s = (Normal false, s))
           ∧ (claudePath ≠ [] → opened = true →
                notices (startWatching watching s).2 = notices s)
           ∧ (claudePath ≠ [] → opened = false →
                ∃ e, notices (startWatching watching s).2
                     = notices s
                       ++ [js "Failed to start watching Claude directory: "
                           ++ getErrorMessage e])).
Proof.
  intros Hexp. split; [done|].
  destruct watching.
  { exists true. by repeat split. }
  unfold startWatching, mbind, M_bind, mret, M_ret, try_catchM, notice.
  destruct (expandHomePath_returns (claudeProjectsPath (settings s)) s) as [x E].
  rewrite E in Hexp |- *. simpl in Hexp. injection Hexp as ->.
  destruct claudePath as [|c r]; cbn [truthy negb].
  { exists false. split; [done|]. split; [done|]. intros _.
    split; [by split; [|intros [? _]]|]. by repeat split. }
  unfold fs_access_entry, host_call.
  destruct (faults s (Access (c :: r))) as [code|] eqn:Ea.
  { exists false. split; [done|]. split; [done|]. intros _.
    split; [by split; [|intros (_ & ? & _)]|]. split; [done|]. split; [done|].
    intros _ _. by eexists. }
  cbn [dirs files set_trace].
  destruct (dirs s !! (c :: r)) as [entries|] eqn:Ed.
  { exists true. split; [done|]. split; [done|]. intros _.
    split; [|by repeat split]. split; [|done]. intros _. split; [done|]. split; [done|].
    left. by eexists. }
  destruct (files s !! (c :: r)) as [f|] eqn:Ef.
  { exists true. split; [done|]. split; [done|]. intros _.
    split; [|by repeat split]. split; [|done]. intros _. split; [done|]. split; [done|].
    right. by eexists. }
  exists false. split; [done|]. split; [done|]. intros _.
  split; [|split; [done|split; [done|]]].
  - split; [done|]. intros (_ & _ & [[? [=]]|[? [=]]]).
  - intros _ _. by eexists.
Qed.

(** *** What a sync may write *)

Section Sync_writes.
Context `{!JSON}.

Lemma sync_copy_files p pp tp messages s :
  files (sync_copy p pp tp messages s).2 = files s
  ∨ (∃ copy, files (sync_copy p pp tp messages s).2 = <[jsonlFile tp := copy]> (files s))
  ∨ (∃ copy side,
       files (sync_copy p pp tp messages s).2
       = <[metaFile tp := side]> (<[jsonlFile tp := copy]> (files s))).
Proof.
  unfold sync_copy, mbind, M_bind, mret, M_ret.
  rewrite generateMetadata_unfold.
  unfold ensureDirectory, fs_mkdir, fs_readFile, fs_writeFile, saveSettings,
    Date_now, try_catchM, host_call, throw, mret, M_ret.
  repeat (case_match; simplify_eq/=).
  all: first [ by left | right; left; by eexists | right; right; by eexists _, _ ].
Qed.

(** X24.  Whatever happens, a sync writes nothing but the copy and the
    sidecar of its session, and the sidecar only after the copy: its
    files are afterwards those of before, or those with the copy written,
    or those with the copy and the sidecar written.  In particular a
    source that is not itself one of the two destinations is left as it
    was. *)
Theorem syncSingleFile_writes_only_its_targets p s :
  let s' := (syncSingleFile p s).2 in
  files s' = files s
  ∨ ∃ pp tp copy,
      parseClaudePath p = Normal pp
      ∧ getTargetPaths (vaultBasePath s) (obsidianStoragePath (settings s)) pp = Normal tp
      ∧ (files s' = <[jsonlFile tp := copy]> (files s)
         ∨ ∃ side, files s' = <[metaFile tp := side]> (<[jsonlFile tp := copy]> (files s)))
      ∧ (p ≠ jsonlFile tp → p ≠ metaFile tp → files s' !! p = files s !! p).
Proof.
  intros s'. subst s'. rewrite syncSingleFile_unfold.
  case_bool_decide as Hp; [by left|].
  rewrite sync_try_unfold.
  destruct (parseClaudePath p) as [pp|] eqn:Epp; [|by left].
  simpl. destruct (getTargetPaths _ _ _) as [tp|] eqn:Etp; [|by left].
  destruct (shouldSync_returns p (metaFile tp) (mark p s)) as (b & t & -> & _).
  destruct b; [|by left].
  rewrite parseJsonlFile_unfold. simpl.
  destruct (faults s (CreateReadStream p)); [by left|].
  destruct (files s !! p) as [f0|] eqn:Ef0; [|by left].
  destruct (parse_lines _) as [|m ms] eqn:Em; [by left|].
  match goal with |- context [sync_copy p pp tp ?ms ?s0] =>
    pose proof (sync_copy_files p pp tp ms s0) as Hfiles;
    destruct (sync_copy p pp tp ms s0) as [c s1]
  end.
  cbn [snd files unmark set_syncInProgress set_trace mark] in Hfiles |- *.
  destruct Hfiles as [->|[[copy ->]|(copy & side & ->)]]; [by left|right..].
  - exists pp, tp, copy. split; [done|]. split; [done|]. split; [by left|].
    intros H1 _. by rewrite lookup_insert_ne.
  - exists pp, tp, copy. split; [done|]. split; [done|]. split; [right; by exists side|].
    intros H1 H2. by rewrite !lookup_insert_ne.
Qed.

End Sync_writes.

(** *** Paths without a project directory *)

Lemma normalize_plain_segment s :
  Forall (λ x, x ≠ Path.sep) s → Path.normalize s = if decide (s = []) then [c_dot] else s.
Proof.
  intros Hs. destruct s as [|c r] eqn:E; [done|]. rewrite <- E in *.
  rewrite decide_False by (by rewrite E).
  unfold Path.normalize, Path.normalizeString. rewrite (split_on_free _ s) by done.
  rewrite E at 1. cbv iota.
  assert (c ≠ Path.sep) as Hc by (rewrite E in Hs; by apply Forall_cons in Hs as [? _]).
  rewrite (proj2 (N.eqb_neq c Path.sep)) by done. cbn [negb].
  assert (last s ≠ Some Path.sep) as Hl.
  { intros Hl%last_Some_elem_of. rewrite Forall_forall in Hs. by apply (Hs Path.sep). }
  rewrite bool_decide_eq_false_2 by done.
  cbn [Path.normalize_segments].
  case_bool_decide as H1.
  { destruct H1 as [->| ->]; [done|]. done. }
  case_bool_decide as H2.
  { rewrite H2. done. }
  cbn [reverse]. rewrite reverse_cons, reverse_nil. cbn [app join].
  rewrite E. by rewrite <- E.
Qed.

(** X25.  A path without any separator has no project directory:
    [parseClaudePath] does not throw on it, leaves the encoded project name
    undefined and gives the project the display name [undefined]. *)
Theorem parseClaudePath_without_directory filePath :
  Forall (λ x, x ≠ Path.sep) filePath →
  ∃ pp,
    parseClaudePath filePath = Normal pp
    ∧ encodedProjectName pp = None
    ∧ decodedProjectName pp = js "undefined"
    ∧ projectsDir pp = []
    ∧ fullPath pp = (if decide (filePath = []) then js "." else filePath)
    ∧ pp_sessionId pp = replace_first (js ".jsonl") [] (fullPath pp).
Proof.
  intros Hfree. unfold parseClaudePath. rewrite normalize_plain_segment by done.
  set (normalized := if decide (filePath = []) then [c_dot] else filePath).
  assert (Forall (λ x, x ≠ Path.sep) normalized) as Hn.
  { subst normalized. case_decide; [|done]. by repeat constructor. }
  rewrite (split_on_free _ normalized) by done.
  cbn [length last default from_option id slice_0_minus2 take join Nat.sub].
  rewrite decide_False by (simpl; lia).
  eexists. split; [reflexivity|]. by repeat split.
Qed.

(** *** Branch and version of a session *)


Section Metadata_facts.
Context `{!JSON}.


End Metadata_facts.

(** *** The status after an automatic sync *)

Section Execute_sync.
Context `{!JSON}.

(** X28.  After a sync that copied a session, with a projects path in the
    settings, [executeSync] leaves the status bar with the success style
    and the text [Claude: just now], provided that the clock has not
    advanced by a minute between the sync and the update of the bar (and
    that the time recorded for the sync is not zero). *)
Theorem executeSync_shows_just_now p item s r :
  (syncSingleFile p s).1 = Normal r → action r = updated →
  claudeProjectsPath (settings s) ≠ [] →
  let s' := (syncSingleFile p s).2 in
  lastSyncTime (settings s') ≠ 0%Z →
  (clock s' (reads s') - lastSyncTime (settings s') < 60000)%Z →
  (executeSync p (Some item) s).1
  = Normal (Some {| sb_text := js "Claude: just now";
                    sb_classes := ({[js "claude-syncer-success"]} ∪ sb_classes item)
                                    ∖ {[js "claude-syncer-error"]} |}).
Proof.
  intros Hrun Hact Hpath s' Hlast Hclock.
  destruct (syncSingleFile_updated_run p s r Hrun Hact)
    as (f & pp & tp & md & t & _ & _ & _ & _ & _ & _ & _ & _ & _ & Hset & _).
  fold s' in Hset.
  unfold executeSync, try_catchM, mbind, M_bind.
  destruct (syncSingleFile p s) as [c s1] eqn:E. simpl in Hrun. subst c.
  cbn [snd] in s'. subst s'.
  unfold updateStatusBar. cbn [truthy_field]. unfold mbind, M_bind, mret, M_ret.
  assert (claudeProjectsPath (settings s1) = claudeProjectsPath (settings s)) as Hp
    by (by rewrite Hset).
  rewrite Hp. destruct (claudeProjectsPath (settings s)) as [|c0 r0]; [done|].
  cbn [truthy negb]. rewrite bool_decide_eq_false_2 by done.
  unfold formatRelativeTime, mbind, M_bind, Date_now, mret, M_ret.
  rewrite decide_True by (apply Z.div_lt_upper_bound; lia). done.
Qed.

End Execute_sync.

(** *** Further concrete runs *)

Ltac by_computation := apply (bool_decide_unpack _); vm_compute; exact I.

Module More_runs.
Import Demo Runs Worlds.


Lemma syncAllExisting_nothing_to_sync_witness :
  (syncAllExisting nowhere).1 = Normal []
  ∧ notices (syncAllExisting nowhere).2 = [js "Sync error: File or directory not found"]
  ∧ trace (syncAllExisting nowhere).2 = [Readdir (js "/nowhere")].
Proof.
  destruct (proj1 (proj2 (syncAllExisting_nothing_to_sync nowhere)) (js "/nowhere"))
    as (e & He & Hrun).
  - vm_compute. reflexivity.
  - discriminate.
  - vm_compute. reflexivity.
  - rewrite Hrun. cbn [fst snd notices trace set_notices set_trace].
    rewrite (getErrorMessage_ENOENT e He). repeat split; vm_compute; reflexivity.
Defined.

Lemma found_files_parse_back_witness :
  ends_with (js ".jsonl") session1 = true
  ∧ ∃ pp, parseClaudePath session1 = Normal pp
          ∧ encodedProjectName pp = Some project
          ∧ pp_sessionId pp = js "s1".
Proof.
  destruct (found_files_parse_back two_sessions root_segments [(project, true)] session1)
    as (Hext & name & f & pp & Hname & Hp & Hpp & _ & Henc & _ & Hsid & Hbase & _).
  - by_computation.
  - vm_compute. reflexivity.
  - intros name isDirectory [[= -> ->]|Hin]%elem_of_cons; [|by apply elem_of_nil in Hin].
    by_computation.
  - intros name projectFiles f isDirectory
      [[= ->]|Hin]%elem_of_cons; [|by apply elem_of_nil in Hin].
    intros Hl. vm_compute in Hl. injection Hl as <-.
    intros Hf. repeat (apply elem_of_cons in Hf as [[= -> ->]|Hf];
                       [by_computation|]).
    by apply elem_of_nil in Hf.
  - vm_compute. left.
  - split; [exact Hext|]. exists pp. split; [exact Hpp|].
    apply list_elem_of_singleton in Hname. injection Hname as ->.
    split; [exact Henc|].
    assert (f = js "s1.jsonl") as ->.
    { vm_compute in Hp. injection Hp as Hp. by repeat (injection Hp as ? Hp; subst). }
    rewrite Hsid. reflexivity.
Defined.

Lemma sessions_have_their_own_files_witness :
  ∃ tp1 tp2,
    cbind (parseClaudePath session1) (getTargetPaths (Some (js "/vault")) (js "Claude-Contexts"))
      = Normal tp1
    ∧ cbind (parseClaudePath session2) (getTargetPaths (Some (js "/vault")) (js "Claude-Contexts"))
      = Normal tp2
    ∧ jsonlFile tp1 ≠ jsonlFile tp2 ∧ metaFile tp1 ≠ metaFile tp2
    ∧ jsonlFile tp1 ≠ metaFile tp2.
Proof.
  destruct (parseClaudePath session1) as [pp1|] eqn:E1; [|by vm_compute in E1].
  destruct (parseClaudePath session2) as [pp2|] eqn:E2; [|by vm_compute in E2].
  destruct (getTargetPaths (Some (js "/vault")) (js "Claude-Contexts") pp1) as [tp1|] eqn:T1;
    [|done].
  destruct (getTargetPaths (Some (js "/vault")) (js "Claude-Contexts") pp2) as [tp2|] eqn:T2;
    [|done].
  destruct (sessions_have_their_own_files _ _ _ _ _ _ _ _ E1 E2 T1 T2) as [Hne Hjm].
  exists tp1, tp2. split; [done|]. split; [done|].
  split; [|split; [|exact Hjm]]; apply Hne.
  all: vm_compute in E1, E2; injection E1 as <-; injection E2 as <-; by vm_compute.
Defined.

Lemma decodeProjectName_plain_witness :
  decodeProjectName (js "my project") = Normal (js "my project").
Proof.
  apply (decodeProjectName_plain (js "my project")); [done|].
  by_computation.
Defined.

Lemma projects_share_a_display_name_witness :
  js "/home/u/.claude/projects/home%2Fu/s1.jsonl" ≠ js "/home/u/.claude/projects/home%5Cu/s1.jsonl"
  ∧ ∃ pp1 pp2,
      parseClaudePath (js "/home/u/.claude/projects/home%2Fu/s1.jsonl") = Normal pp1
      ∧ parseClaudePath (js "/home/u/.claude/projects/home%5Cu/s1.jsonl") = Normal pp2
      ∧ decodedProjectName pp1 = decodedProjectName pp2
      ∧ getTargetPaths (Some (js "/vault")) (js "Claude-Contexts") pp1
        = getTargetPaths (Some (js "/vault")) (js "Claude-Contexts") pp2.
Proof.
  destruct (projects_share_a_display_name root_segments (js "home") (js "u") (js "u")
              (js "s1.jsonl") (Some (js "/vault")) (js "Claude-Contexts"))
    as (Hne & pp1 & pp2 & H1 & H2 & _ & _ & Hd & Ht).
  - by_computation.
  - by_computation.
  - by_computation.
  - by_computation.
  - reflexivity.
  - split; [exact Hne|]. exists pp1, pp2. by repeat split.
Defined.

Lemma expandHomePath_absolute_witness :
  expandHomePath (js "~/.claude/projects") fresh = (Normal root, fresh)
  ∧ expandHomePath root fresh = (Normal root, fresh).
Proof.
  destruct (expandHomePath_absolute (js "~/.claude/projects") fresh)
    as (expanded & Hexp & _ & _ & _ & _ & Hidem); [reflexivity|].
  assert (expanded = root) as ->.
  { apply (f_equal fst) in Hexp. vm_compute in Hexp. injection Hexp as <-. reflexivity. }
  by split.
Defined.

Lemma debounce_lets_through_witness :
  executed_for session2 (advance_to 5000 (run_file_events burst new_debouncer))
  = [(1300%Z, session2); (3900%Z, session2)].
Proof.
  rewrite (debounce_lets_through session2 burst 5000).
  - vm_compute. reflexivity.
  - simpl. lia.
  - by_computation.
  - lia.
Defined.

Lemma syncSingleFile_updated_effect_witness :
  (syncSingleFile session1 fresh).1 = Normal synced1
  ∧ trace (syncSingleFile session1 fresh).2
    = [Access sidecar1; CreateReadStream session1;
       Mkdir (js "/vault/Claude-Contexts/home - u - proj"); ReadFile session1;
       WriteFile copy1 (Unicode.string_to_utf8 three_lines);
       WriteFile sidecar1 (Unicode.string_to_utf8 (JSON_stringify_metadata metadata1));
       SaveData (settings (syncSingleFile session1 fresh).2)]
  ∧ lastSyncTime (settings (syncSingleFile session1 fresh).2) = 5001%Z.
Proof.
  assert ((syncSingleFile session1 fresh).1 = Normal synced1) as Hrun
    by (vm_compute; reflexivity).
  destruct (syncSingleFile_updated_effect session1 fresh synced1 Hrun eq_refl)
    as (f & pp & tp & md & t & _).
  split; [exact Hrun|]. split; vm_compute; reflexivity.
Defined.

Lemma resync_is_skipped_witness :
  (syncSingleFile session1 (syncSingleFile session1 fresh).2).1
    = Normal (skipped_up_to_date parsed1)
  ∧ files (syncSingleFile session1 (syncSingleFile session1 fresh).2).2
    = files (syncSingleFile session1 fresh).2.
Proof.
  destruct (resync_is_skipped session1 fresh synced1 (text_file three_lines 1000)
              parsed1 targets1 metadata1 metadata1) as (Hrun & Hfiles & _).
  - vm_compute. reflexivity.
  - reflexivity.
  - vm_compute. reflexivity.
  - vm_compute. reflexivity.
  - vm_compute. reflexivity.
  - by vm_compute.
  - by vm_compute.
  - reflexivity.
  - reflexivity.
  - reflexivity.
  - vm_compute. reflexivity.
  - vm_compute. reflexivity.
  - by vm_compute.
  - split; [exact Hrun|exact Hfiles].
Defined.

Lemma validateClaudePath_verdict_witness :
  (validateClaudePath (js " ~/.claude/projects ") two_sessions).1
  = Normal {| valid := true; v_message := js "Connection successful";
              projectCount := Some 1%nat; sessionCount := Some 2%nat |}.
Proof.
  destruct (proj2 (validateClaudePath_verdict (js " ~/.claude/projects ") two_sessions) root)
    as (r & Hr & _ & Hvalid & Hcounts & _).
  - by vm_compute.
  - vm_compute. reflexivity.
  - rewrite Hr. f_equal.
    assert (valid r = true) as Hv.
    { apply Hvalid. split; [reflexivity|]. split; [|reflexivity]. vm_compute. by eexists. }
    destruct (Hcounts Hv) as (counts & Hc & ->).
    vm_compute in Hc. by injection Hc as <-.
Defined.

Lemma test_passes_where_sync_fails_witness :
  (∃ r, (validateClaudePath (root ++ js " ") trailing_space).1 = Normal r ∧ valid r = true)
  ∧ (syncAllExisting trailing_space).1 = Normal []
  ∧ notices (syncAllExisting trailing_space).2
    = [js "Sync error: File or directory not found"].
Proof.
  destruct (test_passes_where_sync_fails trailing_space) as (Htest & Hsync & Hnotice & _).
  - by vm_compute.
  - by vm_compute.
  - by vm_compute.
  - done.
  - vm_compute. by eexists.
  - vm_compute. reflexivity.
  - split; [exact Htest|]. split; [exact Hsync|]. rewrite Hnotice. reflexivity.
Defined.

Lemma formatRelativeTime_units_witness :
  (formatRelativeTime (5000 - 7200000) fresh).1 = Normal (js "2h ago").
Proof.
  destruct (formatRelativeTime_units (5000 - 7200000) fresh)
    as (text & Hrun & _ & _ & Hhours & _).
  rewrite Hrun. cbn [fst]. f_equal.
  destruct Hhours as [-> _]; [vm_compute; split; [discriminate|reflexivity]|].
  vm_compute. reflexivity.
Defined.

Lemma startWatching_opens_one_watcher_witness :
  (startWatching false two_sessions).1 = Normal true
  ∧ (startWatching false nowhere).1 = Normal false
  ∧ notices (startWatching false nowhere).2
    = [js "Failed to start watching Claude directory: File or directory not found"].
Proof.
  destruct (startWatching_opens_one_watcher false two_sessions root)
    as (_ & opened & Hrun & _ & Hopen); [vm_compute; reflexivity|].
  split; [|split; vm_compute; reflexivity].
  rewrite Hrun. f_equal. apply (Hopen eq_refl).
  split; [discriminate|]. split; [reflexivity|]. left. vm_compute. by eexists.
Defined.

Lemma parseClaudePath_without_directory_witness :
  ∃ pp, parseClaudePath (js "s1.jsonl") = Normal pp
        ∧ decodedProjectName pp = js "undefined"
        ∧ pp_sessionId pp = js "s1".
Proof.
  destruct (parseClaudePath_without_directory (js "s1.jsonl"))
    as (pp & Hpp & _ & Hname & _ & Hfull & Hsid); [by_computation|].
  exists pp. split; [exact Hpp|]. split; [exact Hname|].
  rewrite Hsid, Hfull. reflexivity.
Defined.

Lemma copy_of_well_formed_source_witness :
  content <$> files (syncSingleFile session1 fresh).2 !! jsonlFile targets1
  = Some (content (text_file three_lines 1000)).
Proof.
  destruct (copy_of_well_formed_source session1 fresh synced1)
    as (f & pp & tp & Hf & Hpp & Htp & _ & Hcopy).
  - vm_compute. reflexivity.
  - reflexivity.
  - discriminate.
  - assert (f = text_file three_lines 1000) as ->.
    { vm_compute in Hf. injection Hf as <-. reflexivity. }
    assert (tp = targets1) as ->.
    { vm_compute in Hpp. injection Hpp as <-. vm_compute in Htp. injection Htp as <-.
      reflexivity. }
    refine (Hcopy _). by_computation.
Defined.

Lemma sanitizeFileName_safe_witness :
  sanitizeFileName (js "src/app") = js "src/app".
Proof.
  apply (sanitizeFileName_safe (js "src/app")); [by_computation|simpl; lia].
Defined.

Lemma resync_repeats_for_newer_source_witness :
  (syncSingleFile session1 (syncSingleFile session1 future_source).2).1 = Normal synced1.
Proof.
  destruct (resync_repeats_for_newer_source session1 future_source synced1
              (text_file three_lines 9000) parsed1 targets1 metadata1 metadata1)
    as (r2 & Hrun & _).
  - vm_compute. reflexivity.
  - reflexivity.
  - vm_compute. reflexivity.
  - vm_compute. reflexivity.
  - vm_compute. reflexivity.
  - by vm_compute.
  - by vm_compute.
  - reflexivity.
  - reflexivity.
  - reflexivity.
  - vm_compute. reflexivity.
  - vm_compute. reflexivity.
  - by vm_compute.
  - rewrite Hrun. f_equal.
    assert ((syncSingleFile session1 (syncSingleFile session1 future_source).2).1
            = Normal synced1) as E by (vm_compute; reflexivity).
    rewrite Hrun in E. by injection E.
Defined.

Lemma executeSync_shows_just_now_witness :
  (executeSync session1 (Some {| sb_text := []; sb_classes := ∅ |}) full_path).1
  = Normal (Some {| sb_text := js "Claude: just now";
                    sb_classes := ({[js "claude-syncer-success"]} ∪ ∅)
                                    ∖ {[js "claude-syncer-error"]} |}).
Proof.
  refine (executeSync_shows_just_now session1 {| sb_text := []; sb_classes := ∅ |}
            full_path synced1 _ _ _ _ _).
  - vm_compute. reflexivity.
  - reflexivity.
  - discriminate.
  - by vm_compute.
  - by vm_compute.
Defined.

End More_runs.
